(** * Hybrid retrieval and ranking pipeline: a shallow embedding

    The development follows [src/backend/api/rag-pipeline.ts] (the Pages-API
    [handler]) and its App-Router successor (the [POST] route with
    [enhanceWithLLM]).  Both files share [normalizeStory],
    [performHybridSearch], [normalizeScore], [computeCosineSimilarity] and
    [computeTextSimilarity] verbatim; they differ in the weight
    normalisation and in the LLM re-ranking stage.

    Modelling conventions.
    - A JavaScript number is a finite number, taken at its exact value
      ([Q]); [===] on numbers is [Qeq_bool].  NaN and the infinities are
      outside the model, but for the score of the judge, which is read
      from a text ([Extended]): every division below is either guarded by
      the source against a zero divisor or returns [None] where
      JavaScript would produce a non-finite value.
    - The source computes in IEEE 754 doubles, so the theorems about the
      program state what rounding leaves as it is: that a value is the
      value of an expression of the source, how values are ordered, and
      the bounds that monotone operations keep.  What rounding changes
      (an exact sum, an exact invariance) is stated in lemmas that say
      so, and is settled for the code in the module [Binary64], which
      has the same arithmetic on doubles.
    - A JavaScript string is a [string] of code units below 256.
    - A [Map] and a [Set] keep insertion order, so they are lists with
      unique keys, updated in place.
    - External services (the embedding of the story, the document
      collection, the chat model, [JSON.parse], [Math.sqrt]) are inputs. *)

From Stdlib Require Import QArith Qround Lqa Sorted PrimFloat.
From stdpp Require Import base list strings gmap.
From Stdlib Require Import Ascii String.

Local Open Scope string_scope.
Local Open Scope list_scope.

(** ** Characters and strings *)

(** [\s] in a regular expression, and the characters removed by
    [String.prototype.trim], restricted to code units below 256:
    TAB, LF, VT, FF, CR, SPACE and NO-BREAK SPACE. *)
Definition isWhiteSpace (c : ascii) : bool :=
  let n := nat_of_ascii c in
  ((9 <=? n)%nat && (n <=? 13)%nat) || (n =? 32)%nat || (n =? 160)%nat.

(** Line terminators below 256: the characters [.] does not match. *)
Definition isLineTerminator (c : ascii) : bool :=
  let n := nat_of_ascii c in (n =? 10)%nat || (n =? 13)%nat.

(** [toLowerCase] on one code unit: A-Z and the Latin-1 capitals
    (0xC0-0xDE without the multiplication sign 0xD7) move up by 32. *)
Definition lowerChar (c : ascii) : ascii :=
  let n := nat_of_ascii c in
  if ((65 <=? n)%nat && (n <=? 90)%nat)
     || ((192 <=? n)%nat && (n <=? 222)%nat && negb (n =? 215)%nat)
  then ascii_of_nat (n + 32) else c.

(** [toUpperCase] on one code unit: a-z and the Latin-1 small letters
    (0xE0-0xFE without the division sign 0xF7) move down by 32.  The
    sharp s, the micro sign and y-diaeresis, whose upper-case forms are
    not single code units below 256, are left as they are. *)
Definition upperChar (c : ascii) : ascii :=
  let n := nat_of_ascii c in
  if ((97 <=? n)%nat && (n <=? 122)%nat)
     || ((224 <=? n)%nat && (n <=? 254)%nat && negb (n =? 247)%nat)
  then ascii_of_nat (n - 32) else c.

Fixpoint toLowerCase (s : string) : string :=
  match s with
  | EmptyString => EmptyString
  | String c r => String (lowerChar c) (toLowerCase r)
  end.

Fixpoint toUpperCase (s : string) : string :=
  match s with
  | EmptyString => EmptyString
  | String c r => String (upperChar c) (toUpperCase r)
  end.

(** [s.charAt(0)]: the first code unit as a string, or the empty string. *)
Definition charAt0 (s : string) : string :=
  match s with
  | EmptyString => EmptyString
  | String c _ => String c EmptyString
  end.

(** [s.slice(1)]. *)
Definition slice1 (s : string) : string :=
  match s with
  | EmptyString => EmptyString
  | String _ r => r
  end.

(** [s.slice(0, n)] and [s.substring(0, n)] for a count [n]. *)
Fixpoint sliceTo (n : nat) (s : string) : string :=
  match n, s with
  | O, _ => EmptyString
  | _, EmptyString => EmptyString
  | S k, String c r => String c (sliceTo k r)
  end.

Fixpoint trimStart (s : string) : string :=
  match s with
  | String c r => if isWhiteSpace c then trimStart r else s
  | EmptyString => EmptyString
  end.

(** [trimEnd]: a character is kept when it is not white space or when
    something is kept after it. *)
Fixpoint trimEnd (s : string) : string :=
  match s with
  | EmptyString => EmptyString
  | String c r =>
      match trimEnd r with
      | EmptyString => if isWhiteSpace c then EmptyString else String c EmptyString
      | r' => String c r'
      end
  end.

Definition trim (s : string) : string := trimEnd (trimStart s).

(** ** Lexical similarity scorer *)

(** [s.split(/\s+/)]: the pieces between maximal runs of white space.
    [cur] is the piece being read and [inSep] tells that the previous
    character was white space.  The last piece is always emitted, so the
    empty string splits into one empty piece, and leading or trailing
    white space yields an empty first or last piece. *)
Fixpoint split_go (s cur : string) (inSep : bool) : list string :=
  match s with
  | EmptyString => [cur]
  | String c r =>
      if isWhiteSpace c then
        if inSep then split_go r EmptyString true
        else cur :: split_go r EmptyString true
      else split_go r (cur +:+ String c EmptyString) false
  end.

Definition split_ws (s : string) : list string := split_go s EmptyString false.

(** A [Set] of strings in insertion order. *)
Definition Set_has (s : list string) (x : string) : bool :=
  bool_decide (x ∈ s).

Definition Set_add (s : list string) (x : string) : list string :=
  if Set_has s x then s else s ++ [x].

(** [new Set(iterable)]. *)
Definition new_Set (l : list string) : list string :=
  fold_left Set_add l [].

Definition Set_size (s : list string) : nat := List.length s.

Definition ratio (n m : nat) : Q :=
  (inject_Z (Z.of_nat n) / inject_Z (Z.of_nat m))%Q.

Definition computeTextSimilarity (text1 text2 : string) : Q :=
  let words1 := new_Set (split_ws text1) in
  let words2 := new_Set (split_ws text2) in
  let intersection := new_Set (List.filter (Set_has words2) words1) in
  let union := new_Set (words1 ++ words2) in
  ratio (Set_size intersection) (Set_size union).

(** The call site in [performHybridSearch]:
    [computeTextSimilarity(text?.toLowerCase() || '', doc.content?.toLowerCase() || '')]. *)
Definition textScore (text content : string) : Q :=
  computeTextSimilarity (toLowerCase text) (toLowerCase content).

(** ** Regular expressions

    The fragment of JavaScript regular expressions the pipeline uses,
    with the backtracking semantics of [RegExp.prototype.exec]: the
    leftmost start position wins, alternatives are tried in order, a
    greedy quantifier tries the longest repetition first and a lazy one
    the shortest.  Quantified atoms are single-character classes, which
    is all the source needs. *)
Inductive regex : Type :=
| Eps                                   (* the empty pattern *)
| Lit (c : ascii)                       (* a literal character *)
| Cls (p : ascii -> bool)               (* a character class, or [.] *)
| Seq (r1 r2 : regex)
| Alt (r1 r2 : regex)
| Opt (r : regex)                       (* [r?], greedy *)
| Plus (greedy : bool) (p : ascii -> bool)  (* [c+] and [c+?] *)
| Star (greedy : bool) (p : ascii -> bool)  (* [c*] and [c*?] *)
| Group (r : regex)                     (* a capturing group *)
| Eos.                                  (* [$] without the m flag *)

Definition orElse {R} (a b : option R) : option R :=
  match a with Some x => Some x | None => b end.

(** One or more characters of class [p], then the continuation [k]. *)
Fixpoint many1 {R} (greedy : bool) (p : ascii -> bool)
    (k : string -> option R) (s : string) : option R :=
  match s with
  | EmptyString => None
  | String c r =>
      if p c then
        if greedy then orElse (many1 greedy p k r) (k r)
        else orElse (k r) (many1 greedy p k r)
      else None
  end.

Definition many0 {R} (greedy : bool) (p : ascii -> bool)
    (k : string -> option R) (s : string) : option R :=
  if greedy then orElse (many1 greedy p k s) (k s)
  else orElse (k s) (many1 greedy p k s).

(** Literal comparison; under the [i] flag both sides are folded. *)
Definition litMatches (icase : bool) (pat c : ascii) : bool :=
  if icase then Ascii.eqb (lowerChar pat) (lowerChar c) else Ascii.eqb pat c.

(** [rmatch icase r caps k s]: match [r] at the start of [s], then hand
    the captures so far and the rest of the input to [k]. *)
Fixpoint rmatch {R} (icase : bool) (r : regex) (caps : list string)
    (k : list string -> string -> option R) (s : string) : option R :=
  match r with
  | Eps => k caps s
  | Lit p =>
      match s with
      | String c s' => if litMatches icase p c then k caps s' else None
      | EmptyString => None
      end
  | Cls p =>
      match s with
      | String c s' => if p c then k caps s' else None
      | EmptyString => None
      end
  | Seq r1 r2 => rmatch icase r1 caps (fun caps' s' => rmatch icase r2 caps' k s') s
  | Alt r1 r2 => orElse (rmatch icase r1 caps k s) (rmatch icase r2 caps k s)
  | Opt r1 => orElse (rmatch icase r1 caps k s) (k caps s)
  | Plus g p => many1 g p (k caps) s
  | Star g p => many0 g p (k caps) s
  | Group r1 =>
      rmatch icase r1 caps
        (fun caps' s' =>
           k (caps' ++ [sliceTo (String.length s - String.length s') s]) s') s
  | Eos => match s with EmptyString => k caps s | _ => None end
  end.

(** A match anchored at the start of the input ([^...]). *)
Definition matchAtStart (icase : bool) (r : regex) (s : string) : option (list string) :=
  rmatch icase r [] (fun caps _ => Some caps) s.

(** [exec]: the captures of the leftmost match, trying every start
    position from the first to the end of the input. *)
Fixpoint exec (icase : bool) (r : regex) (s : string) : option (list string) :=
  match matchAtStart icase r s with
  | Some caps => Some caps
  | None =>
      match s with
      | EmptyString => None
      | String _ s' => exec icase r s'
      end
  end.

Definition test (icase : bool) (r : regex) (s : string) : bool :=
  match exec icase r s with Some _ => true | None => false end.

(** A literal word, character by character. *)
Fixpoint word (w : string) : regex :=
  match w with
  | EmptyString => Eps
  | String c EmptyString => Lit c
  | String c r => Seq (Lit c) (word r)
  end.

Definition anyChar (c : ascii) : bool := negb (isLineTerminator c).
Definition everyChar (_ : ascii) : bool := true.
Definition notCommaDot (c : ascii) : bool :=
  negb (Ascii.eqb c ","%char || Ascii.eqb c "."%char).
Definition isDigit (c : ascii) : bool :=
  let n := nat_of_ascii c in (48 <=? n)%nat && (n <=? 57)%nat.
Definition isZeroDigit (c : ascii) : bool := Ascii.eqb c "0"%char.
Definition isEndPunct (c : ascii) : bool :=
  Ascii.eqb c "."%char || Ascii.eqb c "!"%char || Ascii.eqb c "?"%char.

(** ** Story normaliser *)

(** [.replace(/\r\n/g, '\n')]. *)
Fixpoint replaceCRLF (s : string) : string :=
  match s with
  | String c1 ((String c2 r) as t) =>
      if (nat_of_ascii c1 =? 13)%nat && (nat_of_ascii c2 =? 10)%nat
      then String c2 (replaceCRLF r)
      else String c1 (replaceCRLF t)
  | _ => s
  end.

(** [.replace(/\s+/g, ' ')]: every maximal run of white space becomes
    one space.  [inRun] tells that the previous character was white. *)
Fixpoint collapse_go (s : string) (inRun : bool) : string :=
  match s with
  | EmptyString => EmptyString
  | String c r =>
      if isWhiteSpace c then
        if inRun then collapse_go r true else String " "%char (collapse_go r true)
      else String c (collapse_go r false)
  end.

Definition collapseWhiteSpace (s : string) : string := collapse_go s false.

(** [/^as a .+? i want .+? so that .+?$/i] without its leading anchor. *)
Definition storyShape : regex :=
  Seq (word "as a ") (Seq (Plus false anyChar)
  (Seq (word " i want ") (Seq (Plus false anyChar)
  (Seq (word " so that ") (Seq (Plus false anyChar) Eos))))).

(** [/(?:as (?:an?|the)|for(?: the)?|from(?: the)?) ([^,.]+)/i]. *)
Definition roleRegex : regex :=
  Seq (Alt (Seq (word "as ") (Alt (Seq (word "a") (Opt (Lit "n"%char))) (word "the")))
      (Alt (Seq (word "for") (Opt (word " the")))
           (Seq (word "from") (Opt (word " the")))))
      (Seq (Lit " "%char) (Group (Plus true notCommaDot))).

(** [/(?:want|need|would like|should be able) to ([^,.]+)/i]. *)
Definition actionRegex : regex :=
  Seq (Alt (word "want") (Alt (word "need") (Alt (word "would like") (word "should be able"))))
      (Seq (word " to ") (Group (Plus true notCommaDot))).

(** [/(?:so that|in order to|to be able to) ([^,.]+)/i]. *)
Definition valueRegex : regex :=
  Seq (Alt (word "so that") (Alt (word "in order to") (word "to be able to")))
      (Seq (Lit " "%char) (Group (Plus true notCommaDot))).

(** [/[.!?]$/]. *)
Definition endPunctRegex : regex := Seq (Cls isEndPunct) Eos.

(** [m ? m[1].trim() : dflt] for a regex with one capturing group. *)
Definition capture1 (m : option (list string)) (dflt : string) : string :=
  match m with
  | Some (c :: _) => trim c
  | _ => dflt
  end.

Definition storyTemplate (role action value : string) : string :=
  "As a " +:+ role +:+ ", I want to " +:+ action +:+ " so that " +:+ value.

Definition normalizeStory (story : string) : string :=
  let normalized := collapseWhiteSpace (replaceCRLF (trim story)) in
  let normalized :=
    if negb (match matchAtStart true storyShape normalized with Some _ => true | None => false end)
    then
      let roleMatch := exec true roleRegex normalized in
      let actionMatch := exec true actionRegex normalized in
      let valueMatch := exec true valueRegex normalized in
      let role := capture1 roleMatch "user" in
      let action := capture1 actionMatch normalized in
      let value := capture1 valueMatch "achieve the desired outcome" in
      storyTemplate role action value
    else normalized in
  let normalized := toUpperCase (charAt0 normalized) +:+ toLowerCase (slice1 normalized) in
  if negb (test false endPunctRegex normalized) then normalized +:+ "." else normalized.

(** ** Numbers, vectors and documents *)

Local Open Scope Q_scope.

(** [Math.min] and [Math.max] of two numbers. *)
Definition min2 (a b : Q) : Q := if Qle_bool a b then a else b.
Definition max2 (a b : Q) : Q := if Qle_bool a b then b else a.

(** [Math.min(...xs)] and [Math.max(...xs)].  [performHybridSearch]
    returns before it reaches them when there is no candidate, so they
    are only ever applied to a non-empty list; on the empty list, where
    JavaScript answers with an infinity, the model answers 0. *)
Definition Math_min (xs : list Q) : Q :=
  match xs with
  | [] => 0
  | x :: r => fold_left min2 r x
  end.

Definition Math_max (xs : list Q) : Q :=
  match xs with
  | [] => 0
  | x :: r => fold_left max2 r x
  end.

Definition normalizeScore (score min max : Q) : Q :=
  if Qeq_bool max min then 1 else (score - min) / (max - min).

(** A stored story.  [_id] is the string [doc._id.toString()] (a stored
    document always has an [_id], so the [JSON.stringify] fallback of
    [addToMap] is not taken); [content] is empty when the field is missing
    or empty (both are falsy); [embedding] is [None] unless the field
    holds an array; [metadata] stands for the fields the engine only
    copies. *)
Record Document : Type := {
  _id : string;
  content : string;
  embedding : option (list Q);
  metadata : string
}.

(** [RankedStory]: the working record of one candidate.  The fields
    copied from the document ([metadata], and [key] and [description] in
    the route handler) are one opaque field. *)
Record RankedStory : Type := {
  story_id : string;
  story_content : string;
  story_metadata : string;
  vector_score : Q;
  bm25_score : Q;
  vector_score_norm : Q;
  bm25_score_norm : Q;
  hybrid_score : Q
}.

(** The configuration as it arrives in the request body: any field may
    be missing. *)
Record RAGConfig : Type := {
  vectorWeight : option Q;
  bm25Weight : option Q;
  hybridWeight : option Q;
  topK : option Z
}.

(** The configuration after weight normalisation ([...config] keeps
    [topK] as it came). *)
Record NormalizedConfig : Type := {
  nVectorWeight : Q;
  nBm25Weight : Q;
  nHybridWeight : Q;
  nTopK : option Z
}.

(** [xs.slice(0, k)]: everything when [k] is undefined, the first [k]
    elements for [k >= 0], all but the last [-k] for a negative [k]. *)
Definition slice0 {A} (xs : list A) (k : option Z) : list A :=
  match k with
  | None => xs
  | Some k =>
      if (k <? 0)%Z then take (Z.to_nat (Z.of_nat (List.length xs) + k)) xs
      else take (Z.to_nat k) xs
  end.

(** [xs.sort(cmp)]: the sort is stable, so for a comparator that orders
    by a key it is insertion from the right, each element going in front
    of the first one it does not have to follow ([cmp x y <= 0]). *)
Fixpoint sort_insert {A} (cmp : A -> A -> Q) (x : A) (l : list A) : list A :=
  match l with
  | [] => [x]
  | y :: r => if Qle_bool (cmp x y) 0 then x :: y :: r else y :: sort_insert cmp x r
  end.

Definition Array_sort {A} (cmp : A -> A -> Q) (l : list A) : list A :=
  foldr (sort_insert cmp) [] l.

(** [xs.findIndex(p)], [None] for -1. *)
Fixpoint findIndex {A} (p : A -> bool) (l : list A) : option nat :=
  match l with
  | [] => None
  | x :: r => if p x then Some O else option_map S (findIndex p r)
  end.

(** [xs.filter((x, index, self) => p x index self)]. *)
Fixpoint filter_from {A} (p : A -> nat -> bool) (i : nat) (l : list A) : list A :=
  match l with
  | [] => []
  | x :: r => if p x i then x :: filter_from p (S i) r else filter_from p (S i) r
  end.

Definition Array_filteri {A} (p : A -> nat -> list A -> bool) (l : list A) : list A :=
  filter_from (fun x i => p x i l) O l.

(** ** Vector similarity scorer *)

Section Pipeline.

(** [Math.sqrt], an input of the model. *)
Variable Math_sqrt : Q -> Q.

(** The accumulation loop of [computeCosineSimilarity]: [(dot, na, nb)]. *)
Fixpoint cosineLoop (v1 v2 : list Q) (acc : Q * Q * Q) : Q * Q * Q :=
  match v1, v2 with
  | a :: r1, b :: r2 =>
      let '(dot, na, nb) := acc in
      cosineLoop r1 r2 (dot + a * b, na + a * a, nb + b * b)
  | _, _ => acc
  end.

Definition computeCosineSimilarity (vec1 vec2 : list Q) : Q :=
  if negb (List.length vec1 =? List.length vec2)%nat then 0
  else
    let '(dot, na, nb) := cosineLoop vec1 vec2 (0, 0, 0) in
    if Qeq_bool na 0 || Qeq_bool nb 0 then 0
    else dot / (Math_sqrt na * Math_sqrt nb).

(** ** Scan of the collection *)

(** One pass of the loop over [documents]: a document without content is
    skipped; one with an embedding is pushed on [knnResults] with its
    [vector_score]; every remaining one is pushed on [textResults] with
    its [bm25_score].  A scored document is the document and its score. *)
Definition scanDocument (queryEmbedding : list Q) (text : string) (doc : Document)
    (acc : list (Document * Q) * list (Document * Q))
    : list (Document * Q) * list (Document * Q) :=
  let '(knnResults, textResults) := acc in
  if String.eqb (content doc) "" then acc
  else
    let knnResults :=
      match embedding doc with
      | Some e => knnResults ++ [(doc, computeCosineSimilarity queryEmbedding e)]
      | None => knnResults
      end in
    (knnResults, textResults ++ [(doc, textScore text (content doc))]).

Definition scanDocuments (queryEmbedding : list Q) (text : string)
    (documents : list Document) : list (Document * Q) * list (Document * Q) :=
  fold_left (fun acc doc => scanDocument queryEmbedding text doc acc) documents ([], []).

(** ** Candidate merger *)

Inductive ScoreField : Type := vector_score_field | bm25_score_field.

Definition freshStory (doc : Document) : RankedStory :=
  {| story_id := _id doc; story_content := content doc; story_metadata := metadata doc;
     vector_score := 0; bm25_score := 0;
     vector_score_norm := 0; bm25_score_norm := 0; hybrid_score := 0 |}.

(** [existing[scoreField] = score]. *)
Definition setScore (f : ScoreField) (score : Q) (r : RankedStory) : RankedStory :=
  match f with
  | vector_score_field =>
      {| story_id := story_id r; story_content := story_content r;
         story_metadata := story_metadata r;
         vector_score := score; bm25_score := bm25_score r;
         vector_score_norm := vector_score_norm r;
         bm25_score_norm := bm25_score_norm r; hybrid_score := hybrid_score r |}
  | bm25_score_field =>
      {| story_id := story_id r; story_content := story_content r;
         story_metadata := story_metadata r;
         vector_score := vector_score r; bm25_score := score;
         vector_score_norm := vector_score_norm r;
         bm25_score_norm := bm25_score_norm r; hybrid_score := hybrid_score r |}
  end.

(** [Map<string, any>] in insertion order. *)
Definition StoryMap : Type := list (string * RankedStory).

Fixpoint Map_get (m : StoryMap) (id : string) : option RankedStory :=
  match m with
  | [] => None
  | (k, v) :: r => if String.eqb k id then Some v else Map_get r id
  end.

(** [m.set(id, v)]: an existing key keeps its place, a new one goes last. *)
Fixpoint Map_set (m : StoryMap) (id : string) (v : RankedStory) : StoryMap :=
  match m with
  | [] => [(id, v)]
  | (k, w) :: r => if String.eqb k id then (k, v) :: r else (k, w) :: Map_set r id v
  end.

Definition Map_values (m : StoryMap) : list RankedStory := map snd m.

Definition addToMap (f : ScoreField) (mergedMap : StoryMap) (d : Document * Q) : StoryMap :=
  let '(doc, score) := d in
  let id := _id doc in
  let existing :=
    match Map_get mergedMap id with
    | Some e => e
    | None => freshStory doc
    end in
  Map_set mergedMap id (setScore f score existing).

(** [knnResults.forEach(...)], [textResults.forEach(...)], then
    [Array.from(mergedMap.values())]. *)
Definition mergeResults (knnResults textResults : list (Document * Q)) : list RankedStory :=
  let mergedMap := fold_left (addToMap vector_score_field) knnResults [] in
  let mergedMap := fold_left (addToMap bm25_score_field) textResults mergedMap in
  Map_values mergedMap.

(** ** Score normaliser and weighted fusion ranker *)

Definition normalizeResult (config : NormalizedConfig)
    (minVectorScore maxVectorScore minBM25Score maxBM25Score : Q)
    (result : RankedStory) : RankedStory :=
  let vectorScore := vector_score result in
  let bm25Score := bm25_score result in
  let vectorScoreNorm := normalizeScore vectorScore minVectorScore maxVectorScore in
  let bm25ScoreNorm := normalizeScore bm25Score minBM25Score maxBM25Score in
  {| story_id := story_id result; story_content := story_content result;
     story_metadata := story_metadata result;
     vector_score := vector_score result; bm25_score := bm25_score result;
     vector_score_norm := vectorScoreNorm;
     bm25_score_norm := bm25ScoreNorm;
     hybrid_score := vectorScoreNorm * nVectorWeight config
                     + bm25ScoreNorm * nBm25Weight config |}.

Definition normalizeResults (config : NormalizedConfig) (merged : list RankedStory)
    : list RankedStory :=
  let vectorScores := map vector_score merged in
  let bm25Scores := map bm25_score merged in
  let minVectorScore := Math_min vectorScores in
  let maxVectorScore := Math_max vectorScores in
  let minBM25Score := Math_min bm25Scores in
  let maxBM25Score := Math_max bm25Scores in
  map (normalizeResult config minVectorScore maxVectorScore minBM25Score maxBM25Score) merged.

(** [(a, b) => b.hybrid_score - a.hybrid_score]. *)
Definition byHybridScoreDesc (a b : RankedStory) : Q := hybrid_score b - hybrid_score a.

(** The filter that keeps the first story of every id:
    [index === self.findIndex(s => s._id.toString() === story._id.toString())]. *)
Definition isFirstOfItsId (story : RankedStory) (index : nat) (self : list RankedStory) : bool :=
  bool_decide (Some index = findIndex (fun s => String.eqb (story_id s) (story_id story)) self).

Definition rankAndDeduplicate (normalizedResults : list RankedStory) : list RankedStory :=
  Array_filteri isFirstOfItsId (Array_sort byHybridScoreDesc normalizedResults).

(** The fusion stage: everything [performHybridSearch] does to the merged
    candidates. *)
Definition fuseAndRank (config : NormalizedConfig) (merged : list RankedStory)
    : list RankedStory :=
  match merged with
  | [] => []
  | _ => slice0 (rankAndDeduplicate (normalizeResults config merged)) (nTopK config)
  end.

(** The story returned for an empty collection. *)
Definition placeholderStory : RankedStory :=
  {| story_id := "1";
     story_content := "Example story - No actual stories in database";
     story_metadata := "This is a placeholder because no stories exist in the database.";
     vector_score := 0; vector_score_norm := 0;
     bm25_score := 0; bm25_score_norm := 0; hybrid_score := 0 |}.

(** [performHybridSearch] of the route handler.  [collection] is the list
    [collection.find({}).toArray()] returns, and [countDocuments] its
    length. *)
Definition performHybridSearch (collection : list Document) (queryEmbedding : list Q)
    (text : string) (config : NormalizedConfig) : list RankedStory :=
  if (List.length collection =? 0)%nat then [placeholderStory]
  else
    let '(knnResults, textResults) := scanDocuments queryEmbedding text collection in
    fuseAndRank config (mergeResults knnResults textResults).

End Pipeline.

(** ** Weight normalisation of the route handler *)

Definition DEFAULT_CONFIG : RAGConfig :=
  {| vectorWeight := Some (6 # 10); bm25Weight := Some (3 # 10);
     hybridWeight := Some (1 # 10); topK := Some 6%Z |}.

(** [x ?? d]. *)
Definition orDefault {A} (x : option A) (d : A) : A :=
  match x with Some a => a | None => d end.

(** [x || d] on numbers: [d] replaces 0. *)
Definition orIfZero (x d : Q) : Q := if Qeq_bool x 0 then d else x.

Definition normalizeWeights (config : RAGConfig) : NormalizedConfig :=
  let v := orDefault (vectorWeight config) (6 # 10) in      (* ?? DEFAULT_CONFIG.vectorWeight *)
  let b := orDefault (bm25Weight config) (3 # 10) in        (* ?? DEFAULT_CONFIG.bm25Weight *)
  let h := orDefault (hybridWeight config) (orDefault (hybridWeight DEFAULT_CONFIG) 0) in
  let totalWeight := orIfZero (v + b + h) 1 in
  {| nVectorWeight := v / totalWeight;
     nBm25Weight := b / totalWeight;
     nHybridWeight := h / totalWeight;
     nTopK := topK config |}.

(** ** Semantic re-ranker *)

(** What [await mistral.chat(...)] gives for one candidate: the call
    throws, or [resp.choices?.[0]?.message?.content || ''] is a string. *)
Inductive ChatOutcome : Type :=
| ChatThrows
| ChatContent (content : string).

(** The two fields read from the parsed judge response:
    [Number(parsed.llm_score)], [None] when it is not a number, and
    [parsed.reason || ''].  The score is a finite number here; the
    re-ranker on scores that need not be finite, as in the response
    [{"llm_score":1e999}], which [JSON.parse] reads as Infinity, is
    [Extended.enhanceWithLLM] below. *)
Record JudgeJson : Type := {
  json_llm_score : option Q;
  json_reason : string
}.

Record EnhancedStory : Type := {
  base : RankedStory;
  evidence : option string;
  llm_score : Q;
  llm_reason : string;
  hybrid_score_final : Q
}.

(** [/\{[\s\S]*\}/], the whole match as group 0. *)
Definition jsonRegex : regex :=
  Group (Seq (Lit "{"%char) (Seq (Star true everyChar) (Lit "}"%char))).

(** [/([0](?:\.[0-9]+)?|1(?:\.0+)?)/]. *)
Definition numberRegex : regex :=
  Group (Alt (Seq (Lit "0"%char) (Opt (Seq (Lit "."%char) (Plus true isDigit))))
             (Seq (Lit "1"%char) (Opt (Seq (Lit "."%char) (Plus true isZeroDigit))))).

Definition digitValue (c : ascii) : Z := (Z.of_nat (nat_of_ascii c) - 48)%Z.

Fixpoint parseDigits (s : string) (acc : Z) : Z * string :=
  match s with
  | String c r => if isDigit c then parseDigits r (10 * acc + digitValue c)%Z else (acc, s)
  | EmptyString => (acc, s)
  end.

Fixpoint parseFraction (s : string) (num : Z) (den : positive) : Q :=
  match s with
  | String c r =>
      if isDigit c then parseFraction r (10 * num + digitValue c)%Z (10 * den)%positive
      else num # den
  | EmptyString => num # den
  end.

(** [parseFloat] on an unsigned decimal numeral [digits] or
    [digits.digits], the only shapes [numberRegex] captures. *)
Definition parseFloat (s : string) : Q :=
  let '(whole, rest) := parseDigits s 0%Z in
  match rest with
  | String "."%char r => inject_Z whole + parseFraction r 0%Z 1%positive
  | _ => inject_Z whole
  end.

Definition failedReason : string := "LLM failed".

Section Judge.

(** The chat model, asked about the [i]-th candidate with the query and
    the excerpt, and [JSON.parse] followed by the two field reads
    ([None] when it throws). *)
Variable mistral_chat : nat -> string -> string -> ChatOutcome.
Variable JSON_parse : string -> option JudgeJson.

(** The inner [try] of [enhanceWithLLM]: [(llmScore, reason)]. *)
Definition parseJudgeContent (content : string) : Q * string :=
  match exec false jsonRegex content with
  | Some (jsonMatch :: _) =>
      match JSON_parse jsonMatch with
      | Some parsed => (orDefault (json_llm_score parsed) 0, json_reason parsed)
      | None => (0, sliceTo 300 content)
      end
  | _ =>
      let llmScore :=
        match exec false numberRegex content with
        | Some (numMatch :: _) => parseFloat numMatch
        | _ => 0
        end in
      (llmScore, sliceTo 300 content)
  end.

(** The body of the loop over [candidates]. *)
Definition enhanceCandidate (query : string) (config : NormalizedConfig)
    (i : nat) (c : RankedStory) : EnhancedStory :=
  let snippet := sliceTo 400 (story_content c) in
  match mistral_chat i query snippet with
  | ChatContent content =>
      let '(llmScore, reason) := parseJudgeContent content in
      let vectorNorm := vector_score_norm c in
      let bm25Norm := bm25_score_norm c in
      let finalHybrid :=
        vectorNorm * nVectorWeight config + bm25Norm * nBm25Weight config
        + nHybridWeight config * llmScore in
      {| base := c; evidence := Some snippet; llm_score := llmScore;
         llm_reason := reason; hybrid_score_final := finalHybrid |}
  | ChatThrows =>
      {| base := c; evidence := None; llm_score := 0;
         llm_reason := failedReason; hybrid_score_final := hybrid_score c |}
  end.

(** [(a, b) => (b.hybrid_score_final || 0) - (a.hybrid_score_final || 0)].
    On a finite number [x || 0] is [x] (it replaces 0 by 0); it makes a
    difference for NaN only, which no finite judge score produces
    ([Extended.byFinalScoreDesc] has it). *)
Definition byFinalScoreDesc (a b : EnhancedStory) : Q :=
  hybrid_score_final b - hybrid_score_final a.

Definition enhanceWithLLM (candidates : list RankedStory) (query : string)
    (config : NormalizedConfig) : list EnhancedStory :=
  Array_sort byFinalScoreDesc (imap (enhanceCandidate query config) candidates).

(** ** Pipeline orchestrator: the [POST] route *)

Record PipelineResponse : Type := {
  status : Z;
  normalized_new_story : string;
  ranked_related_stories : list EnhancedStory;
  errors : list string
}.

Definition errorResponse (code : Z) (err : string) : PipelineResponse :=
  {| status := code; normalized_new_story := ""; ranked_related_stories := [];
     errors := [err] |}.

(** [Math.sqrt], the embedding provider ([None] when it throws) and the
    collection ([None] when the database cannot be reached). *)
Variable Math_sqrt : Q -> Q.
Variable embedQuery : string -> option (list Q).
Variable stories : option (list Document).

(** [config.topK || DEFAULT_CONFIG.topK]. *)
Definition responseTopK (config : RAGConfig) : Z :=
  match topK config with
  | Some k => if (k =? 0)%Z then 6%Z else k
  | None => 6%Z
  end.

(** The route handler from the point where the body is read, for a
    [story] that is a text, empty when the body has none, and a [config]
    that is an object, [None] when the body has none.  The quality
    evaluation and the refinement catch their own failures and do not
    touch the ranking, so they are left out of the response. *)
Definition POST (story : string) (config : option RAGConfig) : PipelineResponse :=
  let config := orDefault config DEFAULT_CONFIG in
  if String.eqb story "" then errorResponse 400 "MISSING_STORY"
  else
    let normalizedConfig := normalizeWeights config in
    let normalizedStory := normalizeStory story in
    match embedQuery normalizedStory with
    | None => errorResponse 500 "INTERNAL_ERROR"
    | Some storyEmbedding =>
        match stories with
        | None => errorResponse 500 "INTERNAL_ERROR"
        | Some collection =>
            let relatedStories :=
              performHybridSearch Math_sqrt collection storyEmbedding
                normalizedStory normalizedConfig in
            let enhanced := enhanceWithLLM relatedStories normalizedStory normalizedConfig in
            {| status := 200; normalized_new_story := normalizedStory;
               ranked_related_stories := slice0 enhanced (Some (responseTopK config));
               errors := [] |}
        end
    end.





End Judge.

(** ** The re-ranker on scores that need not be finite

    [JSON.parse] reads a numeral beyond the range of doubles, as in
    [{"llm_score":1e999}], as Infinity, and [Number] of the string
    ["Infinity"] is infinite too: the judge's score is a number that need
    not be finite, and then neither is the final score.  This is the
    re-ranker on such numbers.  On judges whose scores are finite it is
    the one above. *)
Module Extended.

Inductive JsNumber : Type :=
| Finite (q : Q)
| PlusInfinity
| MinusInfinity
| NaN.

(** [w * x] for a finite [w]: 0 times an infinity is NaN. *)
Definition times (w : Q) (x : JsNumber) : JsNumber :=
  match x with
  | Finite q => Finite (w * q)
  | PlusInfinity =>
      if Qeq_bool w 0 then NaN else if Qle_bool 0 w then PlusInfinity else MinusInfinity
  | MinusInfinity =>
      if Qeq_bool w 0 then NaN else if Qle_bool 0 w then MinusInfinity else PlusInfinity
  | NaN => NaN
  end.

(** [a + x] for a finite [a]. *)
Definition plus (a : Q) (x : JsNumber) : JsNumber :=
  match x with
  | Finite q => Finite (a + q)
  | PlusInfinity => PlusInfinity
  | MinusInfinity => MinusInfinity
  | NaN => NaN
  end.

(** [y - x]: the difference of two equal infinities is NaN. *)
Definition minus (y x : JsNumber) : JsNumber :=
  match y, x with
  | NaN, _ => NaN
  | _, NaN => NaN
  | Finite a, Finite b => Finite (a - b)
  | Finite _, PlusInfinity => MinusInfinity
  | Finite _, MinusInfinity => PlusInfinity
  | PlusInfinity, PlusInfinity => NaN
  | PlusInfinity, _ => PlusInfinity
  | MinusInfinity, MinusInfinity => NaN
  | MinusInfinity, _ => MinusInfinity
  end.

(** [x || 0]: NaN and 0 are falsy. *)
Definition orZero (x : JsNumber) : JsNumber :=
  match x with
  | NaN => Finite 0
  | _ => x
  end.

(** What the sort makes of the value of its comparator: it looks at the
    sign, and takes NaN for 0. *)
Definition comparatorSign (v : JsNumber) : Q :=
  match v with
  | Finite q => q
  | PlusInfinity => 1
  | MinusInfinity => -1
  | NaN => 0
  end.

(** The two fields read from the parsed judge response:
    [Number(parsed.llm_score)], NaN when it is not a number, and
    [parsed.reason || '']. *)
Record JudgeJson : Type := {
  json_llm_score : JsNumber;
  json_reason : string
}.

Record EnhancedStory : Type := {
  base : RankedStory;
  evidence : option string;
  llm_score : JsNumber;
  llm_reason : string;
  hybrid_score_final : JsNumber
}.

Section Judge.

Variable mistral_chat : nat -> string -> string -> ChatOutcome.
Variable JSON_parse : string -> option JudgeJson.

(** The inner [try] of [enhanceWithLLM]: [(llmScore, reason)], with
    [llmScore = Number(parsed.llm_score) || 0] for a response with JSON
    in it. *)
Definition parseJudgeContent (content : string) : JsNumber * string :=
  match exec false jsonRegex content with
  | Some (jsonMatch :: _) =>
      match JSON_parse jsonMatch with
      | Some parsed => (orZero (json_llm_score parsed), json_reason parsed)
      | None => (Finite 0, sliceTo 300 content)
      end
  | _ =>
      let llmScore :=
        match exec false numberRegex content with
        | Some (numMatch :: _) => parseFloat numMatch
        | _ => 0
        end in
      (Finite llmScore, sliceTo 300 content)
  end.

(** The body of the loop over [candidates]. *)
Definition enhanceCandidate (query : string) (config : NormalizedConfig)
    (i : nat) (c : RankedStory) : EnhancedStory :=
  let snippet := sliceTo 400 (story_content c) in
  match mistral_chat i query snippet with
  | ChatContent content =>
      let '(llmScore, reason) := parseJudgeContent content in
      let vectorNorm := vector_score_norm c in
      let bm25Norm := bm25_score_norm c in
      let finalHybrid :=
        plus (vectorNorm * nVectorWeight config + bm25Norm * nBm25Weight config)
             (times (nHybridWeight config) llmScore) in
      {| base := c; evidence := Some snippet; llm_score := llmScore;
         llm_reason := reason; hybrid_score_final := finalHybrid |}
  | ChatThrows =>
      {| base := c; evidence := None; llm_score := Finite 0;
         llm_reason := failedReason; hybrid_score_final := Finite (hybrid_score c) |}
  end.

(** [(a, b) => (b.hybrid_score_final || 0) - (a.hybrid_score_final || 0)]. *)
Definition byFinalScoreDesc (a b : EnhancedStory) : JsNumber :=
  minus (orZero (hybrid_score_final b)) (orZero (hybrid_score_final a)).

Definition enhanceWithLLM (candidates : list RankedStory) (query : string)
    (config : NormalizedConfig) : list EnhancedStory :=
  Array_sort (fun a b => comparatorSign (byFinalScoreDesc a b))
             (imap (enhanceCandidate query config) candidates).

End Judge.

End Extended.

(** ** The Pages-API handler of [rag-pipeline.ts]

    It has two weights, no defaults for missing fields, no guard on the
    total, and no re-ranking stage; its [performHybridSearch] has one more
    block, which recomputes the vector scores when [knnResults] is empty. *)
Module Legacy.

Definition DEFAULT_CONFIG : RAGConfig :=
  {| vectorWeight := Some (7 # 10); bm25Weight := Some (3 # 10);
     hybridWeight := None; topK := Some 5%Z |}.

(** [None] where JavaScript computes NaN or an infinity: a weight is
    missing or the total is 0. *)
Definition normalizeWeights (config : RAGConfig) : option NormalizedConfig :=
  match vectorWeight config, bm25Weight config with
  | Some v, Some b =>
      let totalWeight := v + b in
      if Qeq_bool totalWeight 0 then None
      else Some {| nVectorWeight := v / totalWeight;
                   nBm25Weight := b / totalWeight;
                   nHybridWeight := 0;
                   nTopK := topK config |}
  | _, _ => None
  end.

Section Search.

Variable Math_sqrt : Q -> Q.

(** The block run when [knnResults] is empty: the documents of
    [textResults] with a non-empty embedding array, scored by the local
    [cosine], which is [computeCosineSimilarity] again. *)
Definition knnFallback (queryEmbedding : list Q) (textResults : list (Document * Q))
    : list (Document * Q) :=
  let candidatesWithEmbedding :=
    List.filter (fun d : Document * Q =>
                   match embedding (fst d) with
                   | Some e => negb (List.length e =? 0)%nat
                   | None => false
                   end) textResults in
  map (fun d : Document * Q =>
         (fst d, computeCosineSimilarity Math_sqrt queryEmbedding
                   (orDefault (embedding (fst d)) [])))
      candidatesWithEmbedding.

Definition performHybridSearch (collection : list Document) (queryEmbedding : list Q)
    (text : string) (config : NormalizedConfig) : list RankedStory :=
  if (List.length collection =? 0)%nat then [placeholderStory]
  else
    let '(knnResults, textResults) :=
      scanDocuments Math_sqrt queryEmbedding text collection in
    let knnResults :=
      if (List.length knnResults =? 0)%nat then knnFallback queryEmbedding textResults
      else knnResults in
    fuseAndRank config (mergeResults knnResults textResults).

End Search.

End Legacy.

(** ** The arithmetic of the source in binary64

    The same number-valued code on IEEE 754 doubles ([float]), with the
    decimal constants of the source read as JavaScript reads them, to the
    nearest double. *)

#[local] Set Warnings "-inexact-float".

Module Binary64.

(** [x || d] on numbers: [d] replaces 0, -0 and NaN. *)
Definition orIfZero (x d : float) : float :=
  if PrimFloat.eqb x 0 || PrimFloat.is_nan x then d else x.

(** [Math.min] and [Math.max] of two numbers: NaN if one of them is NaN,
    and -0 below +0. *)
Definition min2 (a b : float) : float :=
  if PrimFloat.is_nan a || PrimFloat.is_nan b then PrimFloat.nan
  else if PrimFloat.ltb a b then a
  else if PrimFloat.ltb b a then b
  else if PrimFloat.get_sign a then a else b.

Definition max2 (a b : float) : float :=
  if PrimFloat.is_nan a || PrimFloat.is_nan b then PrimFloat.nan
  else if PrimFloat.ltb a b then b
  else if PrimFloat.ltb b a then a
  else if PrimFloat.get_sign a then b else a.

(** [Math.min(...xs)] and [Math.max(...xs)]: the infinities without
    arguments. *)
Definition Math_min (xs : list float) : float := fold_left min2 xs PrimFloat.infinity.
Definition Math_max (xs : list float) : float := fold_left max2 xs PrimFloat.neg_infinity.

Definition normalizeScore (score min max : float) : float :=
  if PrimFloat.eqb max min then 1%float else ((score - min) / (max - min))%float.

(** The normaliser applied to one signal of a batch. *)
Definition normalizeBatch (scores : list float) : list float :=
  let min := Math_min scores in
  let max := Math_max scores in
  map (fun score => normalizeScore score min max) scores.

(** The weight normalisation of the route handler, on the three weights
    after the defaults are filled in:
    [(vectorWeight, bm25Weight, hybridWeight)]. *)
Definition normalizeWeights (v b h : float) : float * float * float :=
  let totalWeight := orIfZero (v + b + h)%float 1%float in
  ((v / totalWeight)%float, (b / totalWeight)%float, (h / totalWeight)%float).

(** [hybrid_score] of [performHybridSearch] and [finalHybrid] of
    [enhanceWithLLM]. *)
Definition hybrid_score (vectorScoreNorm bm25ScoreNorm : float)
    (weights : float * float * float) : float :=
  let '(vectorWeight, bm25Weight, _) := weights in
  (vectorScoreNorm * vectorWeight + bm25ScoreNorm * bm25Weight)%float.

Definition finalHybrid (vectorNorm bm25Norm llmScore : float)
    (weights : float * float * float) : float :=
  let '(vectorWeight, bm25Weight, hybridWeight) := weights in
  (vectorNorm * vectorWeight + bm25Norm * bm25Weight + hybridWeight * llmScore)%float.





End Binary64.

(** ** Story quality

    [calculateStoryQuality] is the same function in both files; the
    Pages-API handler reports its value for the normalised story. *)

(** [/As a .+ I want .+ so that .+/i]. *)
Definition formatRegex : regex :=
  Seq (word "As a ") (Seq (Plus true anyChar)
  (Seq (word " I want ") (Seq (Plus true anyChar)
  (Seq (word " so that ") (Plus true anyChar))))).

(** [/acceptance criteria:/i]. *)
Definition criteriaRegex : regex := word "acceptance criteria:".

(** [/(\d+\)|\*|\-)\s+.+/]. *)
Definition bulletRegex : regex :=
  Seq (Group (Alt (Seq (Plus true isDigit) (Lit ")"%char))
             (Alt (Lit "*"%char) (Lit "-"%char))))
      (Seq (Plus true isWhiteSpace) (Plus true anyChar)).

Definition calculateStoryQuality (story : string) : Z :=
  let score := 0%Z in
  let score := if test true formatRegex story then (score + 40)%Z else score in
  let score := if test true criteriaRegex story then (score + 30)%Z else score in
  let score := if test false bulletRegex story then (score + 20)%Z else score in
  let score := if (50 <? String.length story)%nat then (score + 10)%Z else score in
  Z.min 100 score.

(** ** Detailed quality evaluation of the route handler *)

(** The five rubric values, in the order the object lists them. *)
Record Breakdown : Type := {
  Completeness : Q;
  Clarity : Q;
  AcceptanceCriteria : Q;
  Specificity : Q;
  Structure : Q
}.

(** What is read from [parsed.scores]: each [Number(scores.X)], [None]
    when it is not a number. *)
Record RubricJson : Type := {
  json_Completeness : option Q;
  json_Clarity : option Q;
  json_AcceptanceCriteria : option Q;
  json_Specificity : option Q;
  json_Structure : option Q
}.

(** What is read from the parsed reply: [parsed.scores] ([None] when it
    is falsy), [parsed.recommendations] (empty when it is not an array)
    and [parsed.comment] (empty when it is not a string). *)
Record QualityJson : Type := {
  json_scores : option RubricJson;
  json_recommendations : list string;
  json_comment : string
}.

Record QualityReport : Type := {
  totalScore : Z;
  breakdown : Breakdown;
  recommendations : list string;
  comment : string
}.

(** [Math.round]: the nearest integer, a half going up. *)
Definition Math_round (q : Q) : Z := Qfloor (q + (1 # 2)).

(** [Object.values(breakdown)]. *)
Definition Object_values (b : Breakdown) : list Q :=
  [Completeness b; Clarity b; AcceptanceCriteria b; Specificity b; Structure b].

(** [Math.round((vals.reduce((a, b) => a + b, 0) / 50) * 100)].  In
    doubles the quotient and the product are rounded before
    [Math.round] is applied, so the total can be one off the rounded
    double of the sum: for the sum 7.25 the product is
    14.499999999999998 and the total 14. *)
Definition totalOf (b : Breakdown) : Z :=
  Math_round (fold_left Qplus (Object_values b) 0 / 50 * 100).

(** The range check on a rubric value: one below 0 or above 10 becomes
    the middle score 5. *)
Definition validateScore (value : Q) : Q :=
  if negb (Qle_bool 0 value) || negb (Qle_bool value 10) then 5 else value.

(** [/\{[\s\S]*?\}(?=\s*$)/]: the group is the match, and what the
    look-ahead inspects is matched behind it. *)
Definition jsonTailRegex : regex :=
  Seq (Group (Seq (Lit "{"%char) (Seq (Star false everyChar) (Lit "}"%char))))
      (Seq (Star true isWhiteSpace) Eos).

(** [\w]. *)
Definition isWordChar (c : ascii) : bool :=
  let n := nat_of_ascii c in
  ((48 <=? n)%nat && (n <=? 57)%nat) || ((65 <=? n)%nat && (n <=? 90)%nat)
  || ((97 <=? n)%nat && (n <=? 122)%nat) || (n =? 95)%nat.

(** [\b] behind a word character: the input ends or goes on with a
    character that is not a word character. *)
Definition atWordEnd (s : string) : bool :=
  match s with
  | EmptyString => true
  | String c _ => negb (isWordChar c)
  end.

(** [/\bw\b/i.test(s)] for a word [w] of word characters; [prevIsWord]
    tells that the character before [s] is a word character. *)
Fixpoint testWholeWord (w : string) (prevIsWord : bool) (s : string) : bool :=
  (negb prevIsWord
   && match rmatch true (word w) [] (fun _ s' => if atWordEnd s' then Some tt else None) s with
      | Some _ => true
      | None => false
      end)
  || match s with
     | EmptyString => false
     | String c r => testWholeWord w (isWordChar c) r
     end.

(** [/\d+|\buser\b|ui|click|select|enter/i.test(story)]: one of the
    alternatives occurs. *)
Definition specificityTest (story : string) : bool :=
  test true (Plus true isDigit) story
  || testWholeWord "user" false story
  || test true (Alt (word "ui") (Alt (word "click") (Alt (word "select") (word "enter")))) story.

(** [/As a|I want|so that/i]. *)
Definition structureRegex : regex :=
  Alt (word "As a") (Alt (word "I want") (word "so that")).

(** The heuristic breakdown of the [catch] block. *)
Definition fallbackBreakdown (story : string) : Breakdown :=
  {| Completeness := if test true formatRegex story then 8 else 5;
     Clarity := if (40 <? String.length story)%nat then 7 else 5;
     AcceptanceCriteria := if test true criteriaRegex story then 8 else 3;
     Specificity := if specificityTest story then 6 else 4;
     Structure := if test true structureRegex story then 8 else 5 |}.

Definition fallbackReport (story : string) : QualityReport :=
  let breakdown := fallbackBreakdown story in
  {| totalScore := totalOf breakdown;
     breakdown := breakdown;
     recommendations :=
       ["Add clear Given-When-Then acceptance criteria.";
        "Include specific measurable outcomes.";
        "Ensure all role/action/value segments are present."];
     comment := "Scored using fallback heuristics due to LLM error" |}.

(** The report built from a parsed reply that has scores. *)
Definition judgedReport (parsed : QualityJson) (scores : RubricJson) : QualityReport :=
  let breakdown :=
    {| Completeness := validateScore (orDefault (json_Completeness scores) 0);
       Clarity := validateScore (orDefault (json_Clarity scores) 0);
       AcceptanceCriteria := validateScore (orDefault (json_AcceptanceCriteria scores) 0);
       Specificity := validateScore (orDefault (json_Specificity scores) 0);
       Structure := validateScore (orDefault (json_Structure scores) 0) |} in
  {| totalScore := totalOf breakdown;
     breakdown := breakdown;
     recommendations := take 3 (json_recommendations parsed);
     comment := json_comment parsed |}.

Section Quality.

(** The chat model asked to evaluate a story, and [JSON.parse] followed
    by the field reads ([None] when it throws). *)
Variable quality_chat : string -> ChatOutcome.
Variable JSON_parse_quality : string -> option QualityJson.

(** [evaluateQualityDetailed]: every [throw] of the [try] block lands in
    the [catch], which scores by the heuristics; the statements behind
    the [try] are never reached. *)
Definition evaluateQualityDetailed (story : string) : QualityReport :=
  match quality_chat story with
  | ChatContent content =>
      match exec false jsonTailRegex content with
      | Some (jsonMatch :: _) =>
          match JSON_parse_quality jsonMatch with
          | Some parsed =>
              match json_scores parsed with
              | Some scores => judgedReport parsed scores
              | None => fallbackReport story
              end
          | None => fallbackReport story
          end
      | _ => fallbackReport story
      end
  | ChatThrows => fallbackReport story
  end.

End Quality.

(** ** Notions used in the statements *)

(** The normaliser applied to one signal of a batch, as
    [performHybridSearch] applies it to [vectorScores] and [bm25Scores]. *)
Definition normalizeBatch (scores : list Q) : list Q :=
  let min := Math_min scores in
  let max := Math_max scores in
  map (fun score => normalizeScore score min max) scores.

(** The pieces of a text as a finite set. *)
Definition pieceSet (s : string) : gset string := list_to_set (split_ws s).

(** The tokens of a text in the usual sense: its maximal runs of
    characters that are not white space. *)
Fixpoint tokens_go (s cur : string) : list string :=
  match s with
  | EmptyString => if String.eqb cur "" then [] else [cur]
  | String c r =>
      if isWhiteSpace c then
        if String.eqb cur "" then tokens_go r "" else cur :: tokens_go r ""
      else tokens_go r (cur +:+ String c EmptyString)
  end.

Definition tokens (s : string) : list string := tokens_go s "".

Definition tokenSet (s : string) : gset string := list_to_set (tokens s).

(** The lexical score in the words of the specification: lower-case both
    texts, split on white space into token sets, return
    |intersection| / |union|, and 0 if either token set is empty. *)
Definition jaccardOfTokens (text1 text2 : string) : Q :=
  let A := tokenSet (toLowerCase text1) in
  let B := tokenSet (toLowerCase text2) in
  if bool_decide (A = ∅) || bool_decide (B = ∅) then 0
  else ratio (size (A ∩ B)) (size (A ∪ B)).

(** The document identities of a score stream. *)
Definition streamIds (stream : list (Document * Q)) : list string :=
  map (fun d => _id (fst d)) stream.

(** [x] stands before [y] in [l]. *)
Definition precedes {A} (x y : A) (l : list A) : Prop := [x; y] `sublist_of` l.

Definition inUnitInterval (q : Q) : Prop := 0 <= q /\ q <= 1.

(** Sorted from the highest key to the lowest. *)
Definition descendingBy {A} (key : A -> Q) (l : list A) : Prop :=
  forall i j x y, (i < j)%nat -> l !! i = Some x -> l !! j = Some y -> key y <= key x.

(** The failure mark the re-ranker leaves on a candidate. *)
Definition markedFailed (e : EnhancedStory) : Prop := llm_reason e = failedReason.

Definition getScore (f : ScoreField) (r : RankedStory) : Q :=
  match f with
  | vector_score_field => vector_score r
  | bm25_score_field => bm25_score r
  end.

Definition otherField (f : ScoreField) : ScoreField :=
  match f with
  | vector_score_field => bm25_score_field
  | bm25_score_field => vector_score_field
  end.

(** Every key of the map is the id of the story stored under it. *)
Definition keyed (m : StoryMap) : Prop :=
  Forall (fun kv => story_id (snd kv) = fst kv) m.

(** A comparator that orders by a key, highest first. *)
Definition byKeyDesc {A} (key : A -> Q) (a b : A) : Q := key b - key a.

(** The order a descending sort establishes. *)
Definition notBelow {A} (key : A -> Q) (x y : A) : Prop := key y <= key x.

(** Keep the first story of every id; [seen] holds the ids of the
    stories already passed. *)
Fixpoint keepFirstById (seen : list string) (l : list RankedStory) : list RankedStory :=
  match l with
  | [] => []
  | x :: r =>
      if bool_decide (story_id x ∈ seen) then keepFirstById (seen ++ [story_id x]) r
      else x :: keepFirstById (seen ++ [story_id x]) r
  end.

(** [s] has the id of [story]: the test of the [findIndex] call. *)
Definition sameId (story s : RankedStory) : bool := String.eqb (story_id s) (story_id story).

(** Every character of [w] is in the class [p]. *)
Fixpoint allChars (p : ascii -> bool) (w : string) : Prop :=
  match w with
  | EmptyString => True
  | String c r => p c = true /\ allChars p r
  end.

(** The words a regular expression can consume, without regard to what
    follows them. *)
Fixpoint Lang (icase : bool) (r : regex) (w : string) : Prop :=
  match r with
  | Eps => w = ""
  | Lit p => exists c, w = String c "" /\ litMatches icase p c = true
  | Cls p => exists c, w = String c "" /\ p c = true
  | Seq r1 r2 => exists w1 w2, w = w1 +:+ w2 /\ Lang icase r1 w1 /\ Lang icase r2 w2
  | Alt r1 r2 => Lang icase r1 w \/ Lang icase r2 w
  | Opt r1 => w = "" \/ Lang icase r1 w
  | Plus _ p => w <> "" /\ allChars p w
  | Star _ p => allChars p w
  | Group r1 => Lang icase r1 w
  | Eos => w = ""
  end.

Fixpoint noGroup (r : regex) : bool :=
  match r with
  | Seq r1 r2 | Alt r1 r2 => noGroup r1 && noGroup r2
  | Opt r1 => noGroup r1
  | Group _ => false
  | _ => true
  end.

(** What the [catch] of the loop pushes for a candidate. *)
Definition failedStory (c : RankedStory) : EnhancedStory :=
  {| base := c; evidence := None; llm_score := 0; llm_reason := failedReason;
     hybrid_score_final := hybrid_score c |}.

(** The last two steps of [normalizeStory]. *)
Definition capitalize (s : string) : string :=
  toUpperCase (charAt0 s) +:+ toLowerCase (slice1 s).

Definition punctuate (s : string) : string :=
  if negb (test false endPunctRegex s) then s +:+ "." else s.

(** [s] ends in one of [.], [!] and [?]. *)
Definition endsInPunctuation (s : string) : Prop :=
  exists front c, s = front +:+ String c "" /\ isEndPunct c = true.

(** ** Running the model

    A square root that is exact on squares of rationals, for evaluating
    the model on inputs whose norms are such squares. *)
Definition sqrtOnSquares (q : Q) : Q :=
  let r := Qred q in Z.sqrt (Qnum r) # Pos.sqrt (Qden r).

Definition mkDoc (id text : string) (e : option (list Q)) : Document :=
  {| _id := id; content := text; embedding := e; metadata := "" |}.

Definition mkConfig (v b h : Q) (k : Z) : RAGConfig :=
  {| vectorWeight := Some v; bm25Weight := Some b; hybridWeight := Some h; topK := Some k |}.

(** Two small score streams: "a" is in both, "b" only in the vector
    stream, "c" only in the lexical one. *)
Definition exampleKnn : list (Document * Q) :=
  [(mkDoc "a" "x" None, 1); (mkDoc "b" "y" None, 1 # 2)].

Definition exampleText : list (Document * Q) :=
  [(mkDoc "a" "x" None, 0); (mkDoc "c" "z" None, 1)].

(** Two stories with the same text; only the second has an embedding,
    and it is orthogonal to the query embedding [1; 0]. *)
Definition tieCollection : list Document :=
  [mkDoc "a" "x" None; mkDoc "b" "x" (Some [0; 1])].

(** Two stories of which the second has the text and the direction of
    the query [[1; 0]], ["x"], and the first has neither. *)
Definition dominanceCollection : list Document :=
  [mkDoc "a" "y" (Some [0; 1]); mkDoc "b" "x" (Some [1; 0])].

(** One story, and a judge that answers every question with the JSON
    text [{"llm_score":5}], which [JSON.parse] reads as the score 5. *)
Definition oneStory : list Document := [mkDoc "a" "reset my password" (Some [1; 0])].

Definition doubleQuote : string := String "034"%char "".

Definition scoreFiveJson : string :=
  "{" +:+ doubleQuote +:+ "llm_score" +:+ doubleQuote +:+ ":5}".

Definition chatAnswers (content : string) : nat -> string -> string -> ChatOutcome :=
  fun _ _ _ => ChatContent content.

Definition chatFails : nat -> string -> string -> ChatOutcome :=
  fun _ _ _ => ChatThrows.

Definition parseScoreFive (s : string) : option JudgeJson :=
  if String.eqb s scoreFiveJson
  then Some {| json_llm_score := Some 5; json_reason := "" |}
  else None.

(** A judge that answers every question with [{"llm_score":0.5}]. *)
Definition scoreHalfJson : string :=
  "{" +:+ doubleQuote +:+ "llm_score" +:+ doubleQuote +:+ ":0.5}".

Definition parseScoreHalf (s : string) : option JudgeJson :=
  if String.eqb s scoreHalfJson
  then Some {| json_llm_score := Some (1 # 2); json_reason := "" |}
  else None.

(** A judge whose answer is not JSON although it has the braces. *)
Definition malformedAnswer : string := "{oops}".

Definition parseFails (s : string) : option JudgeJson := None.

(** ** Further notions *)

(** The sum of the squares of a vector, and the dot product of two
    vectors: what [na], [nb] and [dot] hold after the loop of
    [computeCosineSimilarity] on vectors of equal length. *)
Definition normSq (v : list Q) : Q := fold_left (fun acc a => acc + a * a) v 0.

Fixpoint dotProduct (v1 v2 : list Q) : Q :=
  match v1, v2 with
  | a :: r1, b :: r2 => a * b + dotProduct r1 r2
  | _, _ => 0
  end.

(** A document the scan uses: one with content. *)
Definition usable (d : Document) : Prop := content d <> "".

(** The raw vector score the scan gives a document: the cosine of its
    embedding with the query's, 0 for a document without embedding, which
    is not pushed on [knnResults]. *)
Definition rawVectorScore (Math_sqrt : Q -> Q) (queryEmbedding : list Q) (d : Document) : Q :=
  match embedding d with
  | Some e => computeCosineSimilarity Math_sqrt queryEmbedding e
  | None => 0
  end.

(** The candidate [c] carries the document [d]: its id, its content, its
    copied fields and its two raw scores. *)
Definition describes (Math_sqrt : Q -> Q) (queryEmbedding : list Q) (text : string)
    (d : Document) (c : RankedStory) : Prop :=
  story_id c = _id d /\ story_content c = content d /\ story_metadata c = metadata d
  /\ vector_score c = rawVectorScore Math_sqrt queryEmbedding d
  /\ bm25_score c = textScore text (content d).

(** An embedding provider that answers every text with [[1; 0]]. *)
Definition embedsUnit : string -> option (list Q) := fun _ => Some [1; 0].

(** An expression without [$]: what it matches does not depend on what
    follows. *)
Fixpoint noEos (r : regex) : bool :=
  match r with
  | Seq r1 r2 | Alt r1 r2 => noEos r1 && noEos r2
  | Opt r1 | Group r1 => noEos r1
  | Eos => false
  | _ => true
  end.

(** An expression whose classes do not tell a letter from its other
    case. *)
Fixpoint caseBlind (r : regex) : Prop :=
  match r with
  | Seq r1 r2 | Alt r1 r2 => caseBlind r1 /\ caseBlind r2
  | Opt r1 | Group r1 => caseBlind r1
  | Cls p | Plus _ p | Star _ p => forall c, p (lowerChar c) = p c
  | _ => True
  end.

(** [t] starts with a text of the story format. *)
Definition storyFormat (t : string) : Prop :=
  exists w rest, t = w +:+ rest /\ Lang true formatRegex w.


(** The white space of [s] is single spaces: every white-space character
    is a space and no two stand side by side; [afterSpace] tells that the
    character before [s] is a space. *)
Fixpoint spacedGo (afterSpace : bool) (s : string) : Prop :=
  match s with
  | EmptyString => True
  | String c r =>
      if isWhiteSpace c then afterSpace = false /\ c = " "%char /\ spacedGo true r
      else spacedGo false r
  end.

Definition spaced (s : string) : Prop := spacedGo false s.

(** Whether the last character read is a space, after [x]. *)
Fixpoint stateAfter (afterSpace : bool) (x : string) : bool :=
  match x with
  | EmptyString => afterSpace
  | String c r => stateAfter (isWhiteSpace c) r
  end.

(** [s] does not start, or does not end, with white space. *)
Definition startsClean (s : string) : Prop :=
  match s with
  | EmptyString => True
  | String c _ => isWhiteSpace c = false
  end.

Fixpoint endsClean (s : string) : Prop :=
  match s with
  | EmptyString => True
  | String c EmptyString => isWhiteSpace c = false
  | String _ r => endsClean r
  end.

(** The first steps of [normalizeStory]. *)
Definition tidyText (story : string) : string :=
  collapseWhiteSpace (replaceCRLF (trim story)).

(** The words an expression consumes together with the captures it
    adds. *)
Fixpoint LangC (icase : bool) (r : regex) (w : string) (cs : list string) : Prop :=
  match r with
  | Eps => w = "" /\ cs = []
  | Lit p => (exists c, w = String c "" /\ litMatches icase p c = true) /\ cs = []
  | Cls p => (exists c, w = String c "" /\ p c = true) /\ cs = []
  | Seq r1 r2 =>
      exists w1 w2 cs1 cs2,
        w = w1 +:+ w2 /\ cs = cs1 ++ cs2 /\ LangC icase r1 w1 cs1 /\ LangC icase r2 w2 cs2
  | Alt r1 r2 => LangC icase r1 w cs \/ LangC icase r2 w cs
  | Opt r1 => (w = "" /\ cs = []) \/ LangC icase r1 w cs
  | Plus _ p => (w <> "" /\ allChars p w) /\ cs = []
  | Star _ p => allChars p w /\ cs = []
  | Group r1 => exists cs1, LangC icase r1 w cs1 /\ cs = cs1 ++ [w]
  | Eos => w = "" /\ cs = []
  end.

(** An expression with [$] in tail position only. *)
Fixpoint tailEos (r : regex) : bool :=
  match r with
  | Seq r1 r2 => noEos r1 && tailEos r2
  | Alt r1 r2 => tailEos r1 && tailEos r2
  | Opt r1 | Group r1 => tailEos r1
  | _ => true
  end.



(** The order of the numbers other than NaN. *)
Definition jsLe (x y : Extended.JsNumber) : Prop :=
  match x, y with
  | Extended.NaN, _ => False
  | _, Extended.NaN => False
  | Extended.MinusInfinity, _ => True
  | _, Extended.PlusInfinity => True
  | Extended.Finite a, Extended.Finite b => a <= b
  | _, _ => False
  end.

(** The key the comparator of the re-ranker sorts by,
    [hybrid_score_final || 0], and the order it establishes: [x] may
    stand before [y]. *)
Definition sortKey (e : Extended.EnhancedStory) : Extended.JsNumber :=
  Extended.orZero (Extended.hybrid_score_final e).

Definition rankedBefore (x y : Extended.EnhancedStory) : Prop :=
  jsLe (sortKey y) (sortKey x).

Definition isInfinite (x : Extended.JsNumber) : Prop :=
  x = Extended.PlusInfinity \/ x = Extended.MinusInfinity.

(** A judge all of whose structured scores are finite numbers, or no
    numbers at all. *)
Definition finiteJudge (JSON_parse : string -> option Extended.JudgeJson) : Prop :=
  forall s parsed, JSON_parse s = Some parsed ->
    ~ isInfinite (Extended.json_llm_score parsed).

(** A response and a re-ranked story with finite scores, among those
    with any scores. *)
Definition ofFiniteJson (parsed : JudgeJson) : Extended.JudgeJson :=
  {| Extended.json_llm_score :=
       match json_llm_score parsed with
       | Some q => Extended.Finite q
       | None => Extended.NaN
       end;
     Extended.json_reason := json_reason parsed |}.

Definition ofFiniteStory (e : EnhancedStory) : Extended.EnhancedStory :=
  {| Extended.base := base e; Extended.evidence := evidence e;
     Extended.llm_score := Extended.Finite (llm_score e);
     Extended.llm_reason := llm_reason e;
     Extended.hybrid_score_final := Extended.Finite (hybrid_score_final e) |}.

(** A judge that answers every question with [{"llm_score":1e999}],
    which [JSON.parse] reads as the score Infinity. *)
Definition scoreHugeJson : string :=
  "{" +:+ doubleQuote +:+ "llm_score" +:+ doubleQuote +:+ ":1e999}".

Definition parseScoreHuge (s : string) : option Extended.JudgeJson :=
  if String.eqb s scoreHugeJson
  then Some {| Extended.json_llm_score := Extended.PlusInfinity;
               Extended.json_reason := "" |}
  else None.

(** * Properties *)

(** ** Score normaliser *)

Lemma min2_proper a a' b b' : a == a' -> b == b' -> min2 a b == min2 a' b'.
Proof.
  intros Ha Hb. unfold min2. rewrite (Qleb_comp _ _ Ha _ _ Hb).
  destruct (Qle_bool a' b'); assumption.
Qed.

Lemma max2_proper a a' b b' : a == a' -> b == b' -> max2 a b == max2 a' b'.
Proof.
  intros Ha Hb. unfold max2. rewrite (Qleb_comp _ _ Ha _ _ Hb).
  destruct (Qle_bool a' b'); assumption.
Qed.

Lemma Qle_bool_scale c a b : 0 < c -> Qle_bool (c * a) (c * b) = Qle_bool a b.
Proof.
  intros Hc. destruct (Qle_bool a b) eqn:E.
  - apply Qle_bool_iff. apply Qle_bool_iff in E. apply Qmult_le_l; assumption.
  - destruct (Qle_bool (c * a) (c * b)) eqn:E'; [|reflexivity].
    apply Qle_bool_iff in E'. apply Qmult_le_l in E'; [|assumption].
    apply Qle_bool_iff in E'. congruence.
Qed.

Lemma min2_scale c a b : 0 < c -> min2 (c * a) (c * b) == c * min2 a b.
Proof.
  intros Hc. unfold min2. rewrite Qle_bool_scale by assumption.
  destruct (Qle_bool a b); reflexivity.
Qed.

Lemma max2_scale c a b : 0 < c -> max2 (c * a) (c * b) == c * max2 a b.
Proof.
  intros Hc. unfold max2. rewrite Qle_bool_scale by assumption.
  destruct (Qle_bool a b); reflexivity.
Qed.

Lemma fold_min2_scale c l : 0 < c -> forall x x',
  x' == c * x -> fold_left min2 (map (Qmult c) l) x' == c * fold_left min2 l x.
Proof.
  intros Hc. induction l as [|y l IH]; intros x x' Hx; simpl; [assumption|].
  apply IH. rewrite <- (min2_scale c x y Hc). apply min2_proper; [assumption|reflexivity].
Qed.

Lemma fold_max2_scale c l : 0 < c -> forall x x',
  x' == c * x -> fold_left max2 (map (Qmult c) l) x' == c * fold_left max2 l x.
Proof.
  intros Hc. induction l as [|y l IH]; intros x x' Hx; simpl; [assumption|].
  apply IH. rewrite <- (max2_scale c x y Hc). apply max2_proper; [assumption|reflexivity].
Qed.

Lemma Math_min_scale c l : 0 < c -> Math_min (map (Qmult c) l) == c * Math_min l.
Proof.
  intros Hc. destruct l as [|x l]; simpl; [ring|].
  apply fold_min2_scale; [assumption|reflexivity].
Qed.

Lemma Math_max_scale c l : 0 < c -> Math_max (map (Qmult c) l) == c * Math_max l.
Proof.
  intros Hc. destruct l as [|x l]; simpl; [ring|].
  apply fold_max2_scale; [assumption|reflexivity].
Qed.

Lemma normalizeScore_scale c s mn mx mn' mx' :
  0 < c -> mn' == c * mn -> mx' == c * mx ->
  normalizeScore (c * s) mn' mx' == normalizeScore s mn mx.
Proof.
  intros Hc Hmn Hmx. unfold normalizeScore.
  assert (Hb : Qeq_bool mx' mn' = Qeq_bool mx mn).
  { destruct (Qeq_bool mx mn) eqn:E.
    - apply Qeq_bool_iff. apply Qeq_bool_iff in E. rewrite Hmn, Hmx, E. reflexivity.
    - destruct (Qeq_bool mx' mn') eqn:E'; [|reflexivity].
      apply Qeq_bool_iff in E'. apply Qeq_bool_neq in E. exfalso. apply E.
      rewrite Hmn, Hmx in E'. apply (Qmult_inj_l _ _ c); [lra|assumption]. }
  rewrite Hb. destruct (Qeq_bool mx mn) eqn:E; [reflexivity|].
  apply Qeq_bool_neq in E. rewrite Hmn, Hmx. field. split.
  - intros H. apply E. lra.
  - intros H. apply E. apply (Qmult_inj_l _ _ c); lra.
Qed.

(** The normalised vector and lexical scores of the candidates are the
    normalised batches of their raw scores. *)
Lemma normalizeResults_batches config merged :
  map vector_score_norm (normalizeResults config merged)
    = normalizeBatch (map vector_score merged)
  /\ map bm25_score_norm (normalizeResults config merged)
    = normalizeBatch (map bm25_score merged).
Proof.
  unfold normalizeResults, normalizeBatch. rewrite !map_map. split; reflexivity.
Qed.

(** Over exact values, multiplying every raw score of a batch by a
    positive constant leaves the normalised batch unchanged, position by
    position; a batch whose scores are all equal is mapped to ones before
    and after the scaling.  The first part does not survive the rounding
    of doubles, the second does. *)
Lemma normalizeBatch_scale_exact (scores : list Q) (c : Q) :
  0 < c ->
  Forall2 Qeq (normalizeBatch (map (Qmult c) scores)) (normalizeBatch scores)
  /\ (Math_max scores == Math_min scores ->
      Forall (Qeq 1) (normalizeBatch scores)
      /\ Forall (Qeq 1) (normalizeBatch (map (Qmult c) scores))).
Proof.
  intros Hc.
  assert (Hmn := Math_min_scale c scores Hc).
  assert (Hmx := Math_max_scale c scores Hc).
  split.
  - unfold normalizeBatch. rewrite map_map.
    apply Forall2_fmap, Forall_Forall2_diag, Forall_forall. intros s _.
    apply normalizeScore_scale; assumption.
  - intros Heq. unfold normalizeBatch. split.
    + apply Forall_fmap, Forall_forall. intros s _. simpl.
      unfold normalizeScore. rewrite (Qeq_eq_bool _ _ Heq). reflexivity.
    + apply Forall_fmap, Forall_forall. intros s _. simpl.
      unfold normalizeScore. rewrite Qeq_eq_bool; [reflexivity|].
      rewrite Hmn, Hmx, Heq. reflexivity.
Qed.

(** ** Weight normalisation *)

Lemma orIfZero_nonzero x d : ~ x == 0 -> orIfZero x d = x.
Proof.
  intros H. unfold orIfZero. destruct (Qeq_bool x 0) eqn:E; [|reflexivity].
  apply Qeq_bool_iff in E. contradiction.
Qed.

Lemma orIfZero_zero x d : x == 0 -> orIfZero x d = d.
Proof. intros H. unfold orIfZero. rewrite (Qeq_eq_bool _ _ H). reflexivity. Qed.

(** The two cases of the route handler's normalisation.  Over exact
    values the quotients by a non-zero sum add up to 1. *)
Lemma normalizeWeights_cases (config : RAGConfig) :
  let v := orDefault (vectorWeight config) (6 # 10) in
  let b := orDefault (bm25Weight config) (3 # 10) in
  let h := orDefault (hybridWeight config) (1 # 10) in
  let n := normalizeWeights config in
  (~ v + b + h == 0 -> nVectorWeight n + nBm25Weight n + nHybridWeight n == 1)
  /\ (v + b + h == 0 ->
      nVectorWeight n == v /\ nBm25Weight n == b /\ nHybridWeight n == h)
  /\ (0 <= v -> 0 <= b -> 0 <= h -> v + b + h == 0 ->
      nVectorWeight n == 0 /\ nBm25Weight n == 0 /\ nHybridWeight n == 0).
Proof.
  intros v b h n.
  assert (Hz : v + b + h == 0 ->
               nVectorWeight n == v /\ nBm25Weight n == b /\ nHybridWeight n == h).
  { intros H0. subst n. unfold normalizeWeights. cbn [nVectorWeight nBm25Weight nHybridWeight].
    fold v b. change (orDefault (hybridWeight config) (orDefault (hybridWeight DEFAULT_CONFIG) 0))
      with h.
    rewrite (orIfZero_zero _ 1 H0). repeat split; field. }
  split; [|split; [exact Hz|]].
  - intros Hne. subst n. unfold normalizeWeights.
    cbn [nVectorWeight nBm25Weight nHybridWeight]. fold v b.
    change (orDefault (hybridWeight config) (orDefault (hybridWeight DEFAULT_CONFIG) 0))
      with h.
    rewrite (orIfZero_nonzero _ 1 Hne). field. exact Hne.
  - intros Hv Hb Hh H0. destruct (Hz H0) as (Ev & Eb & Eh).
    rewrite Ev, Eb, Eh. repeat split; lra.
Qed.





(** ** Empty collection *)

Lemma scanDocuments_no_content Math_sqrt emb text docs acc :
  Forall (fun d => content d = "") docs ->
  fold_left (fun acc doc => scanDocument Math_sqrt emb text doc acc) docs acc = acc.
Proof.
  intros H. revert acc. induction H as [|d docs Hd _ IH]; intros acc; simpl; [reflexivity|].
  rewrite IH. unfold scanDocument. destruct acc as [knn txt]. rewrite Hd. reflexivity.
Qed.

Lemma slice0_singleton {A} (x : A) k : (0 < k)%Z -> slice0 [x] (Some k) = [x].
Proof.
  intros Hk. unfold slice0. destruct (k <? 0)%Z eqn:E; [lia|].
  apply take_ge. simpl. lia.
Qed.

(** C1, as the code has it.  On an empty collection both versions of
    [performHybridSearch] return one placeholder story, with every score
    0, whatever the query and the configuration.  The route then answers
    200 with no error, for every story, configuration and judge; its
    ranking is that one story, except for a negative [topK], where
    [enhanced.slice(0, topK)] drops it and the ranking is empty.  The
    empty list is also what a collection without any usable document
    gives. *)
Theorem performHybridSearch_empty_collection
    (Math_sqrt : Q -> Q) (queryEmbedding : list Q) (text : string)
    (config : NormalizedConfig) :
  performHybridSearch Math_sqrt [] queryEmbedding text config = [placeholderStory]
  /\ Legacy.performHybridSearch Math_sqrt [] queryEmbedding text config = [placeholderStory]
  /\ (forall docs, docs <> [] -> Forall (fun d => content d = "") docs ->
      performHybridSearch Math_sqrt docs queryEmbedding text config = [])
  /\ (forall chat parse embedQuery story rawConfig e,
      story <> "" -> embedQuery (normalizeStory story) = Some e ->
      let requested := topK (orDefault rawConfig DEFAULT_CONFIG) in
      let r := POST chat parse Math_sqrt embedQuery (Some []) story rawConfig in
      status r = 200%Z /\ errors r = []
      /\ ((forall k, requested = Some k -> (0 <= k)%Z) ->
          map base (ranked_related_stories r) = [placeholderStory])
      /\ (forall k, requested = Some k -> (k < 0)%Z -> ranked_related_stories r = [])).
Proof.
  split; [reflexivity|split; [reflexivity|split]].
  - intros docs Hne Hall. unfold performHybridSearch.
    destruct docs as [|d docs]; [contradiction|]. cbn [List.length Nat.eqb].
    unfold scanDocuments. rewrite scanDocuments_no_content by assumption. reflexivity.
  - intros chat parse embedQuery story rawConfig e Hs He requested r. subst r. unfold POST.
    destruct (String.eqb story "") eqn:E; [apply String.eqb_eq in E; contradiction|].
    rewrite He. cbn [status errors ranked_related_stories]. split; [reflexivity|].
    split; [reflexivity|].
    unfold performHybridSearch. cbn [List.length Nat.eqb]. unfold enhanceWithLLM.
    cbn [imap Array_sort foldr sort_insert]. unfold responseTopK. fold requested. split.
    + intros Hk. rewrite slice0_singleton.
      * unfold enhanceCandidate. cbn [map].
        destruct (chat _ _ _); [reflexivity|]. destruct (parseJudgeContent _ _). reflexivity.
      * destruct requested as [k|]; [|reflexivity]. specialize (Hk k eq_refl).
        destruct (k =? 0)%Z eqn:Ek; [reflexivity|]. apply Z.eqb_neq in Ek. lia.
    + intros k Hk Hneg. rewrite Hk. destruct (k =? 0)%Z eqn:Ek; [apply Z.eqb_eq in Ek; lia|].
      unfold slice0. destruct (k <? 0)%Z eqn:Ek'; [|lia].
      cbn [List.length]. replace (Z.to_nat (Z.of_nat 1 + k)) with 0%nat by lia. reflexivity.
Qed.

Lemma performHybridSearch_empty_collection_witness :
  (status (POST (fun _ _ _ => ChatThrows) (fun _ => None) sqrtOnSquares
                (fun _ => Some [1; 0]) (Some []) "log in" None) = 200%Z
   /\ errors (POST (fun _ _ _ => ChatThrows) (fun _ => None) sqrtOnSquares
                   (fun _ => Some [1; 0]) (Some []) "log in" None) = []
   /\ map base (ranked_related_stories
                  (POST (fun _ _ _ => ChatThrows) (fun _ => None) sqrtOnSquares
                        (fun _ => Some [1; 0]) (Some []) "log in" None))
      = [placeholderStory])
  /\ (status (POST (fun _ _ _ => ChatThrows) (fun _ => None) sqrtOnSquares
                   (fun _ => Some [1; 0]) (Some []) "log in"
                   (Some (mkConfig 1 1 1 (-1)))) = 200%Z
      /\ ranked_related_stories
           (POST (fun _ _ _ => ChatThrows) (fun _ => None) sqrtOnSquares
                 (fun _ => Some [1; 0]) (Some []) "log in"
                 (Some (mkConfig 1 1 1 (-1)))) = []).
Proof.
  split.
  - destruct (proj2 (proj2 (proj2
      (performHybridSearch_empty_collection sqrtOnSquares [] ""
         (normalizeWeights DEFAULT_CONFIG))))
      (fun _ _ _ => ChatThrows) (fun _ => None) (fun _ => Some [1; 0]) "log in" None [1; 0])
      as (Hs & He & Hpos & _); [discriminate|reflexivity|].
    split; [exact Hs|split; [exact He|apply Hpos]].
    intros k Hk. injection Hk as <-. discriminate.
  - destruct (proj2 (proj2 (proj2
      (performHybridSearch_empty_collection sqrtOnSquares [] ""
         (normalizeWeights DEFAULT_CONFIG))))
      (fun _ _ _ => ChatThrows) (fun _ => None) (fun _ => Some [1; 0]) "log in"
      (Some (mkConfig 1 1 1 (-1))) [1; 0])
      as (Hs & _ & _ & Hneg); [discriminate|reflexivity|].
    split; [exact Hs|apply (Hneg (-1)%Z); reflexivity].
Defined.

(** C1 fails as stated: the result for an empty collection has one
    element. *)
Lemma performHybridSearch_empty_collection_counterexample :
  performHybridSearch sqrtOnSquares [] [1; 0] "as a user i want to log in."
    (normalizeWeights DEFAULT_CONFIG) = [placeholderStory]
  /\ List.length (ranked_related_stories
        (POST (fun _ _ _ => ChatThrows) (fun _ => None) sqrtOnSquares
              (fun _ => Some [1; 0]) (Some []) "log in" None)) = 1%nat.
Proof. split; reflexivity. Qed.

(** ** Lexical similarity scorer *)

Lemma Set_has_true s x : Set_has s x = true <-> x ∈ s.
Proof. unfold Set_has. apply bool_decide_eq_true. Qed.

Lemma fold_Set_add_spec l : forall acc,
  NoDup acc ->
  NoDup (fold_left Set_add l acc)
  /\ (forall x, x ∈ fold_left Set_add l acc <-> x ∈ acc \/ x ∈ l).
Proof.
  induction l as [|y l IH]; intros acc Hnd; simpl.
  - split; [assumption|]. intros x. rewrite elem_of_nil. tauto.
  - assert (Hnd' : NoDup (Set_add acc y)).
    { unfold Set_add. destruct (Set_has acc y) eqn:E; [assumption|].
      apply NoDup_app. split; [assumption|]. split; [|apply NoDup_singleton].
      intros x Hx Hx'. apply list_elem_of_singleton in Hx'. subst x.
      apply Set_has_true in Hx. congruence. }
    destruct (IH _ Hnd') as [H1 H2]. split; [assumption|].
    intros x. rewrite H2, elem_of_cons. unfold Set_add.
    destruct (Set_has acc y) eqn:E.
    + apply Set_has_true in E. split; [tauto|].
      intros [H|[->|H]]; tauto.
    + rewrite elem_of_app, list_elem_of_singleton. tauto.
Qed.

Lemma NoDup_new_Set l : NoDup (new_Set l).
Proof. apply (fold_Set_add_spec l []). constructor. Qed.

Lemma elem_of_new_Set l x : x ∈ new_Set l <-> x ∈ l.
Proof.
  unfold new_Set. destruct (fold_Set_add_spec l [] (NoDup_nil_2)) as [_ H].
  rewrite H, elem_of_nil. tauto.
Qed.

Lemma Set_size_new_Set l : Set_size (new_Set l) = size (list_to_set l : gset string).
Proof.
  unfold Set_size. rewrite <- (size_list_to_set (C := gset string)) by apply NoDup_new_Set.
  f_equal. apply set_eq. intros x. rewrite !elem_of_list_to_set. apply elem_of_new_Set.
Qed.

(** The score computed with insertion-ordered sets is the Jaccard index
    of the two piece sets. *)
Lemma computeTextSimilarity_jaccard text1 text2 :
  computeTextSimilarity text1 text2
  = ratio (size (pieceSet text1 ∩ pieceSet text2)) (size (pieceSet text1 ∪ pieceSet text2)).
Proof.
  unfold computeTextSimilarity, pieceSet. cbv zeta. rewrite !Set_size_new_Set. f_equal.
  - f_equal. apply set_eq. intros x.
    rewrite elem_of_intersection, !elem_of_list_to_set, list_elem_of_In, filter_In.
    rewrite <- list_elem_of_In, Set_has_true, !elem_of_new_Set. reflexivity.
  - f_equal. apply set_eq. intros x.
    rewrite elem_of_union, !elem_of_list_to_set, elem_of_app, !elem_of_new_Set. reflexivity.
Qed.

Lemma split_go_nonempty s : forall cur inSep, exists p ps, split_go s cur inSep = p :: ps.
Proof.
  induction s as [|c r IH]; intros cur inSep; simpl; [eauto|].
  destruct (isWhiteSpace c); [destruct inSep|]; eauto.
Qed.

Lemma pieceSet_nonempty s : pieceSet s <> ∅.
Proof.
  unfold pieceSet, split_ws. destruct (split_go_nonempty s "" false) as (p & ps & ->).
  simpl. set_solver.
Qed.

Lemma filter_split_go s : forall cur inSep,
  (inSep = true -> cur = "") ->
  List.filter (fun p => negb (String.eqb p "")) (split_go s cur inSep) = tokens_go s cur.
Proof.
  induction s as [|c r IH]; intros cur inSep Hinv; simpl.
  - destruct (String.eqb cur ""); reflexivity.
  - destruct (isWhiteSpace c).
    + destruct inSep.
      * rewrite (Hinv eq_refl). simpl. apply IH. reflexivity.
      * simpl. rewrite (IH "" true) by reflexivity. destruct (String.eqb cur ""); reflexivity.
    + apply IH. discriminate.
Qed.

(** The tokens of a text are its pieces without the empty piece. *)
Lemma tokenSet_pieceSet s : tokenSet s = pieceSet s ∖ {[""]}.
Proof.
  unfold tokenSet, tokens, pieceSet, split_ws.
  rewrite <- (filter_split_go s "" false) by discriminate.
  apply set_eq. intros x.
  rewrite elem_of_difference, !elem_of_list_to_set, list_elem_of_In, filter_In.
  rewrite <- list_elem_of_In, elem_of_singleton, negb_true_iff, String.eqb_neq. reflexivity.
Qed.

Lemma ratio_bounds n m : (n <= m)%nat -> (0 < m)%nat -> 0 <= ratio n m /\ ratio n m <= 1.
Proof.
  intros Hnm Hm. unfold ratio.
  assert (H0 : 0 < inject_Z (Z.of_nat m)).
  { change 0 with (inject_Z 0). rewrite <- Zlt_Qlt. lia. }
  assert (H1 : 0 <= inject_Z (Z.of_nat n)).
  { change 0 with (inject_Z 0). rewrite <- Zle_Qle. lia. }
  assert (H2 : inject_Z (Z.of_nat n) <= inject_Z (Z.of_nat m)).
  { rewrite <- Zle_Qle. lia. }
  split.
  - apply Qle_shift_div_l; [assumption|]. lra.
  - apply Qle_shift_div_r; [assumption|]. lra.
Qed.

(** C7, as the code has it.  The lexical score is the Jaccard index of
    the two sets of pieces [split(/\s+/)] gives for the lower-cased texts.
    A piece set is never empty: it is the token set plus, for an empty
    text or one with white space at either end, the empty string.  So the
    score lies in [[0,1]], it is 0 when the piece sets are disjoint, and
    it is the Jaccard index of the token sets when neither text yields an
    empty piece. *)
Theorem textScore_jaccard (text content : string) :
  let A := pieceSet (toLowerCase text) in
  let B := pieceSet (toLowerCase content) in
  textScore text content = ratio (size (A ∩ B)) (size (A ∪ B))
  /\ A <> ∅ /\ B <> ∅ /\ (0 < size (A ∪ B))%nat
  /\ tokenSet (toLowerCase text) = A ∖ {[""]}
  /\ tokenSet (toLowerCase content) = B ∖ {[""]}
  /\ (0 <= textScore text content /\ textScore text content <= 1)
  /\ (A ∩ B = ∅ -> textScore text content == 0)
  /\ ("" ∉ A -> "" ∉ B -> textScore text content = jaccardOfTokens text content).
Proof.
  intros A B.
  assert (HA : A <> ∅) by apply pieceSet_nonempty.
  assert (HB : B <> ∅) by apply pieceSet_nonempty.
  assert (Hpos : (0 < size (A ∪ B))%nat).
  { destruct (size (A ∪ B)) eqn:E; [|lia]. apply size_empty_iff in E. set_solver. }
  assert (Hscore : textScore text content = ratio (size (A ∩ B)) (size (A ∪ B))).
  { unfold textScore. apply computeTextSimilarity_jaccard. }
  repeat split; try assumption; try apply tokenSet_pieceSet.
  - rewrite Hscore. apply ratio_bounds; [|assumption].
    apply subseteq_size. intros x. rewrite elem_of_intersection, elem_of_union. tauto.
  - rewrite Hscore. apply ratio_bounds; [|assumption].
    apply subseteq_size. intros x. rewrite elem_of_intersection, elem_of_union. tauto.
  - intros Hdisj. rewrite Hscore, Hdisj, size_empty. unfold ratio. simpl. reflexivity.
  - intros HeA HeB. rewrite Hscore. unfold jaccardOfTokens.
    rewrite !tokenSet_pieceSet. fold A B.
    assert (Hdiff : forall X : gset string, "" ∉ X -> X ∖ {[""]} = X).
    { intros X HX. apply set_eq. intros x. rewrite elem_of_difference, elem_of_singleton.
      split; [tauto|]. intros Hx. split; [assumption|]. intros ->. contradiction. }
    rewrite !Hdiff by assumption.
    rewrite !bool_decide_eq_false_2 by assumption. reflexivity.
Qed.

Lemma textScore_jaccard_witness :
  textScore "Reset my password" "reset the Password" == 2 # 4.
Proof.
  destruct (textScore_jaccard "Reset my password" "reset the Password")
    as (_ & _ & _ & _ & _ & _ & _ & _ & H).
  rewrite H; [vm_compute; reflexivity| |]; vm_compute; intros C; discriminate C.
Defined.

(** C7 fails as stated: two empty texts have empty token sets, and their
    score is 1, not 0. *)
Lemma textScore_empty_texts_counterexample :
  tokenSet (toLowerCase "") = ∅
  /\ textScore "" "" == 1
  /\ jaccardOfTokens "" "" == 0
  /\ textScore " " "  " == 1.
Proof.
  split; [reflexivity|]. split; [vm_compute; reflexivity|].
  split; [|vm_compute; reflexivity].
  unfold jaccardOfTokens. rewrite bool_decide_eq_true_2 by reflexivity. reflexivity.
Qed.

(** ** Candidate merger *)

Lemma Map_set_keys m id v : map fst (Map_set m id v) = Set_add (map fst m) id.
Proof.
  induction m as [|[k w] r IH]; simpl; [reflexivity|].
  unfold Set_add, Set_has in *. destruct (String.eqb k id) eqn:E.
  - apply String.eqb_eq in E. subst k. simpl.
    rewrite bool_decide_eq_true_2 by apply list_elem_of_here. reflexivity.
  - apply String.eqb_neq in E. simpl. rewrite IH.
    destruct (bool_decide (id ∈ map fst r)) eqn:B.
    + apply bool_decide_eq_true in B.
      rewrite bool_decide_eq_true_2 by (apply list_elem_of_further; assumption). reflexivity.
    + apply bool_decide_eq_false in B.
      rewrite bool_decide_eq_false_2; [reflexivity|].
      rewrite elem_of_cons. intros [->|H]; [congruence|contradiction].
Qed.

Lemma Map_get_set m id v id' :
  Map_get (Map_set m id v) id' = if String.eqb id id' then Some v else Map_get m id'.
Proof.
  induction m as [|[k w] r IH]; simpl.
  - destruct (String.eqb id id'); reflexivity.
  - destruct (String.eqb k id) eqn:E; simpl.
    + apply String.eqb_eq in E. subst k. destruct (String.eqb id id'); reflexivity.
    + rewrite IH. destruct (String.eqb k id') eqn:E'; [|reflexivity].
      apply String.eqb_eq in E'. subst k. rewrite String.eqb_sym, E. reflexivity.
Qed.

Lemma Map_get_keyed m id v : keyed m -> Map_get m id = Some v -> story_id v = id.
Proof.
  intros Hk. induction Hk as [|[k w] r Hkw _ IH]; simpl; [discriminate|].
  destruct (String.eqb k id) eqn:E; [|exact IH].
  apply String.eqb_eq in E. intros [= <-]. simpl in Hkw. congruence.
Qed.

Lemma Map_set_keyed m id v : keyed m -> story_id v = id -> keyed (Map_set m id v).
Proof.
  intros Hk Hv. induction Hk as [|[k w] r Hkw Hr IH]; simpl.
  - constructor; [assumption|constructor].
  - destruct (String.eqb k id) eqn:E.
    + apply String.eqb_eq in E. subst k. constructor; [assumption|assumption].
    + constructor; assumption.
Qed.

Lemma story_id_setScore f q r : story_id (setScore f q r) = story_id r.
Proof. destruct f; reflexivity. Qed.

Lemma getScore_setScore f q r : getScore f (setScore f q r) = q.
Proof. destruct f; reflexivity. Qed.

Lemma getScore_setScore_other f q r :
  getScore (otherField f) (setScore f q r) = getScore (otherField f) r.
Proof. destruct f; reflexivity. Qed.

Lemma addToMap_keys f m d : map fst (addToMap f m d) = Set_add (map fst m) (_id (fst d)).
Proof. destruct d as [doc q]. unfold addToMap. apply Map_set_keys. Qed.

Lemma addToMap_keyed f m d : keyed m -> keyed (addToMap f m d).
Proof.
  intros Hk. destruct d as [doc q]. unfold addToMap. apply Map_set_keyed; [assumption|].
  rewrite story_id_setScore. destruct (Map_get m (_id doc)) eqn:E; [|reflexivity].
  apply (Map_get_keyed m); assumption.
Qed.

Lemma fold_addToMap_keys f stream : forall m,
  map fst (fold_left (addToMap f) stream m) = fold_left Set_add (streamIds stream) (map fst m).
Proof.
  induction stream as [|d stream IH]; intros m; simpl; [reflexivity|].
  rewrite IH, addToMap_keys. reflexivity.
Qed.

Lemma fold_addToMap_keyed f stream : forall m,
  keyed m -> keyed (fold_left (addToMap f) stream m).
Proof.
  induction stream as [|d stream IH]; intros m Hk; simpl; [assumption|].
  apply IH, addToMap_keyed, Hk.
Qed.

(** An identity absent from the stream keeps its entry. *)
Lemma fold_addToMap_absent f stream id : forall m,
  id ∉ streamIds stream ->
  Map_get (fold_left (addToMap f) stream m) id = Map_get m id.
Proof.
  induction stream as [|[doc q] stream IH]; intros m Hid; simpl; [reflexivity|].
  simpl in Hid. rewrite not_elem_of_cons in Hid. destruct Hid as [Hne Hid].
  rewrite IH by assumption. unfold addToMap. rewrite Map_get_set.
  destruct (String.eqb (_id doc) id) eqn:E; [|reflexivity].
  apply String.eqb_eq in E. congruence.
Qed.

(** A pass over one stream leaves the other signal as it was, and 0 on
    the entries it creates. *)
Lemma fold_addToMap_other f stream id : forall m v,
  Map_get (fold_left (addToMap f) stream m) id = Some v ->
  getScore (otherField f) v
  = match Map_get m id with Some v0 => getScore (otherField f) v0 | None => 0 end.
Proof.
  induction stream as [|[doc q] stream IH]; intros m v Hv; simpl in Hv.
  - rewrite Hv. reflexivity.
  - rewrite (IH _ _ Hv). unfold addToMap. rewrite Map_get_set.
    destruct (String.eqb (_id doc) id) eqn:E; [|reflexivity].
    apply String.eqb_eq in E. subst id. rewrite getScore_setScore_other.
    destruct (Map_get m (_id doc)); [reflexivity|]. destruct f; reflexivity.
Qed.

(** An identity of the stream carries a score of the stream. *)
Lemma fold_addToMap_present f stream id : forall m v,
  id ∈ streamIds stream ->
  Map_get (fold_left (addToMap f) stream m) id = Some v ->
  exists doc q, (doc, q) ∈ stream /\ _id doc = id /\ getScore f v = q.
Proof.
  induction stream as [|[doc q] stream IH]; intros m v Hid Hv; simpl in *.
  - apply elem_of_nil in Hid. contradiction.
  - destruct (decide (id ∈ streamIds stream)) as [Hin|Hout].
    + destruct (IH _ _ Hin Hv) as (doc' & q' & H1 & H2 & H3).
      exists doc', q'. split; [apply list_elem_of_further; assumption|]. split; assumption.
    + apply elem_of_cons in Hid. destruct Hid as [->|Hin]; [|contradiction].
      rewrite fold_addToMap_absent in Hv by assumption.
      unfold addToMap in Hv. rewrite Map_get_set, String.eqb_refl in Hv.
      injection Hv as <-. exists doc, q.
      split; [apply list_elem_of_here|]. split; [reflexivity|]. apply getScore_setScore.
Qed.

Lemma elem_of_Map_values m v :
  v ∈ Map_values m -> keyed m -> NoDup (map fst m) -> Map_get m (story_id v) = Some v.
Proof.
  unfold Map_values. intros Hv Hk Hnd.
  induction m as [|[k w] r IH]; simpl in *; [apply elem_of_nil in Hv; contradiction|].
  apply NoDup_cons in Hnd. destruct Hnd as [Hk' Hnd].
  apply Forall_cons in Hk. destruct Hk as [Hkw Hk]. simpl in Hkw.
  apply elem_of_cons in Hv. destruct Hv as [->|Hv].
  - rewrite Hkw, String.eqb_refl. reflexivity.
  - destruct (String.eqb k (story_id v)) eqn:E; [|apply IH; assumption].
    apply String.eqb_eq in E. exfalso. apply Hk'. rewrite E.
    apply list_elem_of_fmap. apply list_elem_of_fmap in Hv. destruct Hv as ([k' w'] & Hw & Hin).
    simpl in Hw. subst w'. exists (k', v). split; [|assumption]. simpl.
    rewrite Forall_forall in Hk. apply (Hk (k', v) Hin).
Qed.

Lemma keyed_values m : keyed m -> map story_id (Map_values m) = map fst m.
Proof.
  intros Hk. unfold Map_values. induction Hk as [|kv r H _ IH]; simpl; [reflexivity|].
  rewrite H, IH. reflexivity.
Qed.

(** The identities of the merged candidates, in order: those of the
    vector stream, then those of the lexical stream, each once. *)
Lemma mergeResults_ids knn txt :
  map story_id (mergeResults knn txt) = new_Set (streamIds knn ++ streamIds txt).
Proof.
  unfold mergeResults. rewrite keyed_values.
  - rewrite !fold_addToMap_keys. unfold new_Set. rewrite fold_left_app. reflexivity.
  - apply fold_addToMap_keyed, fold_addToMap_keyed. constructor.
Qed.

(** C8. The merge yields one candidate for every identity that occurs in
    either score stream and no other: the identities of the candidates are
    pairwise distinct, they are those of the two streams, and their number
    is the number of distinct identities.  A candidate absent from a
    stream has raw score 0 for that signal; one present in a stream has a
    score of that stream. *)
Theorem mergeResults_lossless (knnResults textResults : list (Document * Q)) :
  let merged := mergeResults knnResults textResults in
  NoDup (map story_id merged)
  /\ (forall id, id ∈ map story_id merged
                 <-> id ∈ streamIds knnResults \/ id ∈ streamIds textResults)
  /\ List.length merged
     = size (list_to_set (streamIds knnResults ++ streamIds textResults) : gset string)
  /\ (forall c, c ∈ merged -> story_id c ∉ streamIds knnResults -> vector_score c = 0)
  /\ (forall c, c ∈ merged -> story_id c ∉ streamIds textResults -> bm25_score c = 0)
  /\ (forall c, c ∈ merged -> story_id c ∈ streamIds knnResults ->
      exists doc q, (doc, q) ∈ knnResults /\ _id doc = story_id c /\ vector_score c = q)
  /\ (forall c, c ∈ merged -> story_id c ∈ streamIds textResults ->
      exists doc q, (doc, q) ∈ textResults /\ _id doc = story_id c /\ bm25_score c = q).
Proof.
  intros merged.
  assert (Hids := mergeResults_ids knnResults textResults). fold merged in Hids.
  set (m1 := fold_left (addToMap vector_score_field) knnResults []).
  set (m2 := fold_left (addToMap bm25_score_field) textResults m1).
  assert (Hk1 : keyed m1) by (apply fold_addToMap_keyed; constructor).
  assert (Hk2 : keyed m2) by (apply fold_addToMap_keyed; exact Hk1).
  assert (Hnd2 : NoDup (map fst m2)).
  { rewrite <- keyed_values by assumption. change (Map_values m2) with merged.
    rewrite Hids. apply NoDup_new_Set. }
  assert (Hget : forall c, c ∈ merged -> Map_get m2 (story_id c) = Some c).
  { intros c Hc. apply elem_of_Map_values; assumption. }
  split; [rewrite Hids; apply NoDup_new_Set|].
  split; [intros id; rewrite Hids, elem_of_new_Set, elem_of_app; reflexivity|].
  split.
  { rewrite <- (length_map story_id), Hids. apply Set_size_new_Set. }
  split.
  { intros c Hc Hout. specialize (Hget c Hc).
    rewrite (fold_addToMap_other bm25_score_field _ _ _ _ Hget
             : vector_score c = _).
    fold m1. unfold m1. rewrite fold_addToMap_absent by assumption. reflexivity. }
  split.
  { intros c Hc Hout. specialize (Hget c Hc). unfold m2 in Hget.
    rewrite fold_addToMap_absent in Hget by assumption.
    rewrite (fold_addToMap_other vector_score_field _ _ _ _ Hget
             : bm25_score c = _). reflexivity. }
  split.
  { intros c Hc Hin. specialize (Hget c Hc).
    assert (Hv := fold_addToMap_other bm25_score_field _ _ _ _ Hget).
    fold m1 in Hv. destruct (Map_get m1 (story_id c)) as [v0|] eqn:E.
    - destruct (fold_addToMap_present vector_score_field _ _ _ _ Hin E)
        as (doc & q & H1 & H2 & H3).
      exists doc, q. split; [assumption|]. split; [assumption|].
      simpl in Hv, H3. congruence.
    - exfalso. assert (Hkey : story_id c ∈ map fst m1).
      { unfold m1. rewrite fold_addToMap_keys. simpl. apply elem_of_new_Set. exact Hin. }
      clear -E Hkey. induction m1 as [|[k w] r IH]; simpl in *.
      + apply elem_of_nil in Hkey. contradiction.
      + destruct (String.eqb k (story_id c)) eqn:E'; [discriminate|].
        apply String.eqb_neq in E'. apply elem_of_cons in Hkey.
        destruct Hkey as [Hkey|Hkey]; [congruence|]. apply IH; assumption. }
  { intros c Hc Hin. specialize (Hget c Hc).
    apply (fold_addToMap_present bm25_score_field _ _ _ _ Hin Hget). }
Qed.

(** ** Sorting, first occurrences and truncation *)

Section Sorting.

Context {A : Type} (key : A -> Q).

Lemma sort_insert_perm (cmp : A -> A -> Q) x l : sort_insert cmp x l ≡ₚ x :: l.
Proof.
  induction l as [|y r IH]; simpl; [reflexivity|].
  destruct (Qle_bool (cmp x y) 0); [reflexivity|].
  rewrite IH. apply Permutation_swap.
Qed.

Lemma Array_sort_perm (cmp : A -> A -> Q) l : Array_sort cmp l ≡ₚ l.
Proof.
  induction l as [|x r IH]; simpl; [reflexivity|].
  rewrite sort_insert_perm, IH. reflexivity.
Qed.

Lemma sort_insert_sorted x l :
  StronglySorted (notBelow key) l ->
  StronglySorted (notBelow key) (sort_insert (byKeyDesc key) x l).
Proof.
  induction 1 as [|y r Hr IH Hy]; simpl.
  - constructor; constructor.
  - unfold byKeyDesc at 1. destruct (Qle_bool (key y - key x) 0) eqn:E.
    + apply Qle_bool_iff in E. constructor; [constructor; assumption|].
      constructor; [unfold notBelow; lra|].
      eapply Forall_impl; [exact Hy|]. unfold notBelow. intros z Hz. simpl in Hz. lra.
    + assert (Hlt : key x < key y).
      { destruct (Qlt_le_dec (key x) (key y)) as [H|H]; [assumption|].
        assert (Qle_bool (key y - key x) 0 = true) by (apply Qle_bool_iff; lra).
        congruence. }
      constructor; [assumption|].
      rewrite sort_insert_perm. constructor; [unfold notBelow; lra|assumption].
Qed.

Lemma Array_sort_sorted l : StronglySorted (notBelow key) (Array_sort (byKeyDesc key) l).
Proof.
  induction l as [|x r IH]; simpl; [constructor|]. apply sort_insert_sorted, IH.
Qed.

(** Sorting a list that is already in order changes nothing. *)
Lemma Array_sort_of_sorted l :
  StronglySorted (notBelow key) l -> Array_sort (byKeyDesc key) l = l.
Proof.
  induction 1 as [|x r Hr IH Hx]; simpl; [reflexivity|].
  rewrite IH. destruct r as [|y r']; simpl; [reflexivity|].
  apply Forall_cons in Hx. destruct Hx as [Hxy _]. unfold notBelow in Hxy.
  unfold byKeyDesc. assert (Qle_bool (key y - key x) 0 = true) as ->; [|reflexivity].
  apply Qle_bool_iff. lra.
Qed.

Lemma precedes_cons (x y a : A) l :
  precedes x y (a :: l) <-> (x = a /\ y ∈ l) \/ precedes x y l.
Proof.
  unfold precedes. rewrite sublist_cons_r. split.
  - intros [H|(l' & Heq & H)]; [right; assumption|].
    injection Heq as -> <-. left. split; [reflexivity|]. apply singleton_sublist_l, H.
  - intros [[-> H]|H]; [|left; assumption].
    right. exists [y]. split; [reflexivity|]. apply singleton_sublist_l, H.
Qed.

Lemma precedes_elem_of (x y : A) l : precedes x y l -> x ∈ l /\ y ∈ l.
Proof.
  intros H. split; apply (elem_of_sublist [x; y]); try assumption.
  - apply list_elem_of_here.
  - apply list_elem_of_further, list_elem_of_here.
Qed.

Lemma sort_insert_precedes x y a l :
  precedes x y (sort_insert (byKeyDesc key) a l) ->
  precedes x y (a :: l) \/ (y = a /\ x ∈ l /\ key a < key x).
Proof.
  induction l as [|b r IH]; simpl; [left; assumption|].
  unfold byKeyDesc at 1. destruct (Qle_bool (key b - key a) 0) eqn:E; [left; assumption|].
  assert (Hlt : key a < key b).
  { destruct (Qlt_le_dec (key a) (key b)) as [H|H]; [assumption|].
    assert (Qle_bool (key b - key a) 0 = true) by (apply Qle_bool_iff; lra). congruence. }
  rewrite precedes_cons. intros [[-> Hy]|H].
  - rewrite sort_insert_perm in Hy. apply elem_of_cons in Hy. destruct Hy as [->|Hy].
    + right. split; [reflexivity|]. split; [apply list_elem_of_here|assumption].
    + left. apply precedes_cons. right. apply precedes_cons. left. split; [reflexivity|assumption].
  - destruct (IH H) as [H'|(-> & Hx & Hk)].
    + left. apply precedes_cons in H'. apply precedes_cons.
      destruct H' as [[-> Hy]|H'].
      * left. split; [reflexivity|]. apply list_elem_of_further, Hy.
      * right. apply precedes_cons. right. assumption.
    + right. split; [reflexivity|]. split; [apply list_elem_of_further, Hx|assumption].
Qed.

(** The sort is stable: two elements with equal keys that stand in some
    order in the output stood in that order in the input. *)
Lemma Array_sort_stable x y l :
  precedes x y (Array_sort (byKeyDesc key) l) -> key x == key y -> precedes x y l.
Proof.
  intros H Heq. induction l as [|a r IH]; simpl in H; [assumption|].
  apply sort_insert_precedes in H. destruct H as [H|(-> & _ & Hlt)]; [|lra].
  apply precedes_cons in H. apply precedes_cons. destruct H as [[-> Hy]|H].
  - left. split; [reflexivity|]. rewrite Array_sort_perm in Hy. assumption.
  - right. apply IH, H.
Qed.

Lemma precedes_total (x y : A) l : x ∈ l -> y ∈ l -> x <> y -> precedes x y l \/ precedes y x l.
Proof.
  induction l as [|a r IH]; intros Hx Hy Hne; [apply elem_of_nil in Hx; contradiction|].
  apply elem_of_cons in Hx. apply elem_of_cons in Hy.
  destruct Hx as [->|Hx], Hy as [->|Hy].
  - contradiction.
  - left. apply precedes_cons. left. split; [reflexivity|assumption].
  - right. apply precedes_cons. left. split; [reflexivity|assumption].
  - destruct (IH Hx Hy Hne) as [H|H]; [left|right]; apply precedes_cons; right; assumption.
Qed.

Lemma precedes_antisym (x y : A) l : NoDup l -> precedes x y l -> precedes y x l -> False.
Proof.
  induction 1 as [|a r Ha Hr IH]; intros H1 H2.
  - apply precedes_elem_of in H1. destruct H1 as [H1 _]. apply elem_of_nil in H1. exact H1.
  - apply precedes_cons in H1. apply precedes_cons in H2.
    destruct H1 as [[-> Hy]|H1], H2 as [[-> Hx]|H2].
    + contradiction.
    + apply precedes_elem_of in H2. destruct H2 as [_ H2]. contradiction.
    + apply precedes_elem_of in H1. destruct H1 as [_ H1]. contradiction.
    + apply IH; assumption.
Qed.

Lemma Forall_sublist (P : A -> Prop) l1 l2 : l1 `sublist_of` l2 -> Forall P l2 -> Forall P l1.
Proof.
  intros Hsub H. rewrite Forall_forall in *. intros x Hx.
  apply H. eapply elem_of_sublist; eassumption.
Qed.

Lemma StronglySorted_sublist (R : A -> A -> Prop) l1 l2 :
  l1 `sublist_of` l2 -> StronglySorted R l2 -> StronglySorted R l1.
Proof.
  induction 1 as [|x l1 l2 Hsub IH|x l1 l2 Hsub IH]; intros Hs.
  - constructor.
  - apply StronglySorted_inv in Hs. destruct Hs as [Hs Hx].
    constructor; [apply IH, Hs|]. eapply Forall_sublist; eassumption.
  - apply StronglySorted_inv in Hs. destruct Hs as [Hs _]. apply IH, Hs.
Qed.

Lemma StronglySorted_descendingBy l :
  StronglySorted (notBelow key) l -> descendingBy key l.
Proof.
  induction 1 as [|a r Hr IH Ha]; intros i j x y Hij Hi Hj.
  - rewrite lookup_nil in Hi. discriminate.
  - destruct j as [|j]; [lia|]. simpl in Hj. destruct i as [|i]; simpl in Hi.
    + injection Hi as <-. rewrite Forall_forall in Ha.
      apply Ha. eapply list_elem_of_lookup_2, Hj.
    + apply (IH i j); [lia|assumption|assumption].
Qed.

Lemma slice0_sublist (l : list A) k : slice0 l k `sublist_of` l.
Proof.
  unfold slice0. destruct k as [k|]; [|reflexivity].
  destruct (k <? 0)%Z; apply sublist_take.
Qed.

Lemma slice0_length (l : list A) k :
  (0 <= k)%Z -> (List.length (slice0 l (Some k)) <= Z.to_nat k)%nat.
Proof.
  intros Hk. unfold slice0. destruct (k <? 0)%Z eqn:E; [lia|].
  rewrite length_take. lia.
Qed.

End Sorting.

Lemma findIndex_none {A} (p : A -> bool) pre l :
  Forall (fun y => p y = false) pre ->
  findIndex p (pre ++ l) = option_map (Nat.add (List.length pre)) (findIndex p l).
Proof.
  induction 1 as [|y pre Hy _ IH]; simpl.
  - destruct (findIndex p l); reflexivity.
  - rewrite Hy, IH. destruct (findIndex p l); reflexivity.
Qed.

Lemma findIndex_early {A} (p : A -> bool) pre l :
  Exists (fun y => p y = true) pre ->
  exists j, findIndex p (pre ++ l) = Some j /\ (j < List.length pre)%nat.
Proof.
  induction pre as [|y pre IH]; intros H; [inversion H|]. simpl.
  destruct (p y) eqn:E; [exists O; split; [reflexivity|lia]|].
  apply Exists_cons in H. destruct H as [H|H]; [congruence|].
  destruct (IH H) as (j & -> & Hj). exists (S j). split; [reflexivity|lia].
Qed.

(** The index test of the source keeps exactly the first story of every
    id. *)
Lemma filter_from_keepFirst self : forall l pre,
  self = pre ++ l ->
  filter_from (fun x i => isFirstOfItsId x i self) (List.length pre) l
  = keepFirstById (map story_id pre) l.
Proof.
  induction l as [|x r IH]; intros pre Hself; simpl; [reflexivity|].
  assert (Hrest : filter_from (fun x i => isFirstOfItsId x i self) (S (List.length pre)) r
                  = keepFirstById (map story_id pre ++ [story_id x]) r).
  { replace (S (List.length pre)) with (List.length (pre ++ [x]))
      by (rewrite length_app; simpl; lia).
    rewrite (IH (pre ++ [x])); [rewrite map_app; reflexivity|].
    rewrite <- app_assoc. exact Hself. }
  rewrite Hrest. unfold isFirstOfItsId. fold (sameId x). rewrite Hself.
  destruct (bool_decide (story_id x ∈ map story_id pre)) eqn:E.
  - apply bool_decide_eq_true in E. apply list_elem_of_fmap in E.
    destruct E as (y & Hy & Hin).
    destruct (findIndex_early (sameId x) pre (x :: r)) as (j & -> & Hj).
    { apply Exists_exists. exists y. split; [assumption|].
      unfold sameId. rewrite Hy. apply String.eqb_refl. }
    rewrite bool_decide_eq_false_2; [reflexivity|]. intros [= Hlen]. lia.
  - apply bool_decide_eq_false in E. rewrite bool_decide_eq_true_2; [reflexivity|].
    rewrite findIndex_none.
    + simpl. unfold sameId at 1. rewrite (String.eqb_refl (story_id x)). simpl.
      rewrite Nat.add_0_r. reflexivity.
    + apply Forall_forall. intros y Hy. unfold sameId. apply String.eqb_neq.
      intros Heq. apply E. rewrite <- Heq. apply list_elem_of_fmap.
      exists y. split; [reflexivity|assumption].
Qed.

Lemma rankAndDeduplicate_keepFirst l :
  rankAndDeduplicate l = keepFirstById [] (Array_sort byHybridScoreDesc l).
Proof.
  unfold rankAndDeduplicate, Array_filteri.
  apply (filter_from_keepFirst _ _ []). reflexivity.
Qed.

Lemma keepFirstById_sublist l : forall seen, keepFirstById seen l `sublist_of` l.
Proof.
  induction l as [|x r IH]; intros seen; simpl; [reflexivity|].
  destruct (bool_decide _); [apply sublist_cons|apply sublist_skip]; apply IH.
Qed.

Lemma keepFirstById_fresh l : forall seen c,
  c ∈ keepFirstById seen l -> story_id c ∉ seen.
Proof.
  induction l as [|x r IH]; intros seen c Hc; simpl in Hc.
  - apply elem_of_nil in Hc. contradiction.
  - destruct (bool_decide (story_id x ∈ seen)) eqn:E.
    + apply IH in Hc. intros H. apply Hc, elem_of_app. left. assumption.
    + apply bool_decide_eq_false in E. apply elem_of_cons in Hc.
      destruct Hc as [->|Hc]; [assumption|].
      apply IH in Hc. intros H. apply Hc, elem_of_app. left. assumption.
Qed.

Lemma keepFirstById_NoDup l : forall seen, NoDup (map story_id (keepFirstById seen l)).
Proof.
  induction l as [|x r IH]; intros seen; simpl; [constructor|].
  destruct (bool_decide (story_id x ∈ seen)); [apply IH|].
  simpl. constructor; [|apply IH].
  intros H. apply list_elem_of_fmap in H. destruct H as (c & Hc & Hin).
  apply keepFirstById_fresh in Hin. apply Hin, elem_of_app. right.
  rewrite Hc. apply list_elem_of_here.
Qed.

(** The first story of every id is kept: a story of the input is in the
    output unless a story with its id is seen before it. *)
Lemma keepFirstById_first l : forall seen pre x post,
  l = pre ++ x :: post ->
  story_id x ∉ seen -> story_id x ∉ map story_id pre ->
  x ∈ keepFirstById seen l.
Proof.
  induction l as [|a r IH]; intros seen pre x post Hl Hseen Hpre.
  - destruct pre; discriminate.
  - destruct pre as [|b pre]; simpl in Hl; injection Hl as -> ->; simpl.
    + rewrite bool_decide_eq_false_2 by assumption. apply list_elem_of_here.
    + simpl in Hpre. apply not_elem_of_cons in Hpre. destruct Hpre as [Hne Hpre].
      assert (Hin : x ∈ keepFirstById (seen ++ [story_id b]) (pre ++ x :: post)).
      { apply (IH _ pre x post); [reflexivity| |assumption].
        rewrite elem_of_app, list_elem_of_singleton. tauto. }
      destruct (bool_decide _); [assumption|apply list_elem_of_further, Hin].
Qed.

Lemma keepFirstById_id l : forall seen,
  NoDup (seen ++ map story_id l) -> keepFirstById seen l = l.
Proof.
  induction l as [|x r IH]; intros seen Hnd; simpl; [reflexivity|].
  simpl in Hnd. assert (Hnd' := Hnd).
  apply NoDup_app in Hnd. destruct Hnd as (_ & Hdisj & _).
  rewrite bool_decide_eq_false_2.
  - f_equal. apply IH. rewrite <- app_assoc. exact Hnd'.
  - intros H. apply (Hdisj _ H). apply list_elem_of_here.
Qed.

(** ** Weighted fusion ranker *)

Lemma normalizeResults_elem config merged c :
  c ∈ normalizeResults config merged ->
  hybrid_score c
  = vector_score_norm c * nVectorWeight config + bm25_score_norm c * nBm25Weight config.
Proof.
  unfold normalizeResults. intros H. apply list_elem_of_fmap in H.
  destruct H as (r & -> & _). reflexivity.
Qed.

Lemma normalizeResults_ids config merged :
  map story_id (normalizeResults config merged) = map story_id merged.
Proof. unfold normalizeResults. rewrite map_map. reflexivity. Qed.

Lemma fuseAndRank_sublist config merged :
  fuseAndRank config merged
    `sublist_of` Array_sort byHybridScoreDesc (normalizeResults config merged).
Proof.
  unfold fuseAndRank. destruct merged as [|m0 ms]; [apply sublist_nil_l|].
  etransitivity; [apply slice0_sublist|].
  rewrite rankAndDeduplicate_keepFirst. apply keepFirstById_sublist.
Qed.

Lemma fuseAndRank_sorted config merged :
  StronglySorted (notBelow hybrid_score) (fuseAndRank config merged).
Proof.
  eapply StronglySorted_sublist; [apply fuseAndRank_sublist|].
  apply (Array_sort_sorted hybrid_score).
Qed.

(** Every id of the input that is not yet seen is the id of a story
    that is kept. *)
Lemma keepFirstById_ids l : forall seen i,
  i ∈ map story_id l -> i ∉ seen -> i ∈ map story_id (keepFirstById seen l).
Proof.
  induction l as [|x r IH]; intros seen i Hi Hseen; simpl in *.
  - apply elem_of_nil in Hi. contradiction.
  - apply elem_of_cons in Hi.
    destruct (bool_decide (story_id x ∈ seen)) eqn:E.
    + apply bool_decide_eq_true in E. destruct Hi as [->|Hi]; [contradiction|].
      apply IH; [assumption|]. rewrite elem_of_app, list_elem_of_singleton.
      intros [H|H]; [contradiction|]. subst i. contradiction.
    + simpl. destruct (decide (i = story_id x)) as [->|Hne]; [apply list_elem_of_here|].
      apply list_elem_of_further. destruct Hi as [Hi|Hi]; [contradiction|].
      apply IH; [assumption|]. rewrite elem_of_app, list_elem_of_singleton. tauto.
Qed.

(** C5, as the code has it.  The fusion stage gives every merged
    candidate, in place and with its id, content and raw scores
    unchanged, its two min-max normalised scores and their weighted sum
    as fused score; orders the candidates from the highest fused score to
    the lowest with a sort that loses none of them; keeps of the stories
    with one id the first in that order, so that every id of the merged
    candidates stays, and every candidate when the ids are distinct; and
    returns [slice(0, topK)] of the outcome: its first [topK] candidates
    for a [topK] that is not negative (all of them when there are fewer),
    all but the last [-topK] for a negative one, and all of them when
    [topK] is missing. *)
Theorem fuseAndRank_contract (config : NormalizedConfig) (merged : list RankedStory) :
  let normalized := normalizeResults config merged in
  let sorted := Array_sort byHybridScoreDesc normalized in
  let deduplicated := keepFirstById [] sorted in
  let result := fuseAndRank config merged in
  Forall2 (fun r c =>
      story_id c = story_id r /\ story_content c = story_content r
      /\ story_metadata c = story_metadata r
      /\ vector_score c = vector_score r /\ bm25_score c = bm25_score r
      /\ vector_score_norm c
         = normalizeScore (vector_score r) (Math_min (map vector_score merged))
             (Math_max (map vector_score merged))
      /\ bm25_score_norm c
         = normalizeScore (bm25_score r) (Math_min (map bm25_score merged))
             (Math_max (map bm25_score merged))
      /\ hybrid_score c
         = vector_score_norm c * nVectorWeight config
           + bm25_score_norm c * nBm25Weight config)
    merged normalized
  /\ (forall c, c ∈ result ->
      c ∈ normalized
      /\ hybrid_score c
         == nVectorWeight config * vector_score_norm c
            + nBm25Weight config * bm25_score_norm c)
  /\ sorted ≡ₚ normalized
  /\ descendingBy hybrid_score sorted
  /\ rankAndDeduplicate normalized = deduplicated
  /\ (forall pre c post, sorted = pre ++ c :: post -> story_id c ∉ map story_id pre ->
      c ∈ deduplicated)
  /\ (forall r, r ∈ merged -> story_id r ∈ map story_id deduplicated)
  /\ (NoDup (map story_id merged) -> deduplicated = sorted)
  /\ result = slice0 deduplicated (nTopK config)
  /\ descendingBy hybrid_score result
  /\ NoDup (map story_id result)
  /\ (forall k, nTopK config = Some k -> (0 <= k)%Z ->
      result = take (Z.to_nat k) deduplicated
      /\ List.length result = Nat.min (Z.to_nat k) (List.length deduplicated)
      /\ (List.length result <= Z.to_nat k)%nat)
  /\ (forall k, nTopK config = Some k -> (k < 0)%Z ->
      result = take (List.length deduplicated - Z.to_nat (- k)) deduplicated)
  /\ (nTopK config = None -> result = deduplicated).
Proof.
  intros normalized sorted deduplicated result.
  assert (Hres : result = slice0 deduplicated (nTopK config)).
  { subst result deduplicated sorted normalized. unfold fuseAndRank.
    destruct merged as [|m0 ms].
    - simpl. destruct (nTopK config) as [k|]; [|reflexivity].
      unfold slice0. destruct (k <? 0)%Z; rewrite take_nil; reflexivity.
    - rewrite rankAndDeduplicate_keepFirst. reflexivity. }
  assert (Hsub : result `sublist_of` sorted) by apply fuseAndRank_sublist.
  assert (Hperm : sorted ≡ₚ normalized) by apply Array_sort_perm.
  assert (Hids : map story_id sorted ≡ₚ map story_id merged).
  { rewrite <- (normalizeResults_ids config merged). apply fmap_Permutation, Hperm. }
  split.
  { subst normalized. unfold normalizeResults. apply Forall2_fmap_r.
    apply Forall_Forall2_diag. apply Forall_forall. intros r _.
    repeat split; reflexivity. }
  split.
  { intros c Hc. assert (Hin : c ∈ normalized).
    { rewrite <- Hperm. eapply elem_of_sublist; eassumption. }
    split; [exact Hin|]. rewrite (normalizeResults_elem _ _ _ Hin). ring. }
  split; [exact Hperm|].
  split; [apply StronglySorted_descendingBy, (Array_sort_sorted hybrid_score)|].
  split; [apply rankAndDeduplicate_keepFirst|].
  split.
  { intros pre c post Heq Hpre. apply (keepFirstById_first _ [] pre c post); try assumption.
    apply not_elem_of_nil. }
  split.
  { intros r Hr. apply keepFirstById_ids; [|apply not_elem_of_nil].
    rewrite Hids. apply list_elem_of_fmap. exists r. split; [reflexivity|exact Hr]. }
  split.
  { intros Hnd. apply keepFirstById_id. simpl. rewrite Hids. exact Hnd. }
  split; [exact Hres|].
  split; [apply StronglySorted_descendingBy, fuseAndRank_sorted|].
  split.
  { rewrite Hres. eapply sublist_NoDup; [apply keepFirstById_NoDup|].
    apply (fmap_sublist story_id), slice0_sublist. }
  split.
  { intros k Hk Hpos.
    assert (Ht : result = take (Z.to_nat k) deduplicated).
    { rewrite Hres, Hk. unfold slice0. destruct (k <? 0)%Z eqn:E; [lia|reflexivity]. }
    split; [exact Ht|]. rewrite Ht, length_take. split; lia. }
  split.
  { intros k Hk Hneg. rewrite Hres, Hk. unfold slice0.
    destruct (k <? 0)%Z eqn:E; [|lia]. f_equal. lia. }
  intros Hk. rewrite Hres, Hk. reflexivity.
Qed.

(** On the two example streams, with equal weights and [topK] 2: the
    three merged candidates "a", "b" and "c" all pass the filter, and the
    two with the highest fused scores are returned. *)
Lemma fuseAndRank_contract_witness :
  map story_id (mergeResults exampleKnn exampleText) = ["a"; "b"; "c"]
  /\ map story_id
       (keepFirstById []
          (Array_sort byHybridScoreDesc
             (normalizeResults (normalizeWeights (mkConfig 1 1 0 2))
                (mergeResults exampleKnn exampleText))))
     = ["a"; "c"; "b"]
  /\ map story_id (fuseAndRank (normalizeWeights (mkConfig 1 1 0 2))
                     (mergeResults exampleKnn exampleText))
     = ["a"; "c"]
  /\ List.length (fuseAndRank (normalizeWeights (mkConfig 1 1 0 2))
                    (mergeResults exampleKnn exampleText)) = 2%nat.
Proof.
  destruct (fuseAndRank_contract (normalizeWeights (mkConfig 1 1 0 2))
              (mergeResults exampleKnn exampleText))
    as (_ & _ & _ & _ & _ & _ & _ & Hdistinct & _ & _ & _ & Hk & _ & _).
  destruct (Hk 2%Z eq_refl ltac:(discriminate)) as (Htake & Hlen & _).
  split; [reflexivity|]. split.
  - rewrite Hdistinct; [reflexivity|]. apply (bool_decide_unpack _). vm_compute. exact I.
  - split.
    + rewrite Htake. reflexivity.
    + rewrite Hlen. reflexivity.
Defined.

(** C5 fails as stated: with [topK] -1 the three candidates of the two
    example streams give two results, which is more than [topK]; and
    without [topK] all three are returned. *)
Lemma fuseAndRank_topK_counterexample :
  nTopK (normalizeWeights (mkConfig 1 1 0 (-1))) = Some (-1)%Z
  /\ map story_id (fuseAndRank (normalizeWeights (mkConfig 1 1 0 (-1)))
                     (mergeResults exampleKnn exampleText)) = ["a"; "c"]
  /\ ~ (Z.of_nat (List.length (fuseAndRank (normalizeWeights (mkConfig 1 1 0 (-1)))
                                 (mergeResults exampleKnn exampleText))) <= -1)%Z
  /\ List.length (fuseAndRank
                    (normalizeWeights
                       {| vectorWeight := Some 1; bm25Weight := Some 1;
                          hybridWeight := Some 0; topK := None |})
                    (mergeResults exampleKnn exampleText)) = 3%nat.
Proof.
  split; [reflexivity|]. split; [reflexivity|]. split; [|reflexivity].
  vm_compute. intros H. apply H. reflexivity.
Qed.

(** ** Order of the merged candidates and ties *)

Lemma filter_ext_in {A} (P R : A -> Prop) `{forall x, Decision (P x)} `{forall x, Decision (R x)}
    (l : list A) :
  (forall x, x ∈ l -> (P x <-> R x)) -> filter P l = filter R l.
Proof.
  induction l as [|x l IH]; intros Hext; [reflexivity|].
  rewrite !filter_cons.
  assert (Hx : P x <-> R x) by (apply Hext, list_elem_of_here).
  rewrite IH by (intros y Hy; apply Hext, list_elem_of_further, Hy).
  destruct (decide (P x)), (decide (R x)); tauto.
Qed.

Lemma fold_Set_add_fresh l : forall acc,
  NoDup (acc ++ l) -> fold_left Set_add l acc = acc ++ l.
Proof.
  induction l as [|y l IH]; intros acc Hnd; simpl; [rewrite app_nil_r; reflexivity|].
  assert (Hy : y ∉ acc).
  { apply NoDup_app in Hnd. destruct Hnd as (_ & Hdisj & _).
    intros H. apply (Hdisj _ H), list_elem_of_here. }
  unfold Set_add at 2. unfold Set_has. rewrite bool_decide_eq_false_2 by assumption.
  rewrite IH; rewrite <- app_assoc; [reflexivity|exact Hnd].
Qed.

Lemma fold_Set_add_NoDup l : forall acc,
  NoDup l -> fold_left Set_add l acc = acc ++ filter (fun x => x ∉ acc) l.
Proof.
  induction l as [|y l IH]; intros acc Hnd; simpl; [rewrite app_nil_r; reflexivity|].
  apply NoDup_cons in Hnd. destruct Hnd as [Hy Hnd].
  rewrite IH by assumption. unfold Set_add, Set_has.
  destruct (bool_decide (y ∈ acc)) eqn:E.
  - apply bool_decide_eq_true in E. rewrite filter_cons_False by tauto. reflexivity.
  - apply bool_decide_eq_false in E. rewrite filter_cons_True by assumption.
    rewrite <- app_assoc. simpl. do 2 f_equal. apply filter_ext_in.
    intros x Hx. rewrite elem_of_app, list_elem_of_singleton.
    split; [tauto|]. intros Hacc [H | ->]; contradiction.
Qed.

Lemma NoDup_fmap_eq {A B} (f : A -> B) (l : list A) x y :
  NoDup (map f l) -> x ∈ l -> y ∈ l -> f x = f y -> x = y.
Proof.
  induction l as [|a l IH]; intros Hnd Hx Hy Heq; [apply elem_of_nil in Hx; contradiction|].
  simpl in Hnd. apply NoDup_cons in Hnd. destruct Hnd as [Ha Hnd].
  apply elem_of_cons in Hx. apply elem_of_cons in Hy.
  destruct Hx as [->|Hx], Hy as [->|Hy].
  - reflexivity.
  - exfalso. apply Ha. rewrite Heq. apply list_elem_of_fmap. exists y. split; [reflexivity|assumption].
  - exfalso. apply Ha. rewrite <- Heq. apply list_elem_of_fmap. exists x. split; [reflexivity|assumption].
  - apply IH; assumption.
Qed.

(** The two score streams list the usable documents in scan order: the
    vector stream those with an embedding, the lexical stream all. *)
Lemma scanDocuments_ids Math_sqrt emb text docs :
  streamIds (fst (scanDocuments Math_sqrt emb text docs))
    = map _id (filter (fun d => content d <> "" /\ is_Some (embedding d)) docs)
  /\ streamIds (snd (scanDocuments Math_sqrt emb text docs))
    = map _id (filter (fun d => content d <> "") docs).
Proof.
  unfold scanDocuments.
  assert (H : forall acc,
    streamIds (fst (fold_left (fun acc doc => scanDocument Math_sqrt emb text doc acc) docs acc))
      = streamIds (fst acc)
        ++ map _id (filter (fun d => content d <> "" /\ is_Some (embedding d)) docs)
    /\ streamIds (snd (fold_left (fun acc doc => scanDocument Math_sqrt emb text doc acc) docs acc))
      = streamIds (snd acc) ++ map _id (filter (fun d => content d <> "") docs)).
  { induction docs as [|d docs IH]; intros acc; simpl.
    - rewrite !app_nil_r. split; reflexivity.
    - destruct (IH (scanDocument Math_sqrt emb text d acc)) as [IH1 IH2].
      rewrite IH1, IH2. clear IH IH1 IH2. destruct acc as [knn txt].
      unfold scanDocument. destruct (String.eqb (content d) "") eqn:E.
      + apply String.eqb_eq in E.
        rewrite !filter_cons_False by tauto. split; reflexivity.
      + apply String.eqb_neq in E. rewrite (filter_cons_True (fun d => content d <> "")) by assumption.
        cbn [fst snd]. unfold streamIds. rewrite !map_app. cbn [map fst]. simpl.
        rewrite <- !app_assoc. split; [|reflexivity].
        destruct (embedding d) as [e|] eqn:Ee.
        * rewrite filter_cons_True by (rewrite Ee; eauto).
          rewrite map_app, <- app_assoc. reflexivity.
        * rewrite filter_cons_False; [reflexivity|].
          rewrite Ee. intros [_ [? ?]]. discriminate. }
  apply (H ([], [])).
Qed.

Lemma filter_absent_ids (docs : list Document) (K : list string) :
  (forall d, d ∈ docs -> content d <> "" ->
     (_id d ∈ K <-> is_Some (embedding d))) ->
  filter (fun x => x ∉ K) (map _id (filter (fun d => content d <> "") docs))
  = map _id (filter (fun d => content d <> "" /\ embedding d = None) docs).
Proof.
  induction docs as [|d docs IH]; intros HK; [reflexivity|].
  assert (IH' := IH (fun d' Hd' => HK d' (list_elem_of_further _ _ _ Hd'))). clear IH.
  rewrite (filter_cons (fun d => content d <> "")).
  destruct (decide (content d <> "")) as [Hc|Hc].
  - simpl. rewrite filter_cons. specialize (HK d (list_elem_of_here _ _) Hc).
    destruct (decide (_id d ∉ K)) as [Hout|Hin].
    + rewrite filter_cons_True.
      * simpl. rewrite IH'. reflexivity.
      * split; [assumption|]. destruct (embedding d) eqn:E; [|reflexivity].
        exfalso. apply Hout, HK. eauto.
    + rewrite filter_cons_False; [exact IH'|].
      intros [_ Hnone]. apply Hin. intros Hk. apply HK in Hk.
      rewrite Hnone in Hk. destruct Hk as [? ?]. discriminate.
  - rewrite filter_cons_False by tauto. exact IH'.
Qed.

(** With distinct document ids, the merged candidates are the usable
    documents with an embedding, in scan order, followed by the usable
    documents without one, in scan order. *)
Lemma merged_order Math_sqrt emb text docs :
  NoDup (map _id docs) ->
  map story_id (mergeResults (fst (scanDocuments Math_sqrt emb text docs))
                             (snd (scanDocuments Math_sqrt emb text docs)))
  = map _id (filter (fun d => content d <> "" /\ is_Some (embedding d)) docs)
    ++ map _id (filter (fun d => content d <> "" /\ embedding d = None) docs).
Proof.
  intros Hnd. rewrite mergeResults_ids.
  destruct (scanDocuments_ids Math_sqrt emb text docs) as [-> ->].
  set (K := map _id (filter (fun d => content d <> "" /\ is_Some (embedding d)) docs)).
  assert (HK : NoDup K).
  { eapply sublist_NoDup; [exact Hnd|]. apply (fmap_sublist _id), sublist_filter. }
  assert (HT : NoDup (map _id (filter (fun d => content d <> "") docs))).
  { eapply sublist_NoDup; [exact Hnd|]. apply (fmap_sublist _id), sublist_filter. }
  unfold new_Set. rewrite fold_left_app.
  rewrite (fold_Set_add_fresh K []) by exact HK. simpl.
  rewrite fold_Set_add_NoDup by exact HT. f_equal.
  apply filter_absent_ids. intros d Hd Hc. unfold K. split.
  - intros Hin. apply list_elem_of_fmap in Hin. destruct Hin as (d' & Heq & Hd').
    apply list_elem_of_filter in Hd'. destruct Hd' as [[_ He] Hd'].
    rewrite (NoDup_fmap_eq _id docs d d' Hnd Hd Hd' Heq). exact He.
  - intros He. apply list_elem_of_fmap. exists d. split; [reflexivity|].
    apply list_elem_of_filter. tauto.
Qed.

Lemma performHybridSearch_sublist Math_sqrt docs emb text config :
  docs <> [] ->
  performHybridSearch Math_sqrt docs emb text config
    `sublist_of` Array_sort byHybridScoreDesc
       (normalizeResults config
          (mergeResults (fst (scanDocuments Math_sqrt emb text docs))
                        (snd (scanDocuments Math_sqrt emb text docs)))).
Proof.
  intros Hne. unfold performHybridSearch. destruct docs as [|d docs]; [contradiction|].
  cbn [List.length Nat.eqb].
  destruct (scanDocuments Math_sqrt emb text (d :: docs)) as [knn txt]. cbn [fst snd].
  apply fuseAndRank_sublist.
Qed.

(** C4, as the code has it.  The ranking is in descending order of the
    fused score, which is the only sort key, and the sort is stable, so
    of two candidates with equal fused scores the one that stands first
    among the merged candidates is ranked first.  The merged candidates
    are not in scan order: the documents with an embedding come first, in
    scan order, then those without one. *)
Theorem hybrid_ties_follow_merge_order
    (Math_sqrt : Q -> Q) (collection : list Document) (queryEmbedding : list Q)
    (text : string) (config : NormalizedConfig) :
  let streams := scanDocuments Math_sqrt queryEmbedding text collection in
  let candidates := normalizeResults config (mergeResults (fst streams) (snd streams)) in
  let result := performHybridSearch Math_sqrt collection queryEmbedding text config in
  (forall x y, x ∈ result -> y ∈ result -> x <> y ->
     hybrid_score x == hybrid_score y -> precedes x y candidates -> precedes x y result)
  /\ (forall x y, precedes x y result -> hybrid_score x == hybrid_score y ->
      precedes x y candidates)
  /\ (NoDup (map _id collection) ->
      map story_id candidates
      = map _id (filter (fun d => content d <> "" /\ is_Some (embedding d)) collection)
        ++ map _id (filter (fun d => content d <> "" /\ embedding d = None) collection))
  /\ descendingBy hybrid_score result.
Proof.
  intros streams candidates result.
  assert (Hback : forall x y, precedes x y result -> hybrid_score x == hybrid_score y ->
                              precedes x y candidates).
  { intros x y Hxy Heq. destruct collection as [|d docs].
    - apply precedes_cons in Hxy. destruct Hxy as [[_ Hy]|Hxy].
      + apply elem_of_nil in Hy. contradiction.
      + apply precedes_elem_of in Hxy. destruct Hxy as [Hx _].
        apply elem_of_nil in Hx. contradiction.
    - apply (Array_sort_stable hybrid_score); [|assumption].
      unfold precedes in *. etransitivity; [exact Hxy|].
      apply performHybridSearch_sublist. discriminate. }
  split; [|split; [exact Hback|split]].
  - intros x y Hx Hy Hne Heq Hxy.
    destruct (precedes_total x y result Hx Hy Hne) as [H|H]; [assumption|].
    exfalso. apply (precedes_antisym x y candidates); [|assumption|].
    + apply (NoDup_fmap_1 story_id). subst candidates.
      rewrite normalizeResults_ids, mergeResults_ids. apply NoDup_new_Set.
    + apply Hback; [assumption|]. symmetry. assumption.
  - intros Hnd. subst candidates. rewrite normalizeResults_ids. apply merged_order, Hnd.
  - subst result. apply StronglySorted_descendingBy. unfold performHybridSearch.
    destruct (List.length collection =? 0)%nat; [repeat constructor|].
    destruct (scanDocuments Math_sqrt queryEmbedding text collection) as [knn txt].
    apply fuseAndRank_sorted.
Qed.

Lemma hybrid_ties_follow_merge_order_witness :
  map story_id (normalizeResults (normalizeWeights DEFAULT_CONFIG)
    (mergeResults (fst (scanDocuments sqrtOnSquares [1; 0] "x" tieCollection))
                  (snd (scanDocuments sqrtOnSquares [1; 0] "x" tieCollection))))
  = ["b"; "a"].
Proof.
  destruct (hybrid_ties_follow_merge_order sqrtOnSquares tieCollection [1; 0] "x"
              (normalizeWeights DEFAULT_CONFIG)) as (_ & _ & H & _).
  rewrite H; [reflexivity|]. vm_compute.
  apply NoDup_cons. split; [|apply NoDup_singleton].
  rewrite list_elem_of_singleton. discriminate.
Defined.

(** C4 fails as stated: "a" is scanned before "b", both reach the fused
    score 0.9, and "b" is ranked first. *)
Lemma hybrid_ties_counterexample :
  map _id tieCollection = ["a"; "b"]
  /\ map story_id (performHybridSearch sqrtOnSquares tieCollection [1; 0] "x"
                     (normalizeWeights DEFAULT_CONFIG)) = ["b"; "a"]
  /\ Forall (fun c => hybrid_score c == 9 # 10)
            (performHybridSearch sqrtOnSquares tieCollection [1; 0] "x"
               (normalizeWeights DEFAULT_CONFIG)).
Proof.
  split; [reflexivity|]. split; [vm_compute; reflexivity|].
  vm_compute. repeat constructor.
Qed.

(** ** Soundness of the matcher *)

Local Arguments String.append : simpl nomatch.

Lemma append_nil_r (w : string) : w +:+ "" = w.
Proof. induction w as [|c w IH]; simpl; [reflexivity|]. rewrite IH. reflexivity. Qed.

Lemma append_assoc (a b c : string) : (a +:+ b) +:+ c = a +:+ (b +:+ c).
Proof. induction a as [|x a IH]; simpl; [reflexivity|]. rewrite IH. reflexivity. Qed.

Lemma length_append (a b : string) :
  String.length (a +:+ b) = (String.length a + String.length b)%nat.
Proof. induction a as [|x a IH]; simpl; [reflexivity|]. rewrite IH. reflexivity. Qed.

Lemma sliceTo_append (a b : string) : sliceTo (String.length a) (a +:+ b) = a.
Proof. induction a as [|x a IH]; simpl; [destruct b; reflexivity|]. rewrite IH. reflexivity. Qed.

Lemma many1_sound {R} g p (k : string -> option R) s res :
  many1 g p k s = Some res ->
  exists w s', s = w +:+ s' /\ w <> "" /\ allChars p w /\ k s' = Some res.
Proof.
  revert res. induction s as [|c r IH]; intros res H; simpl in H; [discriminate|].
  destruct (p c) eqn:Ec; [|discriminate].
  assert (Hhere : k r = Some res ->
                  exists w s', String c r = w +:+ s' /\ w <> "" /\ allChars p w /\ k s' = Some res).
  { intros Hk. exists (String c ""), r. simpl. repeat split; try assumption. discriminate. }
  assert (Hmore : many1 g p k r = Some res ->
                  exists w s', String c r = w +:+ s' /\ w <> "" /\ allChars p w /\ k s' = Some res).
  { intros Hm. destruct (IH _ Hm) as (w & s' & -> & _ & Hw & Hk).
    exists (String c w), s'. simpl. repeat split; try assumption. discriminate. }
  destruct g; unfold orElse in H.
  - destruct (many1 true p k r) eqn:E; [injection H as <-; apply Hmore; reflexivity|].
    apply Hhere, H.
  - destruct (k r) eqn:E; [injection H as <-; apply Hhere; reflexivity|].
    apply Hmore, H.
Qed.

Lemma sliceTo_prefix (s w s' : string) :
  s = w +:+ s' -> sliceTo (String.length s - String.length s') s = w.
Proof.
  intros ->. rewrite length_append, Nat.add_sub. apply sliceTo_append.
Qed.

(** What the matcher consumes is a word of the expression; an expression
    without groups hands the captures on unchanged. *)
Lemma rmatch_sound {R} icase r : forall caps (k : list string -> string -> option R) s res,
  noGroup r = true ->
  rmatch icase r caps k s = Some res ->
  exists w s', s = w +:+ s' /\ Lang icase r w /\ k caps s' = Some res.
Proof.
  induction r as [|p|p|r1 IH1 r2 IH2|r1 IH1 r2 IH2|r1 IH1|g p|g p|r1 IH1|];
    intros caps k s res Hng H; simpl in H, Hng.
  - exists "", s. simpl. auto.
  - destruct s as [|c s']; [discriminate|].
    destruct (litMatches icase p c) eqn:E; [|discriminate].
    exists (String c ""), s'. simpl. eauto.
  - destruct s as [|c s']; [discriminate|].
    destruct (p c) eqn:E; [|discriminate].
    exists (String c ""), s'. simpl. eauto.
  - apply andb_true_iff in Hng. destruct Hng as [Hn1 Hn2].
    destruct (IH1 _ _ _ _ Hn1 H) as (w1 & s1 & -> & Hw1 & H2).
    destruct (IH2 _ _ _ _ Hn2 H2) as (w2 & s2 & -> & Hw2 & Hk).
    exists (w1 +:+ w2), s2. rewrite append_assoc. simpl. eauto 8.
  - apply andb_true_iff in Hng. destruct Hng as [Hn1 Hn2]. unfold orElse in H.
    destruct (rmatch icase r1 caps k s) eqn:E.
    + injection H as <-. destruct (IH1 _ _ _ _ Hn1 E) as (w & s' & -> & Hw & Hk).
      exists w, s'. simpl. auto.
    + destruct (IH2 _ _ _ _ Hn2 H) as (w & s' & -> & Hw & Hk).
      exists w, s'. simpl. auto.
  - unfold orElse in H. destruct (rmatch icase r1 caps k s) eqn:E.
    + injection H as <-. destruct (IH1 _ _ _ _ Hng E) as (w & s' & -> & Hw & Hk).
      exists w, s'. simpl. auto.
    + exists "", s. simpl. auto.
  - destruct (many1_sound _ _ _ _ _ H) as (w & s' & -> & Hne & Hw & Hk).
    exists w, s'. simpl. auto.
  - unfold many0, orElse in H.
    assert (Hnone : k caps s = Some res ->
                    exists w s', s = w +:+ s' /\ Lang icase (Star g p) w /\ k caps s' = Some res).
    { intros Hk. exists "", s. simpl. auto. }
    assert (Hsome : many1 g p (k caps) s = Some res ->
                    exists w s', s = w +:+ s' /\ Lang icase (Star g p) w /\ k caps s' = Some res).
    { intros Hm. destruct (many1_sound _ _ _ _ _ Hm) as (w & s' & -> & Hne & Hw & Hk).
      exists w, s'. simpl. auto. }
    destruct g.
    + destruct (many1 true p (k caps) s) eqn:E; [injection H as <-; apply Hsome; reflexivity|].
      apply Hnone, H.
    + destruct (k caps s) eqn:E; [injection H as <-; apply Hnone; reflexivity|].
      apply Hsome, H.
  - discriminate.
  - destruct s; [|discriminate]. exists "", "". simpl. auto.
Qed.

(** The capture of a group that is the whole expression is a word of
    the expression inside, wherever the match starts. *)
Lemma exec_group_sound icase r1 s caps :
  noGroup r1 = true ->
  exec icase (Group r1) s = Some caps ->
  exists w, caps = [w] /\ Lang icase r1 w.
Proof.
  intros Hng. induction s as [|c s IH]; simpl; intros H.
  - unfold matchAtStart in H. simpl in H.
    destruct (rmatch icase r1 [] _ "") eqn:E; [|discriminate]. injection H as <-.
    destruct (rmatch_sound _ _ _ _ _ _ Hng E) as (w & s' & Hs & Hw & Hk).
    injection Hk as <-. exists w. split; [|assumption].
    destruct w; [reflexivity|discriminate].
  - unfold matchAtStart in H at 1. cbn [rmatch] in H.
    destruct (rmatch icase r1 [] _ (String c s)) eqn:E.
    + injection H as <-.
      destruct (rmatch_sound _ _ _ _ _ _ Hng E) as (w & s' & Hs & Hw & Hk).
      injection Hk as <-. exists w. split; [|assumption].
      f_equal. exact (sliceTo_prefix (String c s) w s' Hs).
    + apply IH, H.
Qed.

(** ** Range of the fused scores *)

Lemma min2_le a b : min2 a b <= a /\ min2 a b <= b.
Proof.
  unfold min2. destruct (Qle_bool a b) eqn:E.
  - apply Qle_bool_iff in E. split; lra.
  - split; [|lra]. destruct (Qlt_le_dec b a) as [H|H]; [lra|].
    apply Qle_bool_iff in H. congruence.
Qed.

Lemma max2_ge a b : a <= max2 a b /\ b <= max2 a b.
Proof.
  unfold max2. destruct (Qle_bool a b) eqn:E.
  - apply Qle_bool_iff in E. split; lra.
  - split; [lra|]. destruct (Qlt_le_dec b a) as [H|H]; [lra|].
    apply Qle_bool_iff in H. congruence.
Qed.

Lemma fold_min2_le l : forall a,
  fold_left min2 l a <= a /\ (forall x, x ∈ l -> fold_left min2 l a <= x).
Proof.
  induction l as [|y l IH]; intros a; simpl.
  - split; [lra|]. intros x Hx. apply elem_of_nil in Hx. contradiction.
  - destruct (IH (min2 a y)) as [H1 H2]. destruct (min2_le a y) as [Ha Hy].
    split; [lra|]. intros x Hx. apply elem_of_cons in Hx.
    destruct Hx as [->|Hx]; [lra|apply H2, Hx].
Qed.

Lemma fold_max2_ge l : forall a,
  a <= fold_left max2 l a /\ (forall x, x ∈ l -> x <= fold_left max2 l a).
Proof.
  induction l as [|y l IH]; intros a; simpl.
  - split; [lra|]. intros x Hx. apply elem_of_nil in Hx. contradiction.
  - destruct (IH (max2 a y)) as [H1 H2]. destruct (max2_ge a y) as [Ha Hy].
    split; [lra|]. intros x Hx. apply elem_of_cons in Hx.
    destruct Hx as [->|Hx]; [lra|apply H2, Hx].
Qed.

Lemma Math_min_le l x : x ∈ l -> Math_min l <= x.
Proof.
  destruct l as [|a l]; intros Hx; [apply elem_of_nil in Hx; contradiction|].
  simpl. destruct (fold_min2_le l a) as [H1 H2].
  apply elem_of_cons in Hx. destruct Hx as [->|Hx]; [assumption|apply H2, Hx].
Qed.

Lemma Math_max_ge l x : x ∈ l -> x <= Math_max l.
Proof.
  destruct l as [|a l]; intros Hx; [apply elem_of_nil in Hx; contradiction|].
  simpl. destruct (fold_max2_ge l a) as [H1 H2].
  apply elem_of_cons in Hx. destruct Hx as [->|Hx]; [assumption|apply H2, Hx].
Qed.

Lemma normalizeScore_unit s mn mx :
  mn <= s -> s <= mx -> inUnitInterval (normalizeScore s mn mx).
Proof.
  intros H1 H2. unfold normalizeScore, inUnitInterval.
  destruct (Qeq_bool mx mn) eqn:E; [split; lra|].
  apply Qeq_bool_neq in E. assert (Hpos : 0 < mx - mn).
  { destruct (Qlt_le_dec mn mx) as [H|H]; [lra|]. exfalso. apply E. lra. }
  split.
  - apply Qle_shift_div_l; [assumption|]. lra.
  - apply Qle_shift_div_r; [assumption|]. lra.
Qed.

(** Every normalised score of a batch lies in [[0,1]]. *)
Lemma normalizeBatch_unit scores : Forall inUnitInterval (normalizeBatch scores).
Proof.
  unfold normalizeBatch. apply Forall_fmap, Forall_forall. intros s Hs. simpl.
  apply normalizeScore_unit; [apply Math_min_le|apply Math_max_ge]; assumption.
Qed.

Lemma normalizeResults_unit config merged c :
  c ∈ normalizeResults config merged ->
  inUnitInterval (vector_score_norm c) /\ inUnitInterval (bm25_score_norm c).
Proof.
  intros Hc. destruct (normalizeResults_batches config merged) as [Hv Hb].
  split.
  - assert (H : vector_score_norm c ∈ map vector_score_norm (normalizeResults config merged))
      by (apply list_elem_of_fmap; eauto).
    rewrite Hv in H. revert H. apply Forall_forall, normalizeBatch_unit.
  - assert (H : bm25_score_norm c ∈ map bm25_score_norm (normalizeResults config merged))
      by (apply list_elem_of_fmap; eauto).
    rewrite Hb in H. revert H. apply Forall_forall, normalizeBatch_unit.
Qed.

(** What every candidate of a search result satisfies. *)
Lemma performHybridSearch_candidate Math_sqrt docs emb text config c :
  c ∈ performHybridSearch Math_sqrt docs emb text config ->
  inUnitInterval (vector_score_norm c) /\ inUnitInterval (bm25_score_norm c)
  /\ hybrid_score c
     == vector_score_norm c * nVectorWeight config + bm25_score_norm c * nBm25Weight config.
Proof.
  intros Hc. destruct docs as [|d docs].
  - apply list_elem_of_singleton in Hc. subst c. unfold inUnitInterval. simpl.
    repeat split; lra.
  - assert (Hin : c ∈ normalizeResults config
             (mergeResults (fst (scanDocuments Math_sqrt emb text (d :: docs)))
                           (snd (scanDocuments Math_sqrt emb text (d :: docs))))).
    { rewrite <- (Array_sort_perm byHybridScoreDesc).
      eapply elem_of_sublist; [exact Hc|]. apply performHybridSearch_sublist. discriminate. }
    destruct (normalizeResults_unit _ _ _ Hin) as [Hv Hb].
    split; [assumption|]. split; [assumption|].
    rewrite (normalizeResults_elem _ _ _ Hin). reflexivity.
Qed.

Lemma normalizeWeights_bounds (config : RAGConfig) :
  0 <= orDefault (vectorWeight config) (6 # 10) ->
  0 <= orDefault (bm25Weight config) (3 # 10) ->
  0 <= orDefault (hybridWeight config) (1 # 10) ->
  0 <= nVectorWeight (normalizeWeights config)
  /\ 0 <= nBm25Weight (normalizeWeights config)
  /\ 0 <= nHybridWeight (normalizeWeights config)
  /\ nVectorWeight (normalizeWeights config) + nBm25Weight (normalizeWeights config)
     + nHybridWeight (normalizeWeights config) <= 1.
Proof.
  intros Hv Hb Hh. destruct (normalizeWeights_cases config) as (H1 & H0 & Hz).
  cbv zeta in H1, H0, Hz.
  set (v := orDefault (vectorWeight config) (6 # 10)) in *.
  set (b := orDefault (bm25Weight config) (3 # 10)) in *.
  set (h := orDefault (hybridWeight config) (1 # 10)) in *.
  destruct (Qeq_dec (v + b + h) 0) as [E|E].
  - destruct (Hz Hv Hb Hh E) as (-> & -> & ->). repeat split; lra.
  - specialize (H1 E). assert (Hpos : 0 < v + b + h).
    { destruct (Qlt_le_dec 0 (v + b + h)) as [H|H]; [assumption|]. exfalso. apply E. lra. }
    unfold normalizeWeights in *. cbn [nVectorWeight nBm25Weight nHybridWeight] in *.
    fold v b in H1 |- *.
    change (orDefault (hybridWeight config) (orDefault (hybridWeight DEFAULT_CONFIG) 0))
      with h in *.
    rewrite (orIfZero_nonzero _ 1 E) in *.
    repeat split; try (apply Qle_shift_div_l; [assumption|lra]). lra.
Qed.

(** *** The number read from a free-text answer *)

Lemma parseFraction_bounds w : forall num den,
  (0 <= num < Zpos den)%Z ->
  0 <= parseFraction w num den /\ parseFraction w num den < 1.
Proof.
  induction w as [|c w IH]; intros num den Hn; simpl.
  - unfold Qle, Qlt. simpl. lia.
  - destruct (isDigit c) eqn:E; [|unfold Qle, Qlt; simpl; lia].
    apply IH. unfold isDigit in E. apply andb_true_iff in E. destruct E as [E1 E2].
    apply Nat.leb_le in E1, E2. unfold digitValue. lia.
Qed.

Lemma parseFraction_zeros w : forall den,
  allChars isZeroDigit w -> parseFraction w 0 den == 0.
Proof.
  induction w as [|c w IH]; intros den Hw; simpl.
  - reflexivity.
  - destruct Hw as [Hc Hw].
    assert (E : c = "0"%char) by (apply Ascii.eqb_eq; exact Hc). subst c.
    simpl. apply IH, Hw.
Qed.

Lemma litMatches_exact p c : litMatches false p c = true -> c = p.
Proof. intros H. symmetry. apply Ascii.eqb_eq. exact H. Qed.

Lemma numberRegex_capture_unit content caps :
  exec false numberRegex content = Some caps ->
  exists w, caps = [w] /\ inUnitInterval (parseFloat w).
Proof.
  intros H. apply exec_group_sound in H; [|reflexivity].
  destruct H as (w & -> & Hw). exists w. split; [reflexivity|].
  unfold inUnitInterval.
  destruct Hw as [(w1 & w2 & -> & (c & -> & Hc) & Hopt)|(w1 & w2 & -> & (c & -> & Hc) & Hopt)];
    apply litMatches_exact in Hc; subst c.
  - destruct Hopt as [->|(d & ds & -> & (c & -> & Hc) & _ & _)].
    + vm_compute. split; discriminate.
    + apply litMatches_exact in Hc. subst c.
      unfold parseFloat. simpl.
      change (inject_Z (10 * 0 + digitValue "0")) with 0.
      destruct (parseFraction_bounds ds 0 1) as [H0 H1]; [lia|].
      split; lra.
  - destruct Hopt as [->|(d & ds & -> & (c & -> & Hc) & _ & Hz)].
    + vm_compute. split; discriminate.
    + apply litMatches_exact in Hc. subst c.
      unfold parseFloat. simpl.
      change (inject_Z (10 * 0 + digitValue "1")) with 1.
      rewrite (parseFraction_zeros ds 1 Hz). split; lra.
Qed.

Section JudgeRange.

Variable mistral_chat : nat -> string -> string -> ChatOutcome.
Variable JSON_parse : string -> option JudgeJson.

(** The judge keeps to its interface: a structured score is in [[0,1]]. *)
Hypothesis JSON_score_unit : forall s parsed q,
  JSON_parse s = Some parsed -> json_llm_score parsed = Some q -> inUnitInterval q.

Lemma parseJudgeContent_unit content :
  inUnitInterval (fst (parseJudgeContent JSON_parse content)).
Proof.
  unfold parseJudgeContent.
  destruct (exec false jsonRegex content) as [[|m ms]|] eqn:Ej.
  - destruct (exec false numberRegex content) as [caps|] eqn:En; simpl.
    + destruct (numberRegex_capture_unit _ _ En) as (w & -> & Hw). exact Hw.
    + unfold inUnitInterval. split; lra.
  - destruct (JSON_parse m) as [parsed|] eqn:Ep; simpl.
    + destruct (json_llm_score parsed) as [q|] eqn:Eq; simpl.
      * eapply JSON_score_unit; eassumption.
      * unfold inUnitInterval. split; lra.
    + unfold inUnitInterval. split; lra.
  - destruct (exec false numberRegex content) as [caps|] eqn:En; simpl.
    + destruct (numberRegex_capture_unit _ _ En) as (w & -> & Hw). exact Hw.
    + unfold inUnitInterval. split; lra.
Qed.

End JudgeRange.

(** *** The two versions of the search agree *)

Lemma scan_no_embedding Math_sqrt emb text docs :
  fst (scanDocuments Math_sqrt emb text docs) = [] ->
  Forall (fun d : Document * Q => embedding (fst d) = None)
         (snd (scanDocuments Math_sqrt emb text docs)).
Proof.
  unfold scanDocuments.
  assert (H : forall acc : list (Document * Q) * list (Document * Q),
    (fst acc = [] -> Forall (fun d : Document * Q => embedding (fst d) = None) (snd acc)) ->
    fst (fold_left (fun acc doc => scanDocument Math_sqrt emb text doc acc) docs acc) = [] ->
    Forall (fun d : Document * Q => embedding (fst d) = None)
      (snd (fold_left (fun acc doc => scanDocument Math_sqrt emb text doc acc) docs acc))).
  { induction docs as [|d docs IH]; intros acc Hacc; simpl; [exact Hacc|].
    apply IH. destruct acc as [knn txt]. unfold scanDocument.
    destruct (String.eqb (content d) ""); [exact Hacc|]. cbn [fst snd] in *.
    destruct (embedding d) as [e|] eqn:Ee.
    - intros Hnil. destruct knn; discriminate.
    - intros Hnil. apply Forall_app. split; [apply Hacc, Hnil|].
      constructor; [exact Ee|constructor]. }
  apply H. intros _. constructor.
Qed.

(** The extra block of the Pages-API version never changes
    [knnResults]: both versions of [performHybridSearch] are one
    function. *)
Lemma Legacy_performHybridSearch_eq Math_sqrt docs emb text config :
  Legacy.performHybridSearch Math_sqrt docs emb text config
  = performHybridSearch Math_sqrt docs emb text config.
Proof.
  unfold Legacy.performHybridSearch, performHybridSearch.
  destruct (List.length docs =? 0)%nat; [reflexivity|].
  assert (Hscan := scan_no_embedding Math_sqrt emb text docs).
  destruct (scanDocuments Math_sqrt emb text docs) as [knn txt]. cbn [fst snd] in Hscan.
  destruct knn as [|k knn]; [|reflexivity]. cbn [List.length Nat.eqb].
  specialize (Hscan eq_refl). unfold Legacy.knnFallback.
  replace (List.filter _ txt) with (@nil (Document * Q)); [reflexivity|].
  induction Hscan as [|d txt Hd _ IH]; [reflexivity|]. simpl. rewrite Hd. exact IH.
Qed.

(** *** The re-ranked candidates *)

Section Reranker.

Variable mistral_chat : nat -> string -> string -> ChatOutcome.
Variable JSON_parse : string -> option JudgeJson.

(** Re-ranking drops and adds nothing: the output holds, in some order,
    the enhanced form of every candidate. *)
Lemma enhanceWithLLM_perm candidates query config :
  enhanceWithLLM mistral_chat JSON_parse candidates query config
  ≡ₚ imap (enhanceCandidate mistral_chat JSON_parse query config) candidates.
Proof. unfold enhanceWithLLM. apply Array_sort_perm. Qed.

Lemma base_enhanceCandidate query config i c :
  base (enhanceCandidate mistral_chat JSON_parse query config i c) = c.
Proof.
  unfold enhanceCandidate. destruct (mistral_chat _ _ _); [reflexivity|].
  destruct (parseJudgeContent _ _). reflexivity.
Qed.

Lemma map_base_imap query config candidates :
  map base (imap (enhanceCandidate mistral_chat JSON_parse query config) candidates)
  = candidates.
Proof.
  apply list_eq. intros i. rewrite list_lookup_fmap, list_lookup_imap.
  destruct (candidates !! i); simpl; [|reflexivity].
  rewrite base_enhanceCandidate. reflexivity.
Qed.

Lemma enhanceWithLLM_elem candidates query config e :
  e ∈ enhanceWithLLM mistral_chat JSON_parse candidates query config ->
  exists i c, candidates !! i = Some c
              /\ e = enhanceCandidate mistral_chat JSON_parse query config i c.
Proof.
  rewrite enhanceWithLLM_perm. intros H. apply elem_of_lookup_imap in H.
  destruct H as (i & c & -> & Hc). eauto.
Qed.

End Reranker.

(** A weighted sum of values of [[0,1]] with weights that are not
    negative lies between 0 and the sum of the weights. *)
Lemma weighted_sum_bounds x y z wx wy wz :
  inUnitInterval x -> inUnitInterval y -> inUnitInterval z ->
  0 <= wx -> 0 <= wy -> 0 <= wz ->
  0 <= x * wx + y * wy /\ x * wx + y * wy <= wx + wy
  /\ 0 <= x * wx + y * wy + wz * z /\ x * wx + y * wy + wz * z <= wx + wy + wz.
Proof.
  unfold inUnitInterval. intros [Hx0 Hx1] [Hy0 Hy1] [Hz0 Hz1] Hwx Hwy Hwz.
  assert (0 <= x * wx) by (apply Qmult_le_0_compat; assumption).
  assert (0 <= y * wy) by (apply Qmult_le_0_compat; assumption).
  assert (0 <= wz * z) by (apply Qmult_le_0_compat; assumption).
  assert (x * wx <= 1 * wx) by (apply Qmult_le_compat_r; assumption).
  assert (y * wy <= 1 * wy) by (apply Qmult_le_compat_r; assumption).
  assert (wz * z <= wz * 1).
  { rewrite (Qmult_comm wz z), (Qmult_comm wz 1). apply Qmult_le_compat_r; assumption. }
  repeat split; lra.
Qed.

(** C6, as the code has it.  When the supplied weights are not negative,
    the two normalised scores of every candidate lie in [[0,1]] and its
    provisional fused score lies between 0 and the sum of the two
    normalised weights it is made with, in the route handler and, when
    the two weights are there and their sum is not 0, in the Pages-API
    handler; when, besides, every structured score the judge returns lies
    in [[0,1]], the final fused score lies between 0 and the sum of the
    three normalised weights.  The sum of the normalised weights is 1 up
    to rounding only, and the score of a structured answer is used as it
    comes, without clamping. *)
Theorem fused_scores_within_weights
    (Math_sqrt : Q -> Q) (mistral_chat : nat -> string -> string -> ChatOutcome)
    (JSON_parse : string -> option JudgeJson)
    (collection : list Document) (queryEmbedding : list Q) (text : string)
    (rawConfig : RAGConfig) :
  let config := normalizeWeights rawConfig in
  let candidates := performHybridSearch Math_sqrt collection queryEmbedding text config in
  0 <= orDefault (vectorWeight rawConfig) (6 # 10) ->
  0 <= orDefault (bm25Weight rawConfig) (3 # 10) ->
  0 <= orDefault (hybridWeight rawConfig) (1 # 10) ->
  (forall c, c ∈ candidates ->
     inUnitInterval (vector_score_norm c) /\ inUnitInterval (bm25_score_norm c)
     /\ hybrid_score c
        == vector_score_norm c * nVectorWeight config + bm25_score_norm c * nBm25Weight config
     /\ 0 <= hybrid_score c
     /\ hybrid_score c <= nVectorWeight config + nBm25Weight config)
  /\ (forall legacyConfig, Legacy.normalizeWeights rawConfig = Some legacyConfig ->
      forall c,
        c ∈ Legacy.performHybridSearch Math_sqrt collection queryEmbedding text legacyConfig ->
        inUnitInterval (vector_score_norm c) /\ inUnitInterval (bm25_score_norm c)
        /\ hybrid_score c
           == vector_score_norm c * nVectorWeight legacyConfig
              + bm25_score_norm c * nBm25Weight legacyConfig
        /\ 0 <= hybrid_score c
        /\ hybrid_score c <= nVectorWeight legacyConfig + nBm25Weight legacyConfig)
  /\ ((forall s parsed q, JSON_parse s = Some parsed -> json_llm_score parsed = Some q ->
       inUnitInterval q) ->
      forall e, e ∈ enhanceWithLLM mistral_chat JSON_parse candidates text config ->
        base e ∈ candidates
        /\ inUnitInterval (llm_score e)
        /\ (hybrid_score_final e = hybrid_score (base e)
            \/ hybrid_score_final e
               = vector_score_norm (base e) * nVectorWeight config
                 + bm25_score_norm (base e) * nBm25Weight config
                 + nHybridWeight config * llm_score e)
        /\ 0 <= hybrid_score_final e
        /\ hybrid_score_final e
           <= nVectorWeight config + nBm25Weight config + nHybridWeight config).
Proof.
  intros config candidates Hv Hb Hh.
  destruct (normalizeWeights_bounds rawConfig Hv Hb Hh) as (Wv & Wb & Wh & _).
  fold config in Wv, Wb, Wh.
  assert (Hz : inUnitInterval 0) by (unfold inUnitInterval; split; lra).
  assert (Htwo : forall cfg c, 0 <= nVectorWeight cfg -> 0 <= nBm25Weight cfg ->
            c ∈ performHybridSearch Math_sqrt collection queryEmbedding text cfg ->
            inUnitInterval (vector_score_norm c) /\ inUnitInterval (bm25_score_norm c)
            /\ hybrid_score c
               == vector_score_norm c * nVectorWeight cfg + bm25_score_norm c * nBm25Weight cfg
            /\ 0 <= hybrid_score c
            /\ hybrid_score c <= nVectorWeight cfg + nBm25Weight cfg).
  { intros cfg c Cv Cb Hc.
    destruct (performHybridSearch_candidate _ _ _ _ _ _ Hc) as (Uv & Ub & Heq).
    destruct (weighted_sum_bounds _ _ 0 _ _ 0 Uv Ub Hz Cv Cb (Qle_refl 0)) as (L & U & _).
    split; [exact Uv|]. split; [exact Ub|]. split; [exact Heq|].
    rewrite Heq. split; assumption. }
  split; [intros c Hc; apply Htwo; assumption|]. split.
  { intros legacyConfig Hl c. rewrite Legacy_performHybridSearch_eq.
    unfold Legacy.normalizeWeights in Hl.
    destruct (vectorWeight rawConfig) as [v'|]; [|discriminate].
    destruct (bm25Weight rawConfig) as [b'|]; [|discriminate].
    destruct (Qeq_bool (v' + b') 0) eqn:E; [discriminate|].
    apply Qeq_bool_neq in E. simpl in Hv, Hb.
    assert (Hpos : 0 < v' + b').
    { destruct (Qlt_le_dec 0 (v' + b')) as [H|H]; [assumption|]. exfalso. apply E. lra. }
    inversion Hl; subst legacyConfig; clear Hl.
    apply Htwo; cbn [nVectorWeight nBm25Weight];
      (apply Qle_shift_div_l; [assumption|lra]). }
  intros Hjudge e He. apply enhanceWithLLM_elem in He.
  destruct He as (i & c & Hi & ->). apply list_elem_of_lookup_2 in Hi.
  destruct (Htwo config c Wv Wb Hi) as (Uv & Ub & _ & L2 & U2).
  split; [rewrite base_enhanceCandidate; exact Hi|].
  unfold enhanceCandidate. destruct (mistral_chat _ _ _) as [|content].
  - cbn [llm_score hybrid_score_final base]. split; [exact Hz|].
    split; [left; reflexivity|]. split; [exact L2|lra].
  - assert (Hs := parseJudgeContent_unit JSON_parse Hjudge content).
    destruct (parseJudgeContent JSON_parse content) as [llmScore reason].
    cbn [fst] in Hs. cbn [llm_score hybrid_score_final base].
    destruct (weighted_sum_bounds _ _ _ _ _ _ Uv Ub Hs Wv Wb Wh) as (_ & _ & L3 & U3).
    split; [exact Hs|]. split; [right; reflexivity|]. split; assumption.
Qed.

Lemma fused_scores_within_weights_witness :
  Forall (fun c => 0 <= hybrid_score c
                   /\ hybrid_score c
                      <= nVectorWeight (normalizeWeights DEFAULT_CONFIG)
                         + nBm25Weight (normalizeWeights DEFAULT_CONFIG))
    (performHybridSearch sqrtOnSquares tieCollection [1; 0] "x" (normalizeWeights DEFAULT_CONFIG))
  /\ Forall (fun e => inUnitInterval (llm_score e)
                      /\ 0 <= hybrid_score_final e
                      /\ hybrid_score_final e
                         <= nVectorWeight (normalizeWeights DEFAULT_CONFIG)
                            + nBm25Weight (normalizeWeights DEFAULT_CONFIG)
                            + nHybridWeight (normalizeWeights DEFAULT_CONFIG))
       (enhanceWithLLM (chatAnswers scoreHalfJson) parseScoreHalf
          (performHybridSearch sqrtOnSquares tieCollection [1; 0] "x"
             (normalizeWeights DEFAULT_CONFIG))
          "x" (normalizeWeights DEFAULT_CONFIG))
  /\ map (fun e => Qred (llm_score e))
         (enhanceWithLLM (chatAnswers scoreHalfJson) parseScoreHalf
            (performHybridSearch sqrtOnSquares tieCollection [1; 0] "x"
               (normalizeWeights DEFAULT_CONFIG))
            "x" (normalizeWeights DEFAULT_CONFIG))
     = [1 # 2; 1 # 2].
Proof.
  destruct (fused_scores_within_weights sqrtOnSquares (chatAnswers scoreHalfJson)
              parseScoreHalf tieCollection [1; 0] "x" DEFAULT_CONFIG)
    as (Htwo & _ & Hthree); [discriminate..|].
  split; [|split; [|vm_compute; reflexivity]].
  - apply Forall_forall. intros c Hc.
    destruct (Htwo c Hc) as (_ & _ & _ & L & U). split; assumption.
  - apply Forall_forall. intros e He.
    destruct (Hthree ltac:(intros s parsed q Hp Hq; unfold parseScoreHalf in Hp;
                           destruct (String.eqb s scoreHalfJson); [|discriminate];
                           injection Hp as <-; injection Hq as <-;
                           split; discriminate) e He)
      as (_ & Hs & _ & L & U).
    split; [exact Hs|]. split; assumption.
Defined.

(** C6 fails as stated.  A judge that answers with the score 5 lifts the
    final fused score of the only candidate to 0.9 + 0.1 * 5 = 1.4.  And in
    doubles the normalised weights need not add up to 1: a candidate
    whose normalised scores are both 1 gets, with the weights 0.03, 0.29
    and 0, the provisional score 1.0000000000000002, and with the default
    weights and the judge's score 1 the final score
    1.0000000000000002. *)
Lemma final_score_above_one_counterexample :
  (map (fun e => Qred (hybrid_score_final e))
       (enhanceWithLLM (chatAnswers scoreFiveJson) parseScoreFive
          (performHybridSearch sqrtOnSquares oneStory [1; 0] "reset my password"
             (normalizeWeights DEFAULT_CONFIG))
          "reset my password" (normalizeWeights DEFAULT_CONFIG))
   = [7 # 5]
   /\ 1 < 7 # 5)
  /\ (Binary64.hybrid_score 1 1 (Binary64.normalizeWeights 0.03 0.29 0)
      = 0x1.0000000000001p+0%float
      /\ PrimFloat.ltb 1 (Binary64.hybrid_score 1 1 (Binary64.normalizeWeights 0.03 0.29 0))
         = true)
  /\ (Binary64.finalHybrid 1 1 1 (Binary64.normalizeWeights 0.6 0.3 0.1)
      = 0x1.0000000000001p+0%float
      /\ PrimFloat.ltb 1 (Binary64.finalHybrid 1 1 1 (Binary64.normalizeWeights 0.6 0.3 0.1))
         = true).
Proof.
  split; [split; [vm_compute; reflexivity|reflexivity]|].
  split; split; vm_compute; reflexivity.
Qed.

(** ** Failure isolation in the re-ranker *)

Lemma performHybridSearch_sorted Math_sqrt docs emb text config :
  StronglySorted (notBelow hybrid_score)
    (performHybridSearch Math_sqrt docs emb text config).
Proof.
  unfold performHybridSearch. destruct (List.length docs =? 0)%nat.
  - repeat constructor.
  - destruct (scanDocuments Math_sqrt emb text docs) as [knn txt]. apply fuseAndRank_sorted.
Qed.

Lemma StronglySorted_fmap {A B} (R : A -> A -> Prop) (R' : B -> B -> Prop) (f : A -> B) l :
  (forall x y, R x y -> R' (f x) (f y)) ->
  StronglySorted R l -> StronglySorted R' (map f l).
Proof.
  intros HR. induction 1 as [|x l Hl IH Hx]; simpl; constructor; [assumption|].
  apply Forall_fmap. eapply Forall_impl; [exact Hx|]. intros y Hy. apply HR, Hy.
Qed.

Lemma enhanceWithLLM_all_fail chat parse candidates query config :
  (forall i q s, chat i q s = ChatThrows) ->
  StronglySorted (notBelow hybrid_score) candidates ->
  enhanceWithLLM chat parse candidates query config = map failedStory candidates.
Proof.
  intros Hfail Hsorted. unfold enhanceWithLLM.
  assert (Himap : imap (enhanceCandidate chat parse query config) candidates
                  = map failedStory candidates).
  { apply list_eq. intros i. rewrite list_lookup_imap, list_lookup_fmap.
    destruct (candidates !! i) as [c|]; simpl; [|reflexivity].
    unfold enhanceCandidate. rewrite Hfail. reflexivity. }
  rewrite Himap. apply (Array_sort_of_sorted hybrid_score_final).
  eapply StronglySorted_fmap; [|exact Hsorted]. intros x y Hxy. exact Hxy.
Qed.

(** C3, as the code has it.  Re-ranking keeps every candidate.  A
    candidate whose chat call throws gets the score 0, keeps its
    provisional fused score as final score and carries the mark
    ["LLM failed"].  A candidate whose answer cannot be parsed, or is
    scored 0 for any other reason, also keeps its provisional fused score
    as final score, but its reason is taken from the answer and it carries
    no mark.  When every call throws, the output is the provisional
    ranking with every result marked. *)
Theorem enhanceWithLLM_failure_isolation
    (Math_sqrt : Q -> Q) (mistral_chat : nat -> string -> string -> ChatOutcome)
    (JSON_parse : string -> option JudgeJson)
    (collection : list Document) (queryEmbedding : list Q) (text : string)
    (config : NormalizedConfig) :
  let candidates := performHybridSearch Math_sqrt collection queryEmbedding text config in
  let enhance := enhanceCandidate mistral_chat JSON_parse text config in
  let enhanced := enhanceWithLLM mistral_chat JSON_parse candidates text config in
  map base enhanced ≡ₚ candidates
  /\ (forall i c, candidates !! i = Some c -> enhance i c ∈ enhanced /\ base (enhance i c) = c)
  /\ (forall i c, candidates !! i = Some c ->
      mistral_chat i text (sliceTo 400 (story_content c)) = ChatThrows ->
      llm_score (enhance i c) = 0
      /\ hybrid_score_final (enhance i c) = hybrid_score c
      /\ markedFailed (enhance i c))
  /\ (forall i c content jsonMatch rest, candidates !! i = Some c ->
      mistral_chat i text (sliceTo 400 (story_content c)) = ChatContent content ->
      exec false jsonRegex content = Some (jsonMatch :: rest) ->
      JSON_parse jsonMatch = None ->
      llm_score (enhance i c) = 0
      /\ hybrid_score_final (enhance i c) == hybrid_score c
      /\ llm_reason (enhance i c) = sliceTo 300 content)
  /\ (forall i c content, candidates !! i = Some c ->
      mistral_chat i text (sliceTo 400 (story_content c)) = ChatContent content ->
      fst (parseJudgeContent JSON_parse content) == 0 ->
      hybrid_score_final (enhance i c) == hybrid_score c
      /\ llm_reason (enhance i c) = snd (parseJudgeContent JSON_parse content))
  /\ ((forall i q s, mistral_chat i q s = ChatThrows) ->
      map base enhanced = candidates
      /\ Forall markedFailed enhanced
      /\ Forall (fun e => llm_score e = 0 /\ hybrid_score_final e = hybrid_score (base e))
                enhanced).
Proof.
  intros candidates enhance enhanced.
  assert (Hscored : forall i c content, candidates !! i = Some c ->
      mistral_chat i text (sliceTo 400 (story_content c)) = ChatContent content ->
      fst (parseJudgeContent JSON_parse content) == 0 ->
      hybrid_score_final (enhance i c) == hybrid_score c
      /\ llm_reason (enhance i c) = snd (parseJudgeContent JSON_parse content)).
  { intros i c content Hi Hchat Hzero. subst enhance. unfold enhanceCandidate.
    rewrite Hchat. apply list_elem_of_lookup_2 in Hi.
    destruct (performHybridSearch_candidate _ _ _ _ _ _ Hi) as (_ & _ & Heq).
    destruct (parseJudgeContent JSON_parse content) as [llmScore reason].
    simpl in *. split; [|reflexivity]. rewrite Heq, Hzero. ring. }
  split.
  { subst enhanced. rewrite enhanceWithLLM_perm, map_base_imap. reflexivity. }
  split.
  { intros i c Hi. split; [|apply base_enhanceCandidate].
    subst enhanced. rewrite enhanceWithLLM_perm. apply elem_of_lookup_imap_2, Hi. }
  split.
  { intros i c Hi Hchat. subst enhance. unfold enhanceCandidate. rewrite Hchat.
    repeat split. }
  split.
  { intros i c content jsonMatch rest Hi Hchat Hmatch Hparse.
    assert (Hp : parseJudgeContent JSON_parse content = (0, sliceTo 300 content)).
    { unfold parseJudgeContent. rewrite Hmatch, Hparse. reflexivity. }
    destruct (Hscored i c content Hi Hchat) as [Hfinal Hreason].
    { rewrite Hp. reflexivity. }
    rewrite Hp in Hreason. split; [|split; assumption].
    subst enhance. unfold enhanceCandidate. rewrite Hchat, Hp. reflexivity. }
  split; [exact Hscored|].
  intros Hfail. subst enhanced.
  rewrite (enhanceWithLLM_all_fail _ _ _ _ _ Hfail)
    by apply performHybridSearch_sorted.
  split; [|split].
  - rewrite map_map. simpl. apply map_id.
  - apply Forall_fmap, Forall_forall. intros c _. reflexivity.
  - apply Forall_fmap, Forall_forall. intros c _. split; reflexivity.
Qed.

Lemma enhanceWithLLM_failure_isolation_witness :
  map base (enhanceWithLLM chatFails parseFails
              (performHybridSearch sqrtOnSquares tieCollection [1; 0] "x"
                 (normalizeWeights DEFAULT_CONFIG))
              "x" (normalizeWeights DEFAULT_CONFIG))
  = performHybridSearch sqrtOnSquares tieCollection [1; 0] "x" (normalizeWeights DEFAULT_CONFIG)
  /\ Forall markedFailed
       (enhanceWithLLM chatFails parseFails
          (performHybridSearch sqrtOnSquares tieCollection [1; 0] "x"
             (normalizeWeights DEFAULT_CONFIG))
          "x" (normalizeWeights DEFAULT_CONFIG)).
Proof.
  destruct (enhanceWithLLM_failure_isolation sqrtOnSquares chatFails parseFails
              tieCollection [1; 0] "x" (normalizeWeights DEFAULT_CONFIG))
    as (_ & _ & _ & _ & _ & H).
  destruct H as (H1 & H2 & _); [reflexivity|]. split; assumption.
Defined.

(** C3 fails as stated: a candidate whose answer is not valid JSON is
    scored 0 and keeps its provisional score, but it is not marked. *)
Lemma malformed_answer_not_marked_counterexample :
  map llm_reason
      (enhanceWithLLM (chatAnswers malformedAnswer) parseFails
         (performHybridSearch sqrtOnSquares oneStory [1; 0] "reset my password"
            (normalizeWeights DEFAULT_CONFIG))
         "reset my password" (normalizeWeights DEFAULT_CONFIG))
  = ["{oops}"]
  /\ failedReason = "LLM failed"
  /\ Forall (fun e => llm_score e == 0 /\ hybrid_score_final e == hybrid_score (base e)
                      /\ ~ markedFailed e)
       (enhanceWithLLM (chatAnswers malformedAnswer) parseFails
          (performHybridSearch sqrtOnSquares oneStory [1; 0] "reset my password"
             (normalizeWeights DEFAULT_CONFIG))
          "reset my password" (normalizeWeights DEFAULT_CONFIG)).
Proof.
  split; [vm_compute; reflexivity|]. split; [reflexivity|].
  vm_compute. repeat constructor; discriminate.
Qed.

(** ** Story normaliser *)

Lemma normalizeStory_unfold story :
  normalizeStory story
  = let normalized := collapseWhiteSpace (replaceCRLF (trim story)) in
    punctuate (capitalize
      (match matchAtStart true storyShape normalized with
       | Some _ => normalized
       | None =>
           storyTemplate (capture1 (exec true roleRegex normalized) "user")
                         (capture1 (exec true actionRegex normalized) normalized)
                         (capture1 (exec true valueRegex normalized)
                                   "achieve the desired outcome")
       end)).
Proof.
  unfold normalizeStory, punctuate, capitalize. cbv zeta.
  destruct (matchAtStart true storyShape _); reflexivity.
Qed.

Lemma upperChar_of_a c : lowerChar c = "a"%char -> upperChar c = "A"%char.
Proof.
  destruct c as [[] [] [] [] [] [] [] []]; vm_compute; intros H;
    first [reflexivity | discriminate H].
Qed.

(** A text of the story shape starts with [a] or [A]. *)
Lemma storyShape_head s caps :
  matchAtStart true storyShape s = Some caps ->
  exists c rest, s = String c rest /\ upperChar c = "A"%char.
Proof.
  unfold matchAtStart. intros H. apply rmatch_sound in H; [|reflexivity].
  destruct H as (w & s' & -> & Hw & _). simpl in Hw.
  destruct Hw as (w1 & w2 & -> & Hw1 & _).
  destruct Hw1 as (a & w3 & -> & (c & -> & Hc) & _).
  exists c, ((w3 +:+ w2) +:+ s'). split; [reflexivity|].
  apply upperChar_of_a. symmetry. apply Ascii.eqb_eq. exact Hc.
Qed.

Lemma capitalize_head c rest :
  capitalize (String c rest) = String (upperChar c) (toLowerCase rest).
Proof. reflexivity. Qed.

Lemma test_endPunct s : test false endPunctRegex s = true -> endsInPunctuation s.
Proof.
  unfold test. induction s as [|c s IH]; simpl; [discriminate|].
  unfold matchAtStart. simpl. destruct (isEndPunct c) eqn:Ec.
  - destruct s as [|c' s'].
    + intros _. exists "", c. split; [reflexivity|assumption].
    + intros H. destruct (IH H) as (front & c0 & -> & Hc0).
      exists (String c front), c0. split; [reflexivity|assumption].
  - intros H. destruct (IH H) as (front & c0 & -> & Hc0).
    exists (String c front), c0. split; [reflexivity|assumption].
Qed.

Lemma punctuate_ends s : endsInPunctuation (punctuate s).
Proof.
  unfold punctuate. destruct (test false endPunctRegex s) eqn:E; simpl.
  - apply test_endPunct, E.
  - exists s, "."%char. split; reflexivity.
Qed.

Lemma punctuate_head c rest : exists rest', punctuate (String c rest) = String c rest'.
Proof.
  unfold punctuate. destruct (negb _); simpl; eauto.
Qed.

Lemma trimStart_white s : allChars isWhiteSpace s -> trimStart s = "".
Proof.
  induction s as [|c s IH]; simpl; [reflexivity|]. intros [Hc Hs]. rewrite Hc. apply IH, Hs.
Qed.

(** C10. For every input the normaliser returns a string that starts
    with the capital [A], hence is not empty and has an upper-case first
    character, and that ends in [.], [!] or [?].  An input that is not in
    the story shape is rebuilt from the template, each part being what its
    pattern extracts or else its default: [user], the whole text,
    [achieve the desired outcome].  White space alone is rebuilt from the
    defaults with an empty action. *)
Theorem normalizeStory_total (story : string) :
  let normalized := collapseWhiteSpace (replaceCRLF (trim story)) in
  let result := normalizeStory story in
  (exists rest, result = String "A" rest)
  /\ result <> ""
  /\ charAt0 result = toUpperCase (charAt0 result)
  /\ endsInPunctuation result
  /\ (matchAtStart true storyShape normalized = None ->
      result = punctuate (capitalize
                 (storyTemplate (capture1 (exec true roleRegex normalized) "user")
                                (capture1 (exec true actionRegex normalized) normalized)
                                (capture1 (exec true valueRegex normalized)
                                          "achieve the desired outcome"))))
  /\ (matchAtStart true storyShape normalized = None ->
      exec true roleRegex normalized = None ->
      exec true actionRegex normalized = None ->
      exec true valueRegex normalized = None ->
      result = punctuate (capitalize
                 (storyTemplate "user" normalized "achieve the desired outcome")))
  /\ (allChars isWhiteSpace story ->
      result = "As a user, i want to  so that achieve the desired outcome.").
Proof.
  intros normalized result.
  assert (Hhead : exists rest, result = String "A" rest).
  { subst result. rewrite normalizeStory_unfold. cbv zeta. fold normalized.
    destruct (matchAtStart true storyShape normalized) as [caps|] eqn:E.
    - destruct (storyShape_head _ _ E) as (c & rest & -> & Hc).
      rewrite capitalize_head, Hc. apply punctuate_head.
    - unfold storyTemplate. simpl. rewrite capitalize_head. apply punctuate_head. }
  split; [exact Hhead|].
  split; [destruct Hhead as (rest & ->); discriminate|].
  split; [destruct Hhead as (rest & ->); reflexivity|].
  split; [subst result; rewrite normalizeStory_unfold; apply punctuate_ends|].
  split.
  { intros Hshape. subst result. rewrite normalizeStory_unfold. cbv zeta. fold normalized.
    rewrite Hshape. reflexivity. }
  split.
  { intros Hshape Hr Ha Hv. subst result. rewrite normalizeStory_unfold. cbv zeta.
    fold normalized. rewrite Hshape, Hr, Ha, Hv. reflexivity. }
  intros Hwhite. subst result. unfold normalizeStory, trim.
  rewrite (trimStart_white _ Hwhite). reflexivity.
Qed.

Lemma normalizeStory_total_witness :
  normalizeStory "   " = "As a user, i want to  so that achieve the desired outcome.".
Proof.
  apply (normalizeStory_total "   "). repeat split.
Defined.

Example normalizeStory_examples :
  normalizeStory "As a  user I want  to log in so that I can see my data!"
    = "As a user i want to log in so that i can see my data!"
  /\ normalizeStory "I need to reset my password, in order to regain access."
    = "As a user, i want to reset my password so that regain access."
  /\ normalizeStory "log in" = "As a user, i want to log in so that achieve the desired outcome.".
Proof. repeat split; reflexivity. Qed.

Example split_ws_examples :
  split_ws "a  b" = ["a"; "b"] /\ split_ws "" = [""] /\
  split_ws " a" = [""; "a"] /\ split_ws "a " = ["a"; ""] /\ split_ws " " = [""; ""].
Proof. repeat split; reflexivity. Qed.

Example computeTextSimilarity_examples :
  computeTextSimilarity "as a user" "as a admin" == 2 # 4
  /\ computeTextSimilarity "" "" == 1.
Proof. split; vm_compute; reflexivity. Qed.

(** The scenario of two stories with the query equal to the first: the
    first story has both normalised scores and the fused score 1 and is
    ranked first; the second has the lexical score 5/7 and is ranked
    second with the fused score 0. *)
Example performHybridSearch_scenario :
  map (fun c => (story_id c, Qred (bm25_score c), Qred (vector_score_norm c),
                 Qred (bm25_score_norm c), Qred (hybrid_score c)))
      (performHybridSearch sqrtOnSquares
         [mkDoc "a" "as a user I want login" (Some [1; 0]);
          mkDoc "b" "as a user I want logout" (Some [0; 1])]
         [1; 0] "as a user I want login"
         (normalizeWeights (mkConfig (1 # 2) (1 # 2) 0 2)))
  = [("a", 1, 1, 1, 1); ("b", 5 # 7, 0, 0, 0)].
Proof. vm_compute. reflexivity. Qed.

(** [slice(0, k)] with a negative [k] drops from the end. *)
Example slice0_negative : slice0 ["a"; "b"; "c"] (Some (-1)%Z) = ["a"; "b"].
Proof. reflexivity. Qed.

(** * Further properties of the code *)

(** ** Vector similarity scorer *)

Lemma cosineLoop_sums v1 : forall v2 dot na nb,
  List.length v1 = List.length v2 ->
  cosineLoop v1 v2 (dot, na, nb)
  = (fold_left (fun acc ab => acc + fst ab * snd ab) (zip v1 v2) dot,
     fold_left (fun acc a => acc + a * a) v1 na,
     fold_left (fun acc b => acc + b * b) v2 nb).
Proof.
  induction v1 as [|a r1 IH]; intros [|b r2] dot na nb Hlen; simpl in Hlen; try discriminate.
  - reflexivity.
  - simpl. rewrite IH by lia. reflexivity.
Qed.

Lemma fold_sq_acc v : forall acc,
  fold_left (fun acc a => acc + a * a) v acc == acc + normSq v.
Proof.
  unfold normSq. induction v as [|a v IH]; intros acc; simpl; [ring|].
  rewrite IH, (IH (0 + a * a)). ring.
Qed.

Lemma normSq_cons a v : normSq (a :: v) == a * a + normSq v.
Proof. unfold normSq at 1. simpl. rewrite fold_sq_acc. ring. Qed.

Lemma fold_dot_dotProduct v1 : forall v2 acc,
  fold_left (fun acc ab => acc + fst ab * snd ab) (zip v1 v2) acc == acc + dotProduct v1 v2.
Proof.
  induction v1 as [|a r1 IH]; intros [|b r2] acc; simpl; try ring.
  rewrite IH. simpl. ring.
Qed.

Lemma dotProduct_comm v1 : forall v2, dotProduct v1 v2 == dotProduct v2 v1.
Proof.
  induction v1 as [|a r1 IH]; intros [|b r2]; simpl; try reflexivity.
  rewrite IH. ring.
Qed.

(** The value of the scorer on vectors of equal length. *)
Lemma computeCosineSimilarity_eq Math_sqrt v1 v2 :
  List.length v1 = List.length v2 ->
  exists dot, dot == dotProduct v1 v2
    /\ computeCosineSimilarity Math_sqrt v1 v2
       = if Qeq_bool (normSq v1) 0 || Qeq_bool (normSq v2) 0 then 0
         else dot / (Math_sqrt (normSq v1) * Math_sqrt (normSq v2)).
Proof.
  intros Hlen. unfold computeCosineSimilarity. rewrite Hlen, Nat.eqb_refl. simpl negb. cbv iota.
  rewrite cosineLoop_sums by assumption.
  exists (fold_left (fun acc ab => acc + fst ab * snd ab) (zip v1 v2) 0).
  split; [rewrite fold_dot_dotProduct; ring|reflexivity].
Qed.

Lemma normSq_zeros v : Forall (Qeq 0) v -> normSq v == 0.
Proof.
  induction 1 as [|a v Ha _ IH]; [reflexivity|].
  rewrite normSq_cons, IH, <- Ha. reflexivity.
Qed.

(** X1. The vector score does not depend on the order of its two
    arguments. *)
Theorem computeCosineSimilarity_symmetric (Math_sqrt : Q -> Q) (vec1 vec2 : list Q) :
  computeCosineSimilarity Math_sqrt vec1 vec2 == computeCosineSimilarity Math_sqrt vec2 vec1.
Proof.
  destruct (Nat.eq_dec (List.length vec1) (List.length vec2)) as [Hlen|Hlen].
  - destruct (computeCosineSimilarity_eq Math_sqrt vec1 vec2 Hlen) as (d1 & Hd1 & ->).
    destruct (computeCosineSimilarity_eq Math_sqrt vec2 vec1 (eq_sym Hlen)) as (d2 & Hd2 & ->).
    rewrite (orb_comm (Qeq_bool (normSq vec2) 0)).
    destruct (Qeq_bool (normSq vec1) 0 || Qeq_bool (normSq vec2) 0); [reflexivity|].
    rewrite Hd1, Hd2, (dotProduct_comm vec1 vec2).
    rewrite (Qmult_comm (Math_sqrt (normSq vec2))). reflexivity.
  - unfold computeCosineSimilarity.
    assert (E1 : (List.length vec1 =? List.length vec2)%nat = false) by (apply Nat.eqb_neq; assumption).
    assert (E2 : (List.length vec2 =? List.length vec1)%nat = false) by (apply Nat.eqb_neq; lia).
    rewrite E1, E2. reflexivity.
Qed.

(** X2. The vector score is 0, and nothing is divided, when the two
    vectors differ in length or one of them has magnitude 0; the empty
    vector is such a vector. *)
Theorem computeCosineSimilarity_guards (Math_sqrt : Q -> Q) (vec1 vec2 : list Q) :
  (List.length vec1 <> List.length vec2 -> computeCosineSimilarity Math_sqrt vec1 vec2 = 0)
  /\ (normSq vec1 == 0 \/ normSq vec2 == 0 -> computeCosineSimilarity Math_sqrt vec1 vec2 = 0)
  /\ (Forall (Qeq 0) vec1 -> computeCosineSimilarity Math_sqrt vec1 vec2 = 0)
  /\ computeCosineSimilarity Math_sqrt [] vec2 = 0.
Proof.
  assert (Hzero : normSq vec1 == 0 \/ normSq vec2 == 0 ->
                  computeCosineSimilarity Math_sqrt vec1 vec2 = 0).
  { intros Hz. destruct (Nat.eq_dec (List.length vec1) (List.length vec2)) as [Hlen|Hlen].
    - destruct (computeCosineSimilarity_eq Math_sqrt vec1 vec2 Hlen) as (d & _ & ->).
      destruct Hz as [Hz|Hz]; rewrite (Qeq_eq_bool _ _ Hz); [reflexivity|].
      rewrite orb_true_r. reflexivity.
    - unfold computeCosineSimilarity.
      assert (E : (List.length vec1 =? List.length vec2)%nat = false)
        by (apply Nat.eqb_neq; assumption).
      rewrite E. reflexivity. }
  split; [|split; [exact Hzero|split]].
  - intros Hlen. unfold computeCosineSimilarity.
    assert (E : (List.length vec1 =? List.length vec2)%nat = false)
      by (apply Nat.eqb_neq; assumption).
    rewrite E. reflexivity.
  - intros Hall. apply Hzero. left. apply normSq_zeros, Hall.
  - destruct vec2; reflexivity.
Qed.

Lemma computeCosineSimilarity_guards_witness :
  computeCosineSimilarity sqrtOnSquares [1; 2] [1; 2; 3] = 0
  /\ computeCosineSimilarity sqrtOnSquares [0; 0] [3; 4] = 0.
Proof.
  split.
  - destruct (computeCosineSimilarity_guards sqrtOnSquares [1; 2] [1; 2; 3]) as (H & _).
    apply H. discriminate.
  - destruct (computeCosineSimilarity_guards sqrtOnSquares [0; 0] [3; 4]) as (_ & _ & H & _).
    apply H. repeat constructor.
Defined.

(** ** Lexical similarity scorer, continued *)

Lemma ratio_one n m : (0 < m)%nat -> (ratio n m == 1 <-> n = m).
Proof.
  intros Hm. unfold ratio.
  assert (Hpos : ~ inject_Z (Z.of_nat m) == 0).
  { intros H. unfold Qeq in H. simpl in H. lia. }
  split.
  - intros H.
    assert (Hn : inject_Z (Z.of_nat n)
                 == (inject_Z (Z.of_nat n) / inject_Z (Z.of_nat m)) * inject_Z (Z.of_nat m))
      by (field; assumption).
    rewrite H, Qmult_1_l in Hn. unfold Qeq in Hn. simpl in Hn. lia.
  - intros ->. field. assumption.
Qed.

(** X5. The lexical score does not depend on the order of the two
    texts, a text has the score 1 with itself, and the score is 1 exactly
    when the two texts split into the same set of pieces; two texts that
    differ in letter case only have the score 1 at the call site, which
    lower-cases them. *)
Theorem computeTextSimilarity_symmetric (text1 text2 : string) :
  computeTextSimilarity text1 text2 = computeTextSimilarity text2 text1
  /\ computeTextSimilarity text1 text1 == 1
  /\ (computeTextSimilarity text1 text2 == 1 <-> pieceSet text1 = pieceSet text2)
  /\ (toLowerCase text1 = toLowerCase text2 -> textScore text1 text2 == 1).
Proof.
  assert (Hpos : forall t1 t2, (0 < size (pieceSet t1 ∪ pieceSet t2))%nat).
  { intros t1 t2. destruct (size (pieceSet t1 ∪ pieceSet t2)) eqn:E; [|lia].
    apply size_empty_iff in E. exfalso. apply (pieceSet_nonempty t1).
    apply set_eq. intros x. split; [|intros Hx; apply elem_of_empty in Hx; contradiction].
    intros Hx. exfalso. apply (proj1 (elem_of_equiv_empty _) E x), elem_of_union.
    left. exact Hx. }
  assert (Hiff : forall t1 t2,
            computeTextSimilarity t1 t2 == 1 <-> pieceSet t1 = pieceSet t2).
  { intros t1 t2. rewrite computeTextSimilarity_jaccard, ratio_one by apply Hpos. split.
    - intros Hsize.
      assert (Heq : pieceSet t1 ∩ pieceSet t2 = pieceSet t1 ∪ pieceSet t2).
      { apply set_subseteq_size_eq; [|lia].
        intros x. rewrite elem_of_intersection, elem_of_union. tauto. }
      apply set_eq. intros x.
      assert (Hx : x ∈ pieceSet t1 ∩ pieceSet t2 <-> x ∈ pieceSet t1 ∪ pieceSet t2)
        by (rewrite Heq; reflexivity).
      rewrite elem_of_intersection, elem_of_union in Hx. tauto.
    - intros ->. f_equal. apply set_eq. intros x.
      rewrite elem_of_intersection, elem_of_union. tauto. }
  split; [|split; [apply Hiff; reflexivity|split; [apply Hiff|]]].
  - rewrite !computeTextSimilarity_jaccard. f_equal; f_equal; apply set_eq; intros x.
    + rewrite !elem_of_intersection. tauto.
    + rewrite !elem_of_union. tauto.
  - intros Hlow. unfold textScore. rewrite Hlow. apply Hiff. reflexivity.
Qed.

Lemma computeTextSimilarity_symmetric_witness :
  textScore "Reset My Password" "reset my password" == 1.
Proof.
  apply (computeTextSimilarity_symmetric "Reset My Password" "reset my password"). reflexivity.
Defined.

(** ** Score normaliser, continued *)

Lemma normalizeScore_mono s1 s2 mn mx :
  mn <= mx -> s1 <= s2 -> normalizeScore s1 mn mx <= normalizeScore s2 mn mx.
Proof.
  intros Hm Hs. unfold normalizeScore. destruct (Qeq_bool mx mn) eqn:E; [lra|].
  apply Qeq_bool_neq in E. assert (Hpos : 0 < mx - mn).
  { destruct (Qlt_le_dec mn mx) as [H|H]; [lra|]. exfalso. apply E. lra. }
  unfold Qdiv. apply Qmult_le_compat_r; [lra|]. apply Qlt_le_weak, Qinv_lt_0_compat, Hpos.
Qed.

Lemma Math_min_le_max l x : x ∈ l -> Math_min l <= Math_max l.
Proof.
  intros Hx. apply Qle_trans with x; [apply Math_min_le|apply Math_max_ge]; assumption.
Qed.

(** X6. Normalising a batch keeps its length and its order: a score that
    is not below another one is not below it after normalisation either.
    Every normalised score lies in [[0,1]]; the highest score of the batch
    becomes 1 and, unless all scores are equal, the lowest becomes 0. *)
Theorem normalizeBatch_order (scores : list Q) :
  List.length (normalizeBatch scores) = List.length scores
  /\ Forall inUnitInterval (normalizeBatch scores)
  /\ (forall i j s1 s2 n1 n2,
        scores !! i = Some s1 -> scores !! j = Some s2 ->
        normalizeBatch scores !! i = Some n1 -> normalizeBatch scores !! j = Some n2 ->
        s1 <= s2 -> n1 <= n2)
  /\ (forall i s n, scores !! i = Some s -> normalizeBatch scores !! i = Some n ->
        s == Math_max scores -> n == 1)
  /\ (forall i s n, scores !! i = Some s -> normalizeBatch scores !! i = Some n ->
        ~ Math_max scores == Math_min scores -> s == Math_min scores -> n == 0).
Proof.
  assert (Hlook : forall i s n, scores !! i = Some s -> normalizeBatch scores !! i = Some n ->
                    n = normalizeScore s (Math_min scores) (Math_max scores)).
  { intros i s n Hs Hn. unfold normalizeBatch in Hn. rewrite list_lookup_fmap, Hs in Hn.
    simpl in Hn. congruence. }
  split; [unfold normalizeBatch; apply length_map|].
  split; [apply normalizeBatch_unit|]. split; [|split].
  - intros i j s1 s2 n1 n2 H1 H2 Hn1 Hn2 Hle.
    rewrite (Hlook _ _ _ H1 Hn1), (Hlook _ _ _ H2 Hn2).
    apply normalizeScore_mono; [|assumption].
    apply (Math_min_le_max scores s1). eapply list_elem_of_lookup_2, H1.
  - intros i s n Hs Hn Hmax. rewrite (Hlook _ _ _ Hs Hn). unfold normalizeScore.
    destruct (Qeq_bool (Math_max scores) (Math_min scores)) eqn:E; [reflexivity|].
    apply Qeq_bool_neq in E. rewrite Hmax. field. intros H. apply E. lra.
  - intros i s n Hs Hn Hne Hmin. rewrite (Hlook _ _ _ Hs Hn). unfold normalizeScore.
    destruct (Qeq_bool (Math_max scores) (Math_min scores)) eqn:E.
    + apply Qeq_bool_iff in E. contradiction.
    + rewrite Hmin. field. intros H. apply Hne. lra.
Qed.

Lemma normalizeBatch_order_witness :
  map Qred (normalizeBatch [3; 1; 2]) = [1; 0; 1 # 2].
Proof.
  destruct (normalizeBatch_order [3; 1; 2]) as (_ & _ & _ & Hmax & Hmin).
  assert (H1 := Hmax 0%nat 3 _ eq_refl eq_refl (Qeq_refl _)).
  assert (H0 : ~ Math_max [3; 1; 2] == Math_min [3; 1; 2]) by (vm_compute; discriminate).
  assert (H2 := Hmin 1%nat 1 _ eq_refl eq_refl H0 (Qeq_refl _)).
  vm_compute. reflexivity.
Defined.

(** ** Scaling a batch of raw scores *)

(** C9, as the code has it.  Multiplying every raw score of a batch by a
    positive constant keeps what the normalised batch says about the
    order of the scores: the normalised scores of the scaled batch, each
    the quotient that [normalizeScore] forms from the scaled score and
    the scaled bounds, lie in [[0,1]], are ordered as the raw scores are,
    are 1 at the largest raw score and, unless the scaled scores are all
    equal, 0 at the smallest; and a batch whose scores are all equal is
    mapped to ones before and after the scaling.  The normalised values
    themselves are unchanged over exact values only
    ([normalizeBatch_scale_exact]): each is a rounded quotient of rounded
    differences of rounded products. *)
Theorem normalizeBatch_scaling (scores : list Q) (c : Q) :
  0 < c ->
  let scaled := map (Qmult c) scores in
  List.length (normalizeBatch scaled) = List.length (normalizeBatch scores)
  /\ (forall i s n, scores !! i = Some s -> normalizeBatch scaled !! i = Some n ->
        n = normalizeScore (c * s) (Math_min scaled) (Math_max scaled))
  /\ Forall inUnitInterval (normalizeBatch scaled)
  /\ (forall i j s1 s2 n1 n2,
        scores !! i = Some s1 -> scores !! j = Some s2 ->
        normalizeBatch scaled !! i = Some n1 -> normalizeBatch scaled !! j = Some n2 ->
        s1 <= s2 -> n1 <= n2)
  /\ (forall i s n, scores !! i = Some s -> normalizeBatch scaled !! i = Some n ->
        s == Math_max scores -> n == 1)
  /\ (forall i s n, scores !! i = Some s -> normalizeBatch scaled !! i = Some n ->
        ~ Math_max scaled == Math_min scaled -> s == Math_min scores -> n == 0)
  /\ (Math_max scores == Math_min scores ->
      Forall (Qeq 1) (normalizeBatch scores) /\ Forall (Qeq 1) (normalizeBatch scaled)).
Proof.
  intros Hc scaled.
  assert (Hmx := Math_max_scale c scores Hc). fold scaled in Hmx.
  assert (Hmn := Math_min_scale c scores Hc). fold scaled in Hmn.
  assert (Hlook : forall i s n, scores !! i = Some s -> normalizeBatch scaled !! i = Some n ->
                    n = normalizeScore (c * s) (Math_min scaled) (Math_max scaled)).
  { intros i s n Hs Hn. unfold normalizeBatch in Hn. rewrite list_lookup_fmap in Hn.
    subst scaled. rewrite list_lookup_fmap, Hs in Hn. simpl in Hn. congruence. }
  split; [unfold normalizeBatch, scaled; rewrite !length_map; reflexivity|].
  split; [exact Hlook|].
  split; [apply normalizeBatch_unit|]. split; [|split; [|split]].
  - intros i j s1 s2 n1 n2 H1 H2 Hn1 Hn2 Hle.
    rewrite (Hlook _ _ _ H1 Hn1), (Hlook _ _ _ H2 Hn2).
    apply normalizeScore_mono.
    + apply (Math_min_le_max scaled (c * s1)). subst scaled.
      apply list_elem_of_fmap. exists s1. split; [reflexivity|].
      eapply list_elem_of_lookup_2, H1.
    + apply Qmult_le_l; assumption.
  - intros i s n Hs Hn Hmax. rewrite (Hlook _ _ _ Hs Hn). unfold normalizeScore.
    destruct (Qeq_bool (Math_max scaled) (Math_min scaled)) eqn:E; [reflexivity|].
    apply Qeq_bool_neq in E.
    assert (Hs' : c * s == Math_max scaled) by (rewrite Hmx, Hmax; reflexivity).
    rewrite Hs'. field. intros H. apply E. lra.
  - intros i s n Hs Hn Hne Hmin. rewrite (Hlook _ _ _ Hs Hn). unfold normalizeScore.
    destruct (Qeq_bool (Math_max scaled) (Math_min scaled)) eqn:E.
    + apply Qeq_bool_iff in E. contradiction.
    + assert (Hs' : c * s == Math_min scaled) by (rewrite Hmn, Hmin; reflexivity).
      rewrite Hs'. field. intros H. apply Hne. lra.
  - apply (normalizeBatch_scale_exact scores c Hc).
Qed.

Lemma normalizeBatch_scaling_witness :
  Forall inUnitInterval (normalizeBatch (map (Qmult (3 # 10)) [1; 2; 4]))
  /\ (forall n, normalizeBatch (map (Qmult (3 # 10)) [1; 2; 4]) !! 2%nat = Some n -> n == 1)
  /\ (forall n, normalizeBatch (map (Qmult (3 # 10)) [1; 2; 4]) !! 0%nat = Some n -> n == 0).
Proof.
  destruct (normalizeBatch_scaling [1; 2; 4] (3 # 10))
    as (_ & _ & Hunit & _ & Hmax & Hmin & _); [reflexivity|].
  split; [exact Hunit|]. split.
  - intros n Hn. apply (Hmax 2%nat 4 n); [reflexivity|exact Hn|reflexivity].
  - intros n Hn. apply (Hmin 0%nat 1 n); [reflexivity|exact Hn| |reflexivity].
    vm_compute. discriminate.
Defined.

(** C9 fails as stated.  In doubles the batch 1, 2, 4 is normalised to 0,
    0.3333333333333333, 1, and its multiple by 0.3 to 0,
    0.33333333333333337, 1.  And the two scores 0x1.7267082297620p-1 and
    0x1.7267082297621p-1, which are normalised to 0 and 1, have one
    product with 0.7, so that after the scaling the maximum is the
    minimum and both are normalised to 1. *)
Lemma normalizeBatch_scale_counterexample :
  (Binary64.normalizeBatch [1%float; 2%float; 4%float]
   = [0%float; 0x1.5555555555555p-2%float; 1%float]
   /\ Binary64.normalizeBatch [(0.3 * 1)%float; (0.3 * 2)%float; (0.3 * 4)%float]
      = [0%float; 0x1.5555555555556p-2%float; 1%float]
   /\ PrimFloat.eqb 0x1.5555555555555p-2 0x1.5555555555556p-2 = false)
  /\ (Binary64.normalizeBatch [0x1.7267082297620p-1%float; 0x1.7267082297621p-1%float]
      = [0%float; 1%float]
      /\ Binary64.normalizeBatch
           [(0.7 * 0x1.7267082297620p-1)%float; (0.7 * 0x1.7267082297621p-1)%float]
         = [1%float; 1%float]).
Proof.
  split; [split; [|split]|split]; vm_compute; reflexivity.
Qed.

(** ** Weight normalisation, continued *)

(** X9. Weights that are not negative normalise to weights between 0 and
    1, which are ordered as the supplied weights are. *)
Theorem normalizeWeights_range (config : RAGConfig) :
  let v := orDefault (vectorWeight config) (6 # 10) in
  let b := orDefault (bm25Weight config) (3 # 10) in
  let h := orDefault (hybridWeight config) (1 # 10) in
  0 <= v -> 0 <= b -> 0 <= h ->
  inUnitInterval (nVectorWeight (normalizeWeights config))
  /\ inUnitInterval (nBm25Weight (normalizeWeights config))
  /\ inUnitInterval (nHybridWeight (normalizeWeights config))
  /\ (v <= b -> nVectorWeight (normalizeWeights config) <= nBm25Weight (normalizeWeights config))
  /\ (b <= h -> nBm25Weight (normalizeWeights config) <= nHybridWeight (normalizeWeights config))
  /\ (v <= h -> nVectorWeight (normalizeWeights config) <= nHybridWeight (normalizeWeights config)).
Proof.
  intros v b h Hv Hb Hh.
  destruct (normalizeWeights_bounds config Hv Hb Hh) as (Wv & Wb & Wh & Ws).
  split; [unfold inUnitInterval; split; lra|].
  split; [unfold inUnitInterval; split; lra|].
  split; [unfold inUnitInterval; split; lra|].
  assert (Hpos : 0 < orIfZero (v + b + h) 1).
  { unfold orIfZero. destruct (Qeq_bool (v + b + h) 0) eqn:E; [reflexivity|].
    apply Qeq_bool_neq in E. destruct (Qlt_le_dec 0 (v + b + h)) as [H|H]; [assumption|].
    exfalso. apply E. lra. }
  assert (Hmono : forall x y, x <= y ->
            x / orIfZero (v + b + h) 1 <= y / orIfZero (v + b + h) 1).
  { intros x y Hxy. unfold Qdiv. apply Qmult_le_compat_r; [assumption|].
    apply Qlt_le_weak, Qinv_lt_0_compat, Hpos. }
  unfold normalizeWeights. cbn [nVectorWeight nBm25Weight nHybridWeight]. fold v b.
  change (orDefault (hybridWeight config) (orDefault (hybridWeight DEFAULT_CONFIG) 0)) with h.
  repeat split; apply Hmono.
Qed.

Lemma normalizeWeights_range_witness :
  inUnitInterval (nVectorWeight (normalizeWeights (mkConfig 3 1 0 6))).
Proof.
  apply (normalizeWeights_range (mkConfig 3 1 0 6)); vm_compute; discriminate.
Defined.

(** ** The search as a whole *)

(** X10. The block of the Pages-API version that recomputes the vector
    scores when [knnResults] is empty never finds a document to score:
    both versions of [performHybridSearch] return the same ranking for
    every collection, query and configuration. *)
Theorem performHybridSearch_versions_agree
    (Math_sqrt : Q -> Q) (collection : list Document) (queryEmbedding : list Q)
    (text : string) (config : NormalizedConfig) :
  Legacy.performHybridSearch Math_sqrt collection queryEmbedding text config
  = performHybridSearch Math_sqrt collection queryEmbedding text config
  /\ (fst (scanDocuments Math_sqrt queryEmbedding text collection) = [] ->
      Legacy.knnFallback Math_sqrt queryEmbedding
        (snd (scanDocuments Math_sqrt queryEmbedding text collection)) = []).
Proof.
  split; [apply Legacy_performHybridSearch_eq|].
  intros Hnil. assert (Hscan := scan_no_embedding Math_sqrt queryEmbedding text collection Hnil).
  unfold Legacy.knnFallback.
  induction Hscan as [|d txt Hd _ IH]; [reflexivity|]. simpl. rewrite Hd. exact IH.
Qed.

(** The scored documents of the two streams are usable documents of the
    collection with the scores the scan computes. *)
Lemma scanDocuments_elem Math_sqrt emb text docs :
  (forall d q, (d, q) ∈ fst (scanDocuments Math_sqrt emb text docs) ->
     d ∈ docs /\ usable d
     /\ exists e, embedding d = Some e /\ q = computeCosineSimilarity Math_sqrt emb e)
  /\ (forall d q, (d, q) ∈ snd (scanDocuments Math_sqrt emb text docs) ->
     d ∈ docs /\ usable d /\ q = textScore text (content d)).
Proof.
  unfold scanDocuments.
  assert (H : forall acc,
    (forall d q,
       (d, q) ∈ fst (fold_left (fun acc doc => scanDocument Math_sqrt emb text doc acc) docs acc) ->
       (d, q) ∈ fst acc
       \/ (d ∈ docs /\ usable d
           /\ exists e, embedding d = Some e /\ q = computeCosineSimilarity Math_sqrt emb e))
    /\ (forall d q,
       (d, q) ∈ snd (fold_left (fun acc doc => scanDocument Math_sqrt emb text doc acc) docs acc) ->
       (d, q) ∈ snd acc \/ (d ∈ docs /\ usable d /\ q = textScore text (content d)))).
  { induction docs as [|d0 docs IH]; intros acc; simpl; [split; intros; left; assumption|].
    destruct (IH (scanDocument Math_sqrt emb text d0 acc)) as [IH1 IH2]. clear IH.
    assert (Hstep :
      (forall d q, (d, q) ∈ fst (scanDocument Math_sqrt emb text d0 acc) ->
         (d, q) ∈ fst acc
         \/ (d = d0 /\ usable d
             /\ exists e, embedding d = Some e /\ q = computeCosineSimilarity Math_sqrt emb e))
      /\ (forall d q, (d, q) ∈ snd (scanDocument Math_sqrt emb text d0 acc) ->
         (d, q) ∈ snd acc \/ (d = d0 /\ usable d /\ q = textScore text (content d)))).
    { destruct acc as [knn txt]. unfold scanDocument.
      destruct (String.eqb (content d0) "") eqn:E; [split; intros; left; assumption|].
      apply String.eqb_neq in E. cbn [fst snd]. split; intros d q Hin.
      - destruct (embedding d0) as [e|] eqn:Ee; [|left; assumption].
        apply elem_of_app in Hin. destruct Hin as [Hin|Hin]; [left; assumption|].
        apply list_elem_of_singleton in Hin. injection Hin as -> ->. right.
        split; [reflexivity|]. split; [exact E|]. exists e. split; [exact Ee|reflexivity].
      - apply elem_of_app in Hin. destruct Hin as [Hin|Hin]; [left; assumption|].
        apply list_elem_of_singleton in Hin. injection Hin as -> ->. right.
        split; [reflexivity|]. split; [exact E|reflexivity]. }
    destruct Hstep as [S1 S2]. split; intros d q Hin.
    - destruct (IH1 d q Hin) as [Hacc|(Hd & Hu & He)].
      + destruct (S1 d q Hacc) as [Hacc'|(-> & Hu & He)]; [left; assumption|].
        right. split; [apply list_elem_of_here|]. split; assumption.
      + right. split; [apply list_elem_of_further, Hd|]. split; assumption.
    - destruct (IH2 d q Hin) as [Hacc|(Hd & Hu & He)].
      + destruct (S2 d q Hacc) as [Hacc'|(-> & Hu & He)]; [left; assumption|].
        right. split; [apply list_elem_of_here|]. split; assumption.
      + right. split; [apply list_elem_of_further, Hd|]. split; assumption. }
  destruct (H ([], [])) as [H1 H2]. split; intros d q Hin.
  - destruct (H1 d q Hin) as [Hnil|Hok]; [apply elem_of_nil in Hnil; contradiction|exact Hok].
  - destruct (H2 d q Hin) as [Hnil|Hok]; [apply elem_of_nil in Hnil; contradiction|exact Hok].
Qed.

Lemma story_content_setScore f q r :
  story_content (setScore f q r) = story_content r
  /\ story_metadata (setScore f q r) = story_metadata r.
Proof. destruct f; split; reflexivity. Qed.

(** The copied fields of an entry are those it had before the pass, or
    those of a document of the stream when the pass creates it. *)
Lemma fold_addToMap_source f stream : forall m id v,
  Map_get (fold_left (addToMap f) stream m) id = Some v ->
  (exists v0, Map_get m id = Some v0
     /\ story_content v = story_content v0 /\ story_metadata v = story_metadata v0)
  \/ (Map_get m id = None
      /\ exists doc q, (doc, q) ∈ stream /\ _id doc = id
         /\ story_content v = content doc /\ story_metadata v = metadata doc).
Proof.
  induction stream as [|[doc q] stream IH]; intros m id v Hv; simpl in Hv.
  - left. exists v. split; [assumption|]. split; reflexivity.
  - destruct (IH _ _ _ Hv) as [(v0 & Hv0 & Hc & Hm)|(Hnone & doc' & q' & Hin & Hid & Hc & Hm)].
    + unfold addToMap in Hv0. rewrite Map_get_set in Hv0.
      destruct (String.eqb (_id doc) id) eqn:E.
      * apply String.eqb_eq in E. injection Hv0 as <-.
        destruct (story_content_setScore f q
                    match Map_get m (_id doc) with Some e => e | None => freshStory doc end)
          as [Sc Sm].
        rewrite Sc in Hc. rewrite Sm in Hm. subst id.
        destruct (Map_get m (_id doc)) as [e|] eqn:Em.
        -- left. exists e. split; [reflexivity|]. split; assumption.
        -- right. split; [reflexivity|]. exists doc, q.
           split; [apply list_elem_of_here|]. split; [reflexivity|]. split; assumption.
      * left. exists v0. split; [assumption|]. split; assumption.
    + unfold addToMap in Hnone. rewrite Map_get_set in Hnone.
      destruct (String.eqb (_id doc) id) eqn:E; [discriminate|].
      right. split; [assumption|]. exists doc', q'.
      split; [apply list_elem_of_further, Hin|]. split; [assumption|]. split; assumption.
Qed.

Lemma Map_get_is_Some m id : id ∈ map fst m -> is_Some (Map_get m id).
Proof.
  induction m as [|[k w] r IH]; simpl; intros Hin; [apply elem_of_nil in Hin; contradiction|].
  destruct (String.eqb k id) eqn:E; [eauto|].
  apply String.eqb_neq in E. apply elem_of_cons in Hin.
  destruct Hin as [Hin|Hin]; [congruence|]. apply IH, Hin.
Qed.

(** With distinct document ids, every merged candidate carries one usable
    document of the collection. *)
Lemma mergeResults_describes Math_sqrt emb text docs c :
  NoDup (map _id docs) ->
  c ∈ mergeResults (fst (scanDocuments Math_sqrt emb text docs))
                   (snd (scanDocuments Math_sqrt emb text docs)) ->
  exists d, d ∈ docs /\ usable d /\ describes Math_sqrt emb text d c.
Proof.
  intros Hnd Hc.
  destruct (scanDocuments_elem Math_sqrt emb text docs) as [Hknn Htxt].
  destruct (scanDocuments_ids Math_sqrt emb text docs) as [Iknn Itxt].
  set (knn := fst (scanDocuments Math_sqrt emb text docs)) in *.
  set (txt := snd (scanDocuments Math_sqrt emb text docs)) in *.
  assert (Hids := mergeResults_ids knn txt).
  set (m1 := fold_left (addToMap vector_score_field) knn []).
  set (m2 := fold_left (addToMap bm25_score_field) txt m1).
  assert (Hk1 : keyed m1) by (apply fold_addToMap_keyed; constructor).
  assert (Hk2 : keyed m2) by (apply fold_addToMap_keyed; exact Hk1).
  assert (Hnd2 : NoDup (map fst m2)).
  { rewrite <- keyed_values by assumption. change (Map_values m2) with (mergeResults knn txt).
    rewrite Hids. apply NoDup_new_Set. }
  assert (Hget : Map_get m2 (story_id c) = Some c) by (apply elem_of_Map_values; assumption).
  assert (Hsub : forall id, id ∈ streamIds knn -> id ∈ streamIds txt).
  { intros id. rewrite Iknn, Itxt. intros Hin. apply list_elem_of_fmap in Hin.
    destruct Hin as (d & -> & Hd). apply list_elem_of_fmap. exists d. split; [reflexivity|].
    apply list_elem_of_filter in Hd. apply list_elem_of_filter. tauto. }
  assert (Hin : story_id c ∈ streamIds txt).
  { assert (H : story_id c ∈ map story_id (mergeResults knn txt)).
    { apply list_elem_of_fmap. exists c. split; [reflexivity|assumption]. }
    rewrite Hids, elem_of_new_Set, elem_of_app in H. destruct H as [H|H]; [apply Hsub, H|exact H]. }
  destruct (fold_addToMap_present bm25_score_field _ _ _ _ Hin Hget) as (d & q & Hd & Hid & Hq).
  destruct (Htxt d q Hd) as (Hdocs & Hu & ->).
  assert (Hsame : forall d', d' ∈ docs -> _id d' = story_id c -> d' = d).
  { intros d' Hd' Hid'. apply (NoDup_fmap_eq _id docs); [assumption..|congruence]. }
  exists d. split; [assumption|]. split; [assumption|].
  assert (Hother := fold_addToMap_other bm25_score_field _ _ _ _ Hget). fold m1 in Hother.
  simpl in Hother, Hq.
  unfold describes. split; [congruence|].
  assert (Hcopy : story_content c = content d /\ story_metadata c = metadata d).
  { destruct (fold_addToMap_source bm25_score_field _ _ _ _ Hget)
      as [(v0 & Hv0 & Hcc & Hcm)|(_ & d' & q' & Hd' & Hid' & Hcc & Hcm)].
    - fold m1 in Hv0.
      destruct (fold_addToMap_source vector_score_field _ _ _ _ Hv0)
        as [(v1 & Hv1 & _)|(_ & d' & q' & Hd' & Hid' & Hcc' & Hcm')]; [discriminate|].
      destruct (Hknn d' q' Hd') as (Hdocs' & _). rewrite (Hsame d' Hdocs' Hid') in *.
      split; congruence.
    - destruct (Htxt d' q' Hd') as (Hdocs' & _). rewrite (Hsame d' Hdocs' Hid') in *.
      split; assumption. }
  destruct Hcopy as [Hcc Hcm]. split; [assumption|]. split; [assumption|]. split; [|assumption].
  unfold rawVectorScore. destruct (embedding d) as [e|] eqn:Ee.
  - assert (Hink : story_id c ∈ streamIds knn).
    { rewrite Iknn, <- Hid. apply list_elem_of_fmap. exists d. split; [reflexivity|].
      apply list_elem_of_filter. split; [|assumption]. split; [exact Hu|]. rewrite Ee. eauto. }
    assert (Hsome : is_Some (Map_get m1 (story_id c))).
    { apply Map_get_is_Some. unfold m1. rewrite fold_addToMap_keys. simpl.
      apply elem_of_new_Set. exact Hink. }
    destruct Hsome as [v0 Hv0]. rewrite Hv0 in Hother.
    destruct (fold_addToMap_present vector_score_field _ _ _ _ Hink Hv0)
      as (d' & q' & Hd' & Hid' & Hq').
    destruct (Hknn d' q' Hd') as (Hdocs' & _ & e' & He' & ->).
    rewrite (Hsame d' Hdocs' Hid') in He'. simpl in Hq'. congruence.
  - assert (Hout : story_id c ∉ streamIds knn).
    { rewrite Iknn. intros H. apply list_elem_of_fmap in H. destruct H as (d' & Hid' & Hd').
      apply list_elem_of_filter in Hd'. destruct Hd' as [[_ He'] Hdocs'].
      rewrite (Hsame d' Hdocs' (eq_sym Hid')) in He'. rewrite Ee in He'.
      destruct He' as [? ?]. discriminate. }
    unfold m1 in Hother. rewrite fold_addToMap_absent in Hother by assumption. exact Hother.
Qed.

Lemma normalizeResults_source config merged c :
  c ∈ normalizeResults config merged ->
  exists r, r ∈ merged /\ story_id c = story_id r /\ story_content c = story_content r
    /\ story_metadata c = story_metadata r
    /\ vector_score c = vector_score r /\ bm25_score c = bm25_score r.
Proof.
  unfold normalizeResults. intros H. apply list_elem_of_fmap in H.
  destruct H as (r & -> & Hr). exists r. repeat split; try reflexivity. exact Hr.
Qed.

Lemma performHybridSearch_elem Math_sqrt docs emb text config c :
  docs <> [] ->
  c ∈ performHybridSearch Math_sqrt docs emb text config ->
  c ∈ normalizeResults config
        (mergeResults (fst (scanDocuments Math_sqrt emb text docs))
                      (snd (scanDocuments Math_sqrt emb text docs))).
Proof.
  intros Hne Hc. rewrite <- (Array_sort_perm byHybridScoreDesc).
  eapply elem_of_sublist; [exact Hc|]. apply performHybridSearch_sublist, Hne.
Qed.

(** X11. On a collection of documents with distinct ids, every story of
    the ranking carries one usable document of the collection: its id,
    its content, its copied fields, the cosine of its embedding with the
    query's as [vector_score] (0 without embedding) and its lexical score
    as [bm25_score]; and no two stories of the ranking share an id. *)
Theorem performHybridSearch_provenance
    (Math_sqrt : Q -> Q) (collection : list Document) (queryEmbedding : list Q)
    (text : string) (config : NormalizedConfig) :
  collection <> [] -> NoDup (map _id collection) ->
  NoDup (map story_id (performHybridSearch Math_sqrt collection queryEmbedding text config))
  /\ forall c, c ∈ performHybridSearch Math_sqrt collection queryEmbedding text config ->
       exists d, d ∈ collection /\ usable d /\ describes Math_sqrt queryEmbedding text d c.
Proof.
  intros Hne Hnd. split.
  - eapply sublist_NoDup;
      [|apply (fmap_sublist story_id), performHybridSearch_sublist, Hne].
    rewrite (Array_sort_perm byHybridScoreDesc), normalizeResults_ids, mergeResults_ids.
    apply NoDup_new_Set.
  - intros c Hc. apply performHybridSearch_elem in Hc; [|exact Hne].
    destruct (normalizeResults_source _ _ _ Hc) as (r & Hr & E1 & E2 & E3 & E4 & E5).
    destruct (mergeResults_describes _ _ _ _ _ Hnd Hr) as (d & Hd & Hu & D1 & D2 & D3 & D4 & D5).
    exists d. split; [assumption|]. split; [assumption|].
    unfold describes. repeat split; congruence.
Qed.

Lemma performHybridSearch_provenance_witness :
  exists d, d ∈ tieCollection /\ usable d
    /\ describes sqrtOnSquares [1; 0] "reset my password" d
         (hd placeholderStory
            (performHybridSearch sqrtOnSquares tieCollection [1; 0] "reset my password"
               (normalizeWeights DEFAULT_CONFIG))).
Proof.
  assert (Hne : tieCollection <> []) by discriminate.
  assert (Hnd : NoDup (map _id tieCollection)).
  { apply (bool_decide_unpack _). vm_compute. exact I. }
  destruct (performHybridSearch_provenance sqrtOnSquares tieCollection [1; 0]
              "reset my password" (normalizeWeights DEFAULT_CONFIG) Hne Hnd) as [_ H].
  apply H. vm_compute. apply list_elem_of_here.
Defined.

Lemma filter_split_perm {A} (P R : A -> Prop) `{forall x, Decision (P x)}
    `{forall x, Decision (R x)} `{forall x, Decision (P x /\ R x)}
    `{forall x, Decision (P x /\ ~ R x)} (l : list A) :
  filter (fun x => P x /\ R x) l ++ filter (fun x => P x /\ ~ R x) l ≡ₚ filter P l.
Proof.
  induction l as [|x l IH]; [reflexivity|].
  rewrite !filter_cons.
  destruct (decide (P x)) as [HP|HP].
  - destruct (decide (R x)) as [HR|HR].
    + destruct (decide (P x /\ R x)); [|tauto]. destruct (decide (P x /\ ~ R x)); [tauto|].
      simpl. f_equiv. exact IH.
    + destruct (decide (P x /\ R x)); [tauto|]. destruct (decide (P x /\ ~ R x)); [|tauto].
      rewrite <- Permutation_middle. f_equiv. exact IH.
  - destruct (decide (P x /\ R x)); [tauto|]. destruct (decide (P x /\ ~ R x)); [tauto|].
    exact IH.
Qed.

(** With distinct document ids the merged candidates are the usable
    documents, one each. *)
Lemma merged_usable Math_sqrt emb text docs :
  NoDup (map _id docs) ->
  map story_id (mergeResults (fst (scanDocuments Math_sqrt emb text docs))
                             (snd (scanDocuments Math_sqrt emb text docs)))
  ≡ₚ map _id (filter usable docs).
Proof.
  intros Hnd. rewrite merged_order by assumption. rewrite <- map_app.
  apply Permutation_map.
  rewrite <- (filter_split_perm (fun d => content d <> "") (fun d => is_Some (embedding d))).
  f_equiv.
  assert (E : filter (fun d => content d <> "" /\ embedding d = None) docs
              = filter (fun d => content d <> "" /\ ~ is_Some (embedding d)) docs).
  { apply filter_ext_in. intros d _. split; intros [Hc He]; (split; [assumption|]).
    - rewrite He. intros [? ?]. discriminate.
    - destruct (embedding d); [exfalso; apply He; eauto|reflexivity]. }
  rewrite E. reflexivity.
Qed.

Lemma slice0_same_length {A B} (l : list A) (l' : list B) k :
  List.length l = List.length l' ->
  List.length (slice0 l k) = List.length (slice0 l' k).
Proof.
  intros Hlen. unfold slice0. destruct k as [k|]; [|assumption].
  destruct (k <? 0)%Z; rewrite !length_take, Hlen; reflexivity.
Qed.

Lemma slice0_all {A} (l : list A) k :
  (forall n, k = Some n -> (Z.of_nat (List.length l) <= n)%Z) -> slice0 l k = l.
Proof.
  intros Hk. unfold slice0. destruct k as [n|]; [|reflexivity].
  specialize (Hk n eq_refl). destruct (n <? 0)%Z eqn:E; [lia|]. apply take_ge. lia.
Qed.

(** With distinct document ids, the ranking before truncation is a
    rearrangement of the normalised candidates. *)
Lemma performHybridSearch_unsliced Math_sqrt docs emb text config :
  docs <> [] -> NoDup (map _id docs) ->
  exists full,
    performHybridSearch Math_sqrt docs emb text config = slice0 full (nTopK config)
    /\ map story_id full ≡ₚ map _id (filter usable docs).
Proof.
  intros Hne Hnd. assert (Hm := merged_usable Math_sqrt emb text docs Hnd).
  unfold performHybridSearch. destruct docs as [|d0 docs]; [contradiction|].
  cbn [List.length Nat.eqb].
  destruct (scanDocuments Math_sqrt emb text (d0 :: docs)) as [knn txt]. cbn [fst snd] in Hm.
  unfold fuseAndRank. destruct (mergeResults knn txt) as [|m0 ms] eqn:Em.
  - exists []. split; [destruct (nTopK config) as [k|]; [|reflexivity];
                       unfold slice0; destruct (k <? 0)%Z; rewrite take_nil; reflexivity|].
    exact Hm.
  - exists (Array_sort byHybridScoreDesc (normalizeResults config (m0 :: ms))).
    assert (Hperm : map story_id (Array_sort byHybridScoreDesc (normalizeResults config (m0 :: ms)))
                    ≡ₚ map _id (filter usable (d0 :: docs))).
    { rewrite (Array_sort_perm byHybridScoreDesc), normalizeResults_ids. exact Hm. }
    split; [|exact Hperm].
    rewrite rankAndDeduplicate_keepFirst, keepFirstById_id; [reflexivity|].
    simpl app. rewrite Hperm. eapply sublist_NoDup; [exact Hnd|].
    apply (fmap_sublist _id), sublist_filter.
Qed.

(** X12. On a collection of documents with distinct ids the ranking is
    as long as the first [topK] usable documents are ([slice(0, topK)]
    of them), and when [topK] is absent or not below the number of usable
    documents the ranking holds every usable document exactly once. *)
Theorem performHybridSearch_complete
    (Math_sqrt : Q -> Q) (collection : list Document) (queryEmbedding : list Q)
    (text : string) (config : NormalizedConfig) :
  collection <> [] -> NoDup (map _id collection) ->
  List.length (performHybridSearch Math_sqrt collection queryEmbedding text config)
  = List.length (slice0 (filter usable collection) (nTopK config))
  /\ ((forall k, nTopK config = Some k ->
         (Z.of_nat (List.length (filter usable collection)) <= k)%Z) ->
      map story_id (performHybridSearch Math_sqrt collection queryEmbedding text config)
      ≡ₚ map _id (filter usable collection)).
Proof.
  intros Hne Hnd.
  destruct (performHybridSearch_unsliced Math_sqrt collection queryEmbedding text config Hne Hnd)
    as (full & -> & Hperm).
  assert (Hlen : List.length full = List.length (filter usable collection)).
  { rewrite <- (length_map story_id), Hperm, length_map. reflexivity. }
  split; [apply slice0_same_length, Hlen|].
  intros Hk. rewrite slice0_all; [exact Hperm|].
  intros n Hn. rewrite Hlen. apply Hk, Hn.
Qed.

Lemma performHybridSearch_complete_witness :
  List.length (performHybridSearch sqrtOnSquares tieCollection [1; 0] "reset my password"
                 (normalizeWeights (mkConfig (6 # 10) (3 # 10) (1 # 10) 1)))
  = 1%nat.
Proof.
  assert (Hne : tieCollection <> []) by discriminate.
  assert (Hnd : NoDup (map _id tieCollection)).
  { apply (bool_decide_unpack _). vm_compute. exact I. }
  destruct (performHybridSearch_complete sqrtOnSquares tieCollection [1; 0]
              "reset my password" (normalizeWeights (mkConfig (6 # 10) (3 # 10) (1 # 10) 1))
              Hne Hnd) as [H _].
  rewrite H. reflexivity.
Defined.

(** ** Degenerate score batches *)

Lemma fold_min2_elem l : forall a, fold_left min2 l a ∈ a :: l.
Proof.
  induction l as [|y l IH]; intros a; simpl; [apply list_elem_of_here|].
  specialize (IH (min2 a y)). apply elem_of_cons in IH. destruct IH as [IH|IH].
  - rewrite IH. unfold min2. destruct (Qle_bool a y);
      [apply list_elem_of_here|apply list_elem_of_further, list_elem_of_here].
  - do 2 apply list_elem_of_further. exact IH.
Qed.

Lemma fold_max2_elem l : forall a, fold_left max2 l a ∈ a :: l.
Proof.
  induction l as [|y l IH]; intros a; simpl; [apply list_elem_of_here|].
  specialize (IH (max2 a y)). apply elem_of_cons in IH. destruct IH as [IH|IH].
  - rewrite IH. unfold max2. destruct (Qle_bool a y);
      [apply list_elem_of_further, list_elem_of_here|apply list_elem_of_here].
  - do 2 apply list_elem_of_further. exact IH.
Qed.

(** The minimum and the maximum of a batch are scores of the batch. *)
Lemma Math_min_max_elem l : l <> [] -> Math_min l ∈ l /\ Math_max l ∈ l.
Proof.
  destruct l as [|a l]; [contradiction|]. intros _. simpl.
  split; [apply fold_min2_elem|apply fold_max2_elem].
Qed.

(** A batch of equal scores is normalised to 1 throughout. *)
Lemma normalizeScore_uniform (l : list Q) (s x : Q) :
  l <> [] -> (forall y, y ∈ l -> y == s) ->
  normalizeScore x (Math_min l) (Math_max l) = 1.
Proof.
  intros Hne Hall. destruct (Math_min_max_elem l Hne) as [Hmin Hmax].
  unfold normalizeScore. rewrite (proj2 (Qeq_bool_iff _ _)); [reflexivity|].
  rewrite (Hall _ Hmin), (Hall _ Hmax). reflexivity.
Qed.

Lemma mergeResults_get knn txt c :
  c ∈ mergeResults knn txt ->
  Map_get (fold_left (addToMap bm25_score_field) txt
             (fold_left (addToMap vector_score_field) knn [])) (story_id c) = Some c.
Proof.
  intros Hc.
  set (m1 := fold_left (addToMap vector_score_field) knn []).
  set (m2 := fold_left (addToMap bm25_score_field) txt m1).
  assert (Hk2 : keyed m2) by (apply fold_addToMap_keyed, fold_addToMap_keyed; constructor).
  apply elem_of_Map_values; [exact Hc|exact Hk2|].
  rewrite <- keyed_values by assumption. change (Map_values m2) with (mergeResults knn txt).
  rewrite mergeResults_ids. apply NoDup_new_Set.
Qed.

(** X13. Where no usable document has an embedding the vector signal
    does not vanish from the ranking: every story has the raw vector
    score 0 and the normalised vector score 1, so the whole vector weight
    enters its fused score. *)
Theorem performHybridSearch_no_embeddings
    (Math_sqrt : Q -> Q) (collection : list Document) (queryEmbedding : list Q)
    (text : string) (config : NormalizedConfig) :
  collection <> [] ->
  (forall d, d ∈ collection -> usable d -> embedding d = None) ->
  forall c, c ∈ performHybridSearch Math_sqrt collection queryEmbedding text config ->
    vector_score c = 0 /\ vector_score_norm c = 1
    /\ hybrid_score c == nVectorWeight config + bm25_score_norm c * nBm25Weight config.
Proof.
  intros Hne Hnone c Hc. apply performHybridSearch_elem in Hc; [|exact Hne].
  destruct (scanDocuments_elem Math_sqrt queryEmbedding text collection) as [Hknn _].
  destruct (scanDocuments Math_sqrt queryEmbedding text collection) as [knn txt].
  cbn [fst snd] in *.
  assert (Eknn : knn = []).
  { destruct knn as [|[d q] knn]; [reflexivity|]. exfalso.
    destruct (Hknn d q (list_elem_of_here _ _)) as (Hd & Hu & e & He & _).
    rewrite (Hnone d Hd Hu) in He. discriminate. }
  subst knn.
  assert (Hzero : forall r, r ∈ mergeResults [] txt -> vector_score r = 0).
  { intros r Hr. apply mergeResults_get in Hr.
    exact (fold_addToMap_other bm25_score_field _ _ _ _ Hr). }
  assert (Hhyb := normalizeResults_elem _ _ _ Hc).
  unfold normalizeResults in Hc. apply list_elem_of_fmap in Hc. destruct Hc as (r & Hcr & Hr).
  assert (Hnorm : vector_score_norm c = 1).
  { rewrite Hcr. cbn [normalizeResult vector_score_norm].
    apply (normalizeScore_uniform _ 0).
    - intros E. apply (f_equal (@List.length Q)) in E. rewrite length_map in E.
      destruct (mergeResults [] txt); [apply elem_of_nil in Hr; contradiction|discriminate].
    - intros y Hy. apply list_elem_of_fmap in Hy. destruct Hy as (r' & -> & Hr').
      rewrite (Hzero r' Hr'). reflexivity. }
  split; [rewrite Hcr; cbn [normalizeResult vector_score]; apply Hzero, Hr|].
  split; [exact Hnorm|]. rewrite Hhyb, Hnorm. ring.
Qed.

Lemma performHybridSearch_no_embeddings_witness :
  vector_score_norm
    (hd placeholderStory
        (performHybridSearch sqrtOnSquares [mkDoc "a" "reset my password" None] [1; 0]
           "reset my password" (normalizeWeights DEFAULT_CONFIG))) = 1.
Proof.
  assert (Hne : [mkDoc "a" "reset my password" None] <> []) by discriminate.
  assert (Hnone : forall d, d ∈ [mkDoc "a" "reset my password" None] -> usable d ->
                    embedding d = None).
  { intros d Hd _. apply list_elem_of_singleton in Hd. subst d. reflexivity. }
  apply (performHybridSearch_no_embeddings sqrtOnSquares _ [1; 0] "reset my password"
           (normalizeWeights DEFAULT_CONFIG) Hne Hnone).
  vm_compute. apply list_elem_of_here.
Defined.

(** Documents without content leave no trace in the scan. *)
Lemma scanDocuments_usable Math_sqrt emb text docs :
  scanDocuments Math_sqrt emb text docs
  = scanDocuments Math_sqrt emb text (filter usable docs).
Proof.
  unfold scanDocuments. generalize (@nil (Document * Q), @nil (Document * Q)).
  induction docs as [|d docs IH]; intros acc; [reflexivity|].
  rewrite filter_cons. destruct (decide (usable d)) as [Hu|Hu]; simpl.
  - apply IH.
  - rewrite <- IH. f_equal. unfold scanDocument. destruct acc as [knn txt].
    destruct (String.eqb (content d) "") eqn:E; [reflexivity|].
    apply String.eqb_neq in E. contradiction.
Qed.

(** X14. A collection with exactly one usable document gives a ranking
    of that document alone, unless [topK] cuts it off; both its
    normalised scores are 1, whatever the raw scores are, so its fused
    score is the sum of the vector and the lexical weight. *)
Theorem performHybridSearch_single_candidate
    (Math_sqrt : Q -> Q) (collection : list Document) (queryEmbedding : list Q)
    (text : string) (config : NormalizedConfig) (d : Document) :
  filter usable collection = [d] ->
  (forall k, nTopK config = Some k -> (1 <= k)%Z) ->
  exists c,
    performHybridSearch Math_sqrt collection queryEmbedding text config = [c]
    /\ describes Math_sqrt queryEmbedding text d c
    /\ vector_score_norm c = 1 /\ bm25_score_norm c = 1
    /\ hybrid_score c == nVectorWeight config + nBm25Weight config.
Proof.
  intros Hone Hk.
  assert (Hu : usable d).
  { assert (H : d ∈ filter usable collection) by (rewrite Hone; apply list_elem_of_here).
    apply list_elem_of_filter in H. tauto. }
  unfold performHybridSearch. destruct collection as [|d0 docs]; [discriminate|].
  cbn [List.length Nat.eqb]. rewrite scanDocuments_usable, Hone.
  unfold scanDocuments. cbn [fold_left]. unfold scanDocument.
  rewrite (proj2 (String.eqb_neq _ _) Hu).
  set (c0 := {| story_id := _id d; story_content := content d; story_metadata := metadata d;
                vector_score := rawVectorScore Math_sqrt queryEmbedding d;
                bm25_score := textScore text (content d);
                vector_score_norm := 0; bm25_score_norm := 0; hybrid_score := 0 |}).
  assert (Hm : mergeResults
                 match embedding d with
                 | Some e => [] ++ [(d, computeCosineSimilarity Math_sqrt queryEmbedding e)]
                 | None => []
                 end ([] ++ [(d, textScore text (content d))]) = [c0]).
  { unfold mergeResults, c0, rawVectorScore. destruct (embedding d) as [e|]; simpl.
    - rewrite String.eqb_refl. reflexivity.
    - reflexivity. }
  rewrite Hm. unfold fuseAndRank.
  assert (Hn : forall x, normalizeScore x x x = 1).
  { intros x. unfold normalizeScore. rewrite (proj2 (Qeq_bool_iff _ _)); reflexivity. }
  unfold normalizeResults. cbn [map Math_min Math_max fold_left]. unfold normalizeResult.
  rewrite !Hn. rewrite rankAndDeduplicate_keepFirst.
  cbn [Array_sort foldr sort_insert keepFirstById].
  rewrite bool_decide_eq_false_2 by apply not_elem_of_nil. cbn [keepFirstById].
  eexists. split.
  - rewrite slice0_all; [reflexivity|]. intros n Hn'. apply Hk in Hn'. simpl. lia.
  - split; [repeat split|]. cbn. repeat split; try reflexivity. ring.
Qed.

Lemma performHybridSearch_single_candidate_witness :
  exists c,
    performHybridSearch sqrtOnSquares (mkDoc "z" "" None :: oneStory) [0; 1]
      "log in" (normalizeWeights DEFAULT_CONFIG) = [c]
    /\ describes sqrtOnSquares [0; 1] "log in" (mkDoc "a" "reset my password" (Some [1; 0])) c
    /\ vector_score_norm c = 1 /\ bm25_score_norm c = 1
    /\ hybrid_score c == nVectorWeight (normalizeWeights DEFAULT_CONFIG)
                         + nBm25Weight (normalizeWeights DEFAULT_CONFIG).
Proof.
  apply (performHybridSearch_single_candidate sqrtOnSquares (mkDoc "z" "" None :: oneStory)
           [0; 1] "log in" (normalizeWeights DEFAULT_CONFIG)).
  - reflexivity.
  - intros k Hk. vm_compute in Hk. injection Hk as <-. lia.
Defined.

(** ** Semantic re-ranker, continued *)

(** ** The re-ranker on scores that need not be finite *)

(** *** Sorting with any comparator *)

Section SortingBy.

Context {A : Type} (cmp : A -> A -> Q) (R : A -> A -> Prop).

Hypothesis R_first : forall x y, Qle_bool (cmp x y) 0 = true -> R x y.
Hypothesis R_behind : forall x y, Qle_bool (cmp x y) 0 = false -> R y x.
Hypothesis R_trans : forall x y z, R x y -> R y z -> R x z.

Lemma sort_insert_sorted_by x l :
  StronglySorted R l -> StronglySorted R (sort_insert cmp x l).
Proof.
  induction 1 as [|y r Hr IH Hy]; simpl.
  - constructor; constructor.
  - destruct (Qle_bool (cmp x y) 0) eqn:E.
    + constructor; [constructor; assumption|].
      constructor; [apply R_first, E|].
      eapply Forall_impl; [exact Hy|]. intros z Hz. simpl in Hz.
      eapply R_trans; [apply R_first, E|exact Hz].
    + constructor; [assumption|].
      rewrite sort_insert_perm. constructor; [apply R_behind, E|assumption].
Qed.

Lemma Array_sort_sorted_by l : StronglySorted R (Array_sort cmp l).
Proof.
  induction l as [|x r IH]; simpl; [constructor|]. apply sort_insert_sorted_by, IH.
Qed.

End SortingBy.

Lemma sort_insert_precedes_by {A} (cmp : A -> A -> Q) x y a l :
  precedes x y (sort_insert cmp a l) ->
  precedes x y (a :: l) \/ (y = a /\ x ∈ l /\ Qle_bool (cmp a x) 0 = false).
Proof.
  induction l as [|b r IH]; simpl; [left; assumption|].
  destruct (Qle_bool (cmp a b) 0) eqn:E; [left; assumption|].
  rewrite precedes_cons. intros [[-> Hy]|H].
  - rewrite sort_insert_perm in Hy. apply elem_of_cons in Hy. destruct Hy as [->|Hy].
    + right. split; [reflexivity|]. split; [apply list_elem_of_here|assumption].
    + left. apply precedes_cons. right. apply precedes_cons. left. split; [reflexivity|assumption].
  - destruct (IH H) as [H'|(-> & Hx & Hk)].
    + left. apply precedes_cons in H'. apply precedes_cons.
      destruct H' as [[-> Hy]|H'].
      * left. split; [reflexivity|]. apply list_elem_of_further, Hy.
      * right. apply precedes_cons. right. assumption.
    + right. split; [reflexivity|]. split; [apply list_elem_of_further, Hx|assumption].
Qed.

(** The sort is stable for any comparator: two elements of which the
    second need not go behind the first, and which stand in some order in
    the output, stood in that order in the input. *)
Lemma Array_sort_stable_by {A} (cmp : A -> A -> Q) x y l :
  precedes x y (Array_sort cmp l) -> Qle_bool (cmp y x) 0 = true -> precedes x y l.
Proof.
  intros H Hyx. induction l as [|a r IH]; simpl in H; [assumption|].
  apply sort_insert_precedes_by in H. destruct H as [H|(-> & _ & Hf)]; [|congruence].
  apply precedes_cons in H. apply precedes_cons. destruct H as [[-> Hy]|H].
  - left. split; [reflexivity|]. rewrite Array_sort_perm in Hy. assumption.
  - right. apply IH, H.
Qed.

Lemma Array_sort_of_sorted_by {A} (cmp : A -> A -> Q) (R : A -> A -> Prop) l :
  (forall x y, R x y -> Qle_bool (cmp x y) 0 = true) ->
  StronglySorted R l -> Array_sort cmp l = l.
Proof.
  intros HR. induction 1 as [|x r Hr IH Hx]; simpl; [reflexivity|].
  rewrite IH. destruct r as [|y r']; simpl; [reflexivity|].
  apply Forall_cons in Hx. destruct Hx as [Hxy _]. rewrite (HR _ _ Hxy). reflexivity.
Qed.

(** Two comparators that agree on the test of the sort, along a map,
    sort alike. *)
Lemma Array_sort_map {A B} (cmp : A -> A -> Q) (cmp' : B -> B -> Q) (f : A -> B) l :
  (forall x y, Qle_bool (cmp' (f x) (f y)) 0 = Qle_bool (cmp x y) 0) ->
  Array_sort cmp' (map f l) = map f (Array_sort cmp l).
Proof.
  intros Hagree. induction l as [|x r IH]; simpl; [reflexivity|].
  rewrite IH. generalize (Array_sort cmp r). intros l.
  induction l as [|y l IHl]; simpl; [reflexivity|].
  rewrite Hagree. destruct (Qle_bool (cmp x y) 0); simpl; [reflexivity|].
  rewrite IHl. reflexivity.
Qed.

Lemma StronglySorted_imap_rel {A B} (R : A -> A -> Prop) (R' : B -> B -> Prop) l :
  forall f : nat -> A -> B,
    (forall i j c d, c ∈ l -> d ∈ l -> R c d -> R' (f i c) (f j d)) ->
    StronglySorted R l -> StronglySorted R' (imap f l).
Proof.
  induction l as [|x l IH]; intros f Hf Hs; [constructor|].
  apply StronglySorted_inv in Hs. destruct Hs as [Hs Hx]. cbn [imap]. constructor.
  - apply IH; [|exact Hs]. intros i j c d Hc Hd.
    apply Hf; apply list_elem_of_further; assumption.
  - apply Forall_forall. intros e He. apply elem_of_lookup_imap in He.
    destruct He as (i & c & -> & Hc). apply list_elem_of_lookup_2 in Hc.
    rewrite Forall_forall in Hx. simpl. apply Hf.
    + apply list_elem_of_here.
    + apply list_elem_of_further, Hc.
    + apply Hx, Hc.
Qed.

(** *** The order of the re-ranked stories *)

(** The key is never NaN. *)
Lemma sortKey_cases e :
  (exists q, sortKey e = Extended.Finite q)
  \/ sortKey e = Extended.PlusInfinity \/ sortKey e = Extended.MinusInfinity.
Proof.
  unfold sortKey. destruct (Extended.hybrid_score_final e); simpl; eauto.
Qed.

(** The test of the sort: [a] stays in front of [b] when the key of [b]
    is not above the key of [a]. *)
Lemma byFinalScoreDesc_test a b :
  Qle_bool (Extended.comparatorSign (Extended.byFinalScoreDesc a b)) 0 = true
  <-> rankedBefore a b.
Proof.
  unfold rankedBefore, Extended.byFinalScoreDesc. fold (sortKey a). fold (sortKey b).
  destruct (sortKey_cases a) as [[qa ->]|[->| ->]],
           (sortKey_cases b) as [[qb ->]|[->| ->]]; simpl;
    (split; intros H;
     first [ exact I | reflexivity | discriminate H | contradiction
           | (apply Qle_bool_iff in H; lra) | (apply Qle_bool_iff; lra) ]).
Qed.

Lemma rankedBefore_total a b : rankedBefore a b \/ rankedBefore b a.
Proof.
  unfold rankedBefore.
  destruct (sortKey_cases a) as [[qa ->]|[->| ->]],
           (sortKey_cases b) as [[qb ->]|[->| ->]]; simpl; try tauto.
  destruct (Qlt_le_dec qa qb); [right; lra|left; assumption].
Qed.

Lemma rankedBefore_trans a b c : rankedBefore a b -> rankedBefore b c -> rankedBefore a c.
Proof.
  unfold rankedBefore.
  destruct (sortKey_cases a) as [[qa ->]|[->| ->]],
           (sortKey_cases b) as [[qb ->]|[->| ->]],
           (sortKey_cases c) as [[qc ->]|[->| ->]]; simpl; try tauto.
  intros; lra.
Qed.

Section ExtendedReranker.

Variable mistral_chat : nat -> string -> string -> ChatOutcome.
Variable JSON_parse : string -> option Extended.JudgeJson.

Lemma Extended_enhanceWithLLM_perm candidates query config :
  Extended.enhanceWithLLM mistral_chat JSON_parse candidates query config
  ≡ₚ imap (Extended.enhanceCandidate mistral_chat JSON_parse query config) candidates.
Proof. unfold Extended.enhanceWithLLM. apply Array_sort_perm. Qed.

Lemma Extended_base_enhanceCandidate query config i c :
  Extended.base (Extended.enhanceCandidate mistral_chat JSON_parse query config i c) = c.
Proof.
  unfold Extended.enhanceCandidate. destruct (mistral_chat _ _ _); [reflexivity|].
  destruct (Extended.parseJudgeContent _ _). reflexivity.
Qed.

(** A judge with finite scores is read as a finite score. *)
Lemma Extended_parseJudgeContent_finite content :
  finiteJudge JSON_parse ->
  exists q, fst (Extended.parseJudgeContent JSON_parse content) = Extended.Finite q.
Proof.
  intros Hfin. unfold Extended.parseJudgeContent.
  destruct (exec false jsonRegex content) as [[|m ms]|]; simpl; eauto.
  destruct (JSON_parse m) as [parsed|] eqn:Ep; simpl; eauto.
  specialize (Hfin m parsed Ep). unfold isInfinite in Hfin.
  destruct (Extended.json_llm_score parsed); simpl; eauto; exfalso; apply Hfin; auto.
Qed.

End ExtendedReranker.

(** On a judge whose scores are finite the two re-rankers agree. *)
Lemma Extended_enhanceWithLLM_finite
    (mistral_chat : nat -> string -> string -> ChatOutcome)
    (JSON_parse : string -> option JudgeJson)
    (candidates : list RankedStory) (query : string) (config : NormalizedConfig) :
  Extended.enhanceWithLLM mistral_chat (fun s => option_map ofFiniteJson (JSON_parse s))
    candidates query config
  = map ofFiniteStory (enhanceWithLLM mistral_chat JSON_parse candidates query config).
Proof.
  unfold Extended.enhanceWithLLM, enhanceWithLLM.
  assert (Hparse : forall content,
    Extended.parseJudgeContent (fun s => option_map ofFiniteJson (JSON_parse s)) content
    = (Extended.Finite (fst (parseJudgeContent JSON_parse content)),
       snd (parseJudgeContent JSON_parse content))).
  { intros content. unfold Extended.parseJudgeContent, parseJudgeContent.
    destruct (exec false jsonRegex content) as [[|m ms]|]; try reflexivity.
    destruct (JSON_parse m) as [parsed|]; [|reflexivity]. simpl.
    destruct (json_llm_score parsed); reflexivity. }
  assert (Hcand : forall i c,
    Extended.enhanceCandidate mistral_chat (fun s => option_map ofFiniteJson (JSON_parse s))
      query config i c
    = ofFiniteStory (enhanceCandidate mistral_chat JSON_parse query config i c)).
  { intros i c. unfold Extended.enhanceCandidate, enhanceCandidate.
    destruct (mistral_chat i query (sliceTo 400 (story_content c))) as [|content];
      [reflexivity|].
    rewrite Hparse. destruct (parseJudgeContent JSON_parse content). reflexivity. }
  assert (Himap : imap (Extended.enhanceCandidate mistral_chat
                          (fun s => option_map ofFiniteJson (JSON_parse s)) query config)
                       candidates
                  = map ofFiniteStory
                      (imap (enhanceCandidate mistral_chat JSON_parse query config)
                            candidates)).
  { apply list_eq. intros i. rewrite list_lookup_fmap, !list_lookup_imap.
    destruct (candidates !! i); simpl; [|reflexivity]. rewrite Hcand. reflexivity. }
  rewrite Himap. apply Array_sort_map. intros x y. reflexivity.
Qed.

(** X15. Whatever the judge replies, finite scores or not, the re-ranked
    list holds the enhanced form of every candidate, once; it is in
    descending order of [hybrid_score_final || 0], the key of its
    comparator; and the sort is stable: two stories of which the first
    does not have the higher key stand as their candidates stand in the
    provisional ranking.  A story whose chat call threw has no evidence,
    the score 0 and its provisional score as final score; every other
    story has the first 400 characters of its content as evidence and, as
    final score, the sum of its two weighted normalised scores and the
    weighted score of the judge, added in that order: a finite number for
    a finite score, and NaN, which sorts as 0, for an infinite score with
    the hybrid weight 0. *)
Theorem enhanceWithLLM_ranking
    (mistral_chat : nat -> string -> string -> ChatOutcome)
    (JSON_parse : string -> option Extended.JudgeJson)
    (candidates : list RankedStory) (query : string) (config : NormalizedConfig) :
  let enhance := Extended.enhanceCandidate mistral_chat JSON_parse query config in
  let enhanced := Extended.enhanceWithLLM mistral_chat JSON_parse candidates query config in
  List.length enhanced = List.length candidates
  /\ enhanced ≡ₚ imap enhance candidates
  /\ map Extended.base (imap enhance candidates) = candidates
  /\ StronglySorted rankedBefore enhanced
  /\ (forall x y, precedes x y enhanced -> rankedBefore y x ->
      precedes x y (imap enhance candidates))
  /\ (forall e, e ∈ enhanced ->
      (Extended.evidence e = None /\ Extended.llm_score e = Extended.Finite 0
       /\ Extended.hybrid_score_final e = Extended.Finite (hybrid_score (Extended.base e)))
      \/ (Extended.evidence e = Some (sliceTo 400 (story_content (Extended.base e)))
          /\ Extended.hybrid_score_final e
             = Extended.plus
                 (vector_score_norm (Extended.base e) * nVectorWeight config
                  + bm25_score_norm (Extended.base e) * nBm25Weight config)
                 (Extended.times (nHybridWeight config) (Extended.llm_score e))
          /\ (forall s, Extended.llm_score e = Extended.Finite s ->
              Extended.hybrid_score_final e
              = Extended.Finite
                  (vector_score_norm (Extended.base e) * nVectorWeight config
                   + bm25_score_norm (Extended.base e) * nBm25Weight config
                   + nHybridWeight config * s))
          /\ (isInfinite (Extended.llm_score e) -> nHybridWeight config == 0 ->
              Extended.hybrid_score_final e = Extended.NaN
              /\ sortKey e = Extended.Finite 0))).
Proof.
  intros enhance enhanced. subst enhanced. split; [|split; [|split; [|split; [|split]]]].
  - rewrite Extended_enhanceWithLLM_perm, length_imap. reflexivity.
  - apply Extended_enhanceWithLLM_perm.
  - apply list_eq. intros i. rewrite list_lookup_fmap, list_lookup_imap.
    destruct (candidates !! i); simpl; [|reflexivity].
    subst enhance. rewrite Extended_base_enhanceCandidate. reflexivity.
  - unfold Extended.enhanceWithLLM. apply Array_sort_sorted_by.
    + intros x y H. apply byFinalScoreDesc_test, H.
    + intros x y H. destruct (rankedBefore_total x y) as [Hxy|Hyx]; [|exact Hyx].
      apply byFinalScoreDesc_test in Hxy. congruence.
    + apply rankedBefore_trans.
  - intros x y Hxy Hyx. unfold Extended.enhanceWithLLM in Hxy.
    apply (Array_sort_stable_by _ x y _ Hxy). apply byFinalScoreDesc_test, Hyx.
  - intros e He. rewrite Extended_enhanceWithLLM_perm in He.
    apply elem_of_lookup_imap in He. destruct He as (i & c & -> & _).
    subst enhance. unfold Extended.enhanceCandidate.
    destruct (mistral_chat i query (sliceTo 400 (story_content c))) as [|reply].
    + left. repeat split.
    + right. destruct (Extended.parseJudgeContent JSON_parse reply) as [llmScore reason].
      cbn [Extended.evidence Extended.base Extended.hybrid_score_final Extended.llm_score].
      split; [reflexivity|]. split; [reflexivity|]. split.
      * intros s ->. reflexivity.
      * intros Hinf Hzero. unfold sortKey. cbn [Extended.hybrid_score_final].
        destruct Hinf as [-> | ->]; simpl; rewrite (Qeq_eq_bool _ _ Hzero); split; reflexivity.
Qed.

(** X16. A reply of the judge without a brace-delimited part is read as
    free text: the score is the first numeral the number pattern finds
    and lies between 0 and 1, it is 0 when the pattern finds none, and
    the reason is the first 300 characters of the reply. *)
Theorem parseJudgeContent_free_text
    (JSON_parse : string -> option JudgeJson) (content : string) :
  exec false jsonRegex content = None ->
  inUnitInterval (fst (parseJudgeContent JSON_parse content))
  /\ snd (parseJudgeContent JSON_parse content) = sliceTo 300 content
  /\ (exec false numberRegex content = None -> fst (parseJudgeContent JSON_parse content) = 0)
  /\ (forall numMatch rest, exec false numberRegex content = Some (numMatch :: rest) ->
      fst (parseJudgeContent JSON_parse content) = parseFloat numMatch).
Proof.
  intros Hj. unfold parseJudgeContent. rewrite Hj. cbn [fst snd].
  split; [|split; [reflexivity|split]].
  - destruct (exec false numberRegex content) as [caps|] eqn:En.
    + destruct (numberRegex_capture_unit _ _ En) as (w & -> & Hw). exact Hw.
    + unfold inUnitInterval. split; lra.
  - intros ->. reflexivity.
  - intros numMatch rest ->. reflexivity.
Qed.

Lemma parseJudgeContent_free_text_witness :
  inUnitInterval (fst (parseJudgeContent parseFails "Relevance: 0.85, same feature"))
  /\ fst (parseJudgeContent parseFails "Relevance: 0.85, same feature") = parseFloat "0.85".
Proof.
  destruct (parseJudgeContent_free_text parseFails "Relevance: 0.85, same feature")
    as (H1 & _ & _ & H4); [reflexivity|].
  split; [exact H1|]. apply (H4 "0.85" []). reflexivity.
Defined.

(** ** The route as a whole *)

Lemma performHybridSearch_topK_zero Math_sqrt docs emb text config :
  docs <> [] -> nTopK config = Some 0%Z ->
  performHybridSearch Math_sqrt docs emb text config = [].
Proof.
  intros Hne Hk. unfold performHybridSearch. destruct docs as [|d docs]; [contradiction|].
  cbn [List.length Nat.eqb].
  destruct (scanDocuments Math_sqrt emb text (d :: docs)) as [knn txt].
  unfold fuseAndRank. destruct (mergeResults knn txt); [reflexivity|].
  rewrite Hk. reflexivity.
Qed.



(** X18. [topK] is applied twice, by the search as it came and by the
    route with 0 replaced by the default 6.  A positive [topK] bounds the
    ranking of the response; without [topK] the search is not cut and the
    response holds at most 6 stories; and with [topK] 0 the ranking over
    a non-empty collection is empty, the default notwithstanding. *)
Theorem POST_topK
    (mistral_chat : nat -> string -> string -> ChatOutcome)
    (JSON_parse : string -> option JudgeJson) (Math_sqrt : Q -> Q)
    (embedQuery : string -> option (list Q)) (collection : list Document)
    (story : string) (config : RAGConfig) :
  let r := POST mistral_chat JSON_parse Math_sqrt embedQuery (Some collection) story
                (Some config) in
  (forall k, topK config = Some k -> (0 < k)%Z ->
     (List.length (ranked_related_stories r) <= Z.to_nat k)%nat)
  /\ (topK config = None -> (List.length (ranked_related_stories r) <= 6)%nat)
  /\ (topK config = Some 0%Z -> collection <> [] -> ranked_related_stories r = []).
Proof.
  intros r. subst r. unfold POST. cbn [orDefault].
  destruct (String.eqb story "");
    [cbn; repeat split; intros; try reflexivity; lia|].
  destruct (embedQuery (normalizeStory story)) as [e|];
    [|cbn; repeat split; intros; try reflexivity; lia].
  cbn [ranked_related_stories]. split; [|split].
  - intros k Hk Hpos. unfold responseTopK. rewrite Hk.
    destruct (k =? 0)%Z eqn:E; [lia|].
    etransitivity; [apply slice0_length; lia|]. reflexivity.
  - intros Hk. unfold responseTopK. rewrite Hk.
    etransitivity; [apply (slice0_length _ 6%Z); lia|]. reflexivity.
  - intros Hk Hne. rewrite performHybridSearch_topK_zero; [|exact Hne|exact Hk].
    unfold enhanceWithLLM, slice0. cbn [imap Array_sort foldr].
    destruct (responseTopK config <? 0)%Z; apply take_nil.
Qed.

Lemma POST_topK_witness :
  (List.length (ranked_related_stories
     (POST chatFails parseFails sqrtOnSquares embedsUnit (Some tieCollection)
           "log in" (Some (mkConfig (6 # 10) (3 # 10) (1 # 10) 1)))) <= 1)%nat
  /\ ranked_related_stories
       (POST chatFails parseFails sqrtOnSquares embedsUnit (Some tieCollection)
             "log in" (Some (mkConfig (6 # 10) (3 # 10) (1 # 10) 0))) = [].
Proof.
  split.
  - destruct (POST_topK chatFails parseFails sqrtOnSquares embedsUnit
                tieCollection "log in" (mkConfig (6 # 10) (3 # 10) (1 # 10) 1)) as (H & _ & _).
    apply (H 1%Z); [reflexivity|lia].
  - destruct (POST_topK chatFails parseFails sqrtOnSquares embedsUnit
                tieCollection "log in" (mkConfig (6 # 10) (3 # 10) (1 # 10) 0)) as (_ & _ & H).
    apply H; [reflexivity|discriminate].
Defined.

(** ** Completeness of the matcher *)

Lemma is_Some_orElse {R} (a b : option R) : is_Some a \/ is_Some b -> is_Some (orElse a b).
Proof.
  intros [[x ->]|[y ->]]; simpl; [eauto|]. destruct a; simpl; eauto.
Qed.

Lemma many1_complete {R} g p (k : string -> option R) w s :
  w <> "" -> allChars p w -> is_Some (k s) -> is_Some (many1 g p k (w +:+ s)).
Proof.
  intros Hne Hw Hk. induction w as [|c w IH]; [contradiction|].
  destruct Hw as [Hc Hw]. simpl. rewrite Hc.
  destruct w as [|c' w'].
  - simpl. destruct g; apply is_Some_orElse; tauto.
  - assert (Hm : is_Some (many1 g p k (String c' w' +:+ s))) by (apply IH; [discriminate|exact Hw]).
    destruct g; apply is_Some_orElse; tauto.
Qed.

(** A word of an expression without [$] is matched, whatever follows,
    provided the continuation accepts what follows. *)
Lemma rmatch_complete {R} icase r : forall w s caps (k : list string -> string -> option R),
  noEos r = true -> Lang icase r w -> (forall caps', is_Some (k caps' s)) ->
  is_Some (rmatch icase r caps k (w +:+ s)).
Proof.
  induction r as [|p|p|r1 IH1 r2 IH2|r1 IH1 r2 IH2|r1 IH1|g p|g p|r1 IH1|];
    intros w s caps k Hne Hw Hk; simpl in Hw, Hne; cbn [rmatch].
  - subst w. apply Hk.
  - destruct Hw as (c & -> & Hc). simpl. rewrite Hc. apply Hk.
  - destruct Hw as (c & -> & Hc). simpl. rewrite Hc. apply Hk.
  - apply andb_true_iff in Hne. destruct Hne as [Hn1 Hn2].
    destruct Hw as (w1 & w2 & -> & Hw1 & Hw2). rewrite append_assoc.
    apply IH1; [assumption..|]. intros caps'. apply IH2; assumption.
  - apply andb_true_iff in Hne. destruct Hne as [Hn1 Hn2]. apply is_Some_orElse.
    destruct Hw as [Hw|Hw]; [left; apply IH1|right; apply IH2]; assumption.
  - apply is_Some_orElse. destruct Hw as [->|Hw]; [right; apply Hk|left; apply IH1; assumption].
  - destruct Hw as [Hw1 Hw2]. apply many1_complete; [assumption..|apply Hk].
  - unfold many0. destruct w as [|c w'].
    + simpl. destruct g; apply is_Some_orElse; [right|left]; apply Hk.
    + assert (Hm : is_Some (many1 g p (k caps) (String c w' +:+ s)))
        by (apply many1_complete; [discriminate|exact Hw|apply Hk]).
      destruct g; apply is_Some_orElse; tauto.
  - apply IH1; [assumption..|]. intros caps'. apply Hk.
  - discriminate.
Qed.

Lemma exec_complete icase r pre s :
  is_Some (matchAtStart icase r s) -> is_Some (exec icase r (pre +:+ s)).
Proof.
  intros Hm. induction pre as [|c pre IH]; simpl.
  - destruct s; simpl; destruct Hm as [x ->]; eauto.
  - destruct (matchAtStart icase r (String c (pre +:+ s))); [eauto|exact IH].
Qed.

(** [test] finds every occurrence of a word of the expression. *)
Lemma test_complete icase r pre w post :
  noEos r = true -> Lang icase r w -> test icase r (pre +:+ w +:+ post) = true.
Proof.
  intros Hne Hw. unfold test.
  destruct (exec_complete icase r pre (w +:+ post)) as [x ->]; [|reflexivity].
  unfold matchAtStart. apply rmatch_complete; [assumption..|]. intros caps'. eauto.
Qed.

(** ** Letter case and the matcher *)

Lemma lowerChar_idem c : lowerChar (lowerChar c) = lowerChar c.
Proof. destruct c as [[] [] [] [] [] [] [] []]; reflexivity. Qed.

Lemma lowerChar_upperChar c : lowerChar (upperChar c) = lowerChar c.
Proof. destruct c as [[] [] [] [] [] [] [] []]; reflexivity. Qed.

Lemma anyChar_lowerChar c : anyChar (lowerChar c) = anyChar c.
Proof. destruct c as [[] [] [] [] [] [] [] []]; reflexivity. Qed.

Lemma toLowerCase_append a b : toLowerCase (a +:+ b) = toLowerCase a +:+ toLowerCase b.
Proof. induction a as [|c a IH]; simpl; [reflexivity|]. rewrite IH. reflexivity. Qed.

Lemma toLowerCase_idem s : toLowerCase (toLowerCase s) = toLowerCase s.
Proof. induction s as [|c s IH]; simpl; [reflexivity|]. rewrite lowerChar_idem, IH. reflexivity. Qed.

(** A text whose lower-case form is a concatenation is the concatenation
    of two texts with those lower-case forms. *)
Lemma toLowerCase_split x : forall t y,
  toLowerCase t = x +:+ y ->
  exists t1 t2, t = t1 +:+ t2 /\ toLowerCase t1 = x /\ toLowerCase t2 = y.
Proof.
  induction x as [|c x IH]; intros t y H.
  - exists "", t. repeat split. exact H.
  - destruct t as [|c' t']; [discriminate|]. simpl in H. injection H as Hc H.
    destruct (IH _ _ H) as (t1 & t2 & -> & H1 & H2).
    exists (String c' t1), t2. simpl. rewrite Hc, H1. repeat split. exact H2.
Qed.

Lemma toLowerCase_capitalize s : toLowerCase (capitalize s) = toLowerCase s.
Proof.
  destruct s as [|c s]; [reflexivity|]. rewrite capitalize_head. simpl.
  rewrite lowerChar_upperChar, toLowerCase_idem. reflexivity.
Qed.

Lemma allChars_case p u : forall v,
  (forall c, p (lowerChar c) = p c) -> toLowerCase u = toLowerCase v ->
  allChars p u -> allChars p v.
Proof.
  induction u as [|c u IH]; intros v Hp H Hu; destruct v as [|c' v]; try discriminate;
    [exact I|].
  simpl in H. injection H as Hc H. destruct Hu as [Hcu Hu]. split; [|apply (IH v); assumption].
  rewrite <- Hp, <- Hc, Hp. exact Hcu.
Qed.

(** Under the [i] flag an expression with case-blind classes accepts a
    word in whatever case it is written. *)
Lemma Lang_case r : forall u v,
  caseBlind r -> toLowerCase u = toLowerCase v -> Lang true r u -> Lang true r v.
Proof.
  induction r as [|p|p|r1 IH1 r2 IH2|r1 IH1 r2 IH2|r1 IH1|g p|g p|r1 IH1|];
    intros u v Hb H Hu; simpl in Hu, Hb |- *.
  - subst u. destruct v; [reflexivity|discriminate].
  - destruct Hu as (c & -> & Hc). destruct v as [|c' [|? ?]]; try discriminate.
    simpl in H. injection H as H. exists c'. split; [reflexivity|].
    unfold litMatches in *. rewrite <- H. exact Hc.
  - destruct Hu as (c & -> & Hc). destruct v as [|c' [|? ?]]; try discriminate.
    simpl in H. injection H as H. exists c'. split; [reflexivity|].
    rewrite <- Hb, <- H, Hb. exact Hc.
  - destruct Hb as [Hb1 Hb2]. destruct Hu as (u1 & u2 & -> & Hu1 & Hu2).
    rewrite toLowerCase_append in H. symmetry in H.
    destruct (toLowerCase_split _ _ _ H) as (v1 & v2 & -> & H1 & H2).
    exists v1, v2. split; [reflexivity|].
    split; [apply (IH1 u1)|apply (IH2 u2)]; auto.
  - destruct Hb as [Hb1 Hb2].
    destruct Hu as [Hu|Hu]; [left; apply (IH1 u)|right; apply (IH2 u)]; assumption.
  - destruct Hu as [->|Hu]; [left; destruct v; [reflexivity|discriminate]|].
    right. apply (IH1 u); assumption.
  - destruct Hu as [Hne Hu]. split; [|apply (allChars_case p u); assumption].
    intros ->. destruct u; [contradiction|discriminate].
  - apply (allChars_case p u); assumption.
  - apply (IH1 u); assumption.
  - subst u. destruct v; [reflexivity|discriminate].
Qed.

(** The words of a literal, under the [i] flag: the texts with its
    lower-case form. *)
Lemma Lang_word pat : forall a,
  Lang true (word pat) a <-> toLowerCase a = toLowerCase pat.
Proof.
  induction pat as [|c pat IH]; intros a.
  - simpl. split; [intros ->; reflexivity|]. destruct a; [reflexivity|discriminate].
  - assert (Hlit : forall x, Lang true (Lit c) x <-> toLowerCase x = String (lowerChar c) "").
    { intros x. simpl. split.
      - intros (c' & -> & Hc). simpl. f_equal. symmetry. apply Ascii.eqb_eq. exact Hc.
      - intros H. destruct x as [|c' [|? ?]]; try discriminate. simpl in H. injection H as H.
        exists c'. split; [reflexivity|]. apply Ascii.eqb_eq. symmetry. exact H. }
    destruct pat as [|c2 pat'].
    + change (word (String c "")) with (Lit c). apply Hlit.
    + change (word (String c (String c2 pat'))) with (Seq (Lit c) (word (String c2 pat'))).
      cbn [Lang]. split.
      * intros (w1 & w2 & -> & H1 & H2). apply Hlit in H1. apply IH in H2.
        rewrite toLowerCase_append, H1, H2. reflexivity.
      * intros H. change (toLowerCase (String c (String c2 pat')))
          with (String (lowerChar c) "" +:+ toLowerCase (String c2 pat')) in H.
        destruct (toLowerCase_split _ _ _ H) as (t1 & t2 & -> & H1 & H2).
        exists t1, t2. split; [reflexivity|]. split; [apply Hlit, H1|apply IH, H2].
Qed.

Lemma caseBlind_formatRegex : caseBlind formatRegex.
Proof.
  assert (Hw : forall pat, caseBlind (word pat)).
  { induction pat as [|c [|c2 pat] IH]; simpl; auto. }
  unfold formatRegex. simpl. repeat split; first [apply anyChar_lowerChar | exact I].
Qed.

(** A text in the story format stays in it when its letters change case
    and when something is put after it. *)
Lemma storyFormat_case t t' :
  toLowerCase t' = toLowerCase t -> storyFormat t -> storyFormat t'.
Proof.
  intros H (w & rest & -> & Hw). rewrite toLowerCase_append in H.
  destruct (toLowerCase_split _ _ _ H) as (w' & rest' & -> & H1 & H2).
  exists w', rest'. split; [reflexivity|].
  apply (Lang_case formatRegex w w'); [apply caseBlind_formatRegex|congruence|exact Hw].
Qed.

Lemma storyFormat_append t post : storyFormat t -> storyFormat (t +:+ post).
Proof.
  intros (w & rest & -> & Hw). exists w, (rest +:+ post). rewrite append_assoc. auto.
Qed.

Lemma storyFormat_test t : storyFormat t -> test true formatRegex t = true.
Proof.
  intros (w & rest & -> & Hw). apply (test_complete true formatRegex "" w rest); [reflexivity|exact Hw].
Qed.

(** ** Characters of the captures *)

Lemma allChars_append p a b : allChars p (a +:+ b) <-> allChars p a /\ allChars p b.
Proof. induction a as [|c a IH]; simpl; [tauto|]. rewrite IH. tauto. Qed.

Lemma allChars_sliceTo p s : forall n, allChars p s -> allChars p (sliceTo n s).
Proof.
  induction s as [|c s IH]; intros [|n] H; simpl; try exact I.
  destruct H as [Hc Hs]. split; [assumption|apply IH, Hs].
Qed.

Lemma allChars_trimStart p s : allChars p s -> allChars p (trimStart s).
Proof.
  induction s as [|c s IH]; simpl; [trivial|]. intros [Hc Hs].
  destruct (isWhiteSpace c); [apply IH, Hs|split; assumption].
Qed.

Lemma allChars_trimEnd p s : allChars p s -> allChars p (trimEnd s).
Proof.
  induction s as [|c s IH]; simpl; [trivial|]. intros [Hc Hs]. specialize (IH Hs).
  destruct (trimEnd s) as [|c' r'].
  - destruct (isWhiteSpace c); simpl; auto.
  - split; assumption.
Qed.

Lemma allChars_trim p s : allChars p s -> allChars p (trim s).
Proof. intros H. apply allChars_trimEnd, allChars_trimStart, H. Qed.

Lemma notWhite_anyChar c : isWhiteSpace c = false -> anyChar c = true.
Proof. destruct c as [[] [] [] [] [] [] [] []]; vm_compute; congruence. Qed.

(** Collapsing the white space leaves no line terminator. *)
Lemma allChars_collapse s : forall inRun, allChars anyChar (collapse_go s inRun).
Proof.
  induction s as [|c s IH]; intros inRun; simpl; [exact I|].
  destruct (isWhiteSpace c) eqn:E.
  - destruct inRun; [apply IH|]. split; [reflexivity|apply IH].
  - split; [apply notWhite_anyChar, E|apply IH].
Qed.

(** The captures of a match are made of characters of the input. *)
Lemma rmatch_caps_chars {R} q icase r :
  forall caps (k : list string -> string -> option R) s res,
    allChars q s -> Forall (allChars q) caps ->
    rmatch icase r caps k s = Some res ->
    exists caps' s', k caps' s' = Some res /\ allChars q s' /\ Forall (allChars q) caps'.
Proof.
  induction r as [|p|p|r1 IH1 r2 IH2|r1 IH1 r2 IH2|r1 IH1|g p|g p|r1 IH1|];
    intros caps k s res Hs Hcaps H; cbn [rmatch] in H.
  - eauto.
  - destruct s as [|c s']; [discriminate|]. destruct (litMatches icase p c); [|discriminate].
    destruct Hs as [_ Hs]. eauto.
  - destruct s as [|c s']; [discriminate|]. destruct (p c); [|discriminate].
    destruct Hs as [_ Hs]. eauto.
  - destruct (IH1 _ _ _ _ Hs Hcaps H) as (caps1 & s1 & H1 & Hs1 & Hc1).
    apply (IH2 _ _ _ _ Hs1 Hc1 H1).
  - unfold orElse in H. destruct (rmatch icase r1 caps k s) eqn:E.
    + injection H as <-. apply (IH1 _ _ _ _ Hs Hcaps E).
    + apply (IH2 _ _ _ _ Hs Hcaps H).
  - unfold orElse in H. destruct (rmatch icase r1 caps k s) eqn:E.
    + injection H as <-. apply (IH1 _ _ _ _ Hs Hcaps E).
    + eauto.
  - destruct (many1_sound _ _ _ _ _ H) as (w & s' & -> & _ & _ & Hk).
    apply allChars_append in Hs. destruct Hs as [_ Hs]. eauto.
  - unfold many0, orElse in H.
    assert (Hsome : forall res', many1 g p (k caps) s = Some res' ->
              exists caps' s', k caps' s' = Some res' /\ allChars q s' /\ Forall (allChars q) caps').
    { intros res' Hm. destruct (many1_sound _ _ _ _ _ Hm) as (w & s' & -> & _ & _ & Hk).
      apply allChars_append in Hs. destruct Hs as [_ Hs]. eauto. }
    destruct g.
    + destruct (many1 true p (k caps) s) eqn:E; [injection H as <-; apply Hsome; reflexivity|].
      eauto.
    + destruct (k caps s) eqn:E; [injection H as <-; eauto|]. apply Hsome, H.
  - destruct (IH1 _ _ _ _ Hs Hcaps H) as (caps1 & s1 & H1 & Hs1 & Hc1).
    exists (caps1 ++ [sliceTo (String.length s - String.length s1) s]), s1.
    split; [exact H1|]. split; [exact Hs1|].
    apply Forall_app. split; [exact Hc1|]. constructor; [|constructor].
    apply allChars_sliceTo, Hs.
  - destruct s; [|discriminate]. eauto.
Qed.

Lemma exec_caps_chars q icase r s caps :
  allChars q s -> exec icase r s = Some caps -> Forall (allChars q) caps.
Proof.
  induction s as [|c s IH]; intros Hs H; simpl in H.
  - destruct (matchAtStart icase r "") eqn:E; [|discriminate]. injection H as <-.
    unfold matchAtStart in E.
    destruct (rmatch_caps_chars q _ _ _ _ _ _ Hs (List.Forall_nil _) E) as (caps' & s' & Hk & _ & Hc).
    injection Hk as <-. exact Hc.
  - destruct (matchAtStart icase r (String c s)) eqn:E.
    + injection H as <-. unfold matchAtStart in E.
      destruct (rmatch_caps_chars q _ _ _ _ _ _ Hs (List.Forall_nil _) E) as (caps' & s' & Hk & _ & Hc).
      injection Hk as <-. exact Hc.
    + destruct Hs as [_ Hs]. apply IH; assumption.
Qed.

Lemma capture1_chars q icase r s dflt :
  allChars q s -> allChars q dflt -> allChars q (capture1 (exec icase r s) dflt).
Proof.
  intros Hs Hd. unfold capture1. destruct (exec icase r s) as [[|c cs]|] eqn:E; try exact Hd.
  apply allChars_trim. assert (H := exec_caps_chars q _ _ _ _ Hs E).
  apply Forall_cons in H. tauto.
Qed.

(** ** The normalised story is in the story format *)

Lemma storyShape_format w : Lang true storyShape w -> Lang true formatRegex w.
Proof.
  unfold storyShape, formatRegex. cbn [Lang].
  intros (a & r1 & -> & Ha & X & r2 & -> & HX & b & r3 & -> & Hb & Y & r4 & -> & HY
          & c & r5 & -> & Hc & Z & e & -> & HZ & ->).
  rewrite append_nil_r.
  exists a, (X +:+ b +:+ Y +:+ c +:+ Z). split; [reflexivity|].
  split; [apply Lang_word; apply Lang_word in Ha; exact Ha|].
  exists X, (b +:+ Y +:+ c +:+ Z). split; [reflexivity|]. split; [exact HX|].
  exists b, (Y +:+ c +:+ Z). split; [reflexivity|].
  split; [apply Lang_word; apply Lang_word in Hb; exact Hb|].
  exists Y, (c +:+ Z). split; [reflexivity|]. split; [exact HY|].
  exists c, Z. split; [reflexivity|].
  split; [apply Lang_word; apply Lang_word in Hc; exact Hc|exact HZ].
Qed.

Lemma storyTemplate_format role action value :
  allChars anyChar role -> allChars anyChar action ->
  value <> "" -> allChars anyChar value ->
  storyFormat (storyTemplate role action value).
Proof.
  intros Hr Ha Hne Hv. exists (storyTemplate role action value), "".
  split; [symmetry; apply append_nil_r|].
  unfold storyTemplate, formatRegex. cbn [Lang].
  exists "As a ", (role +:+ ", I want to " +:+ action +:+ " so that " +:+ value).
  split; [reflexivity|]. split; [apply Lang_word; reflexivity|].
  exists (role +:+ ","), (" I want " +:+ ("to " +:+ action) +:+ " so that " +:+ value).
  split; [rewrite append_assoc; reflexivity|].
  split; [split; [destruct role; discriminate|apply allChars_append; split; [exact Hr|repeat split]]|].
  exists " I want ", (("to " +:+ action) +:+ " so that " +:+ value).
  split; [reflexivity|]. split; [apply Lang_word; reflexivity|].
  exists ("to " +:+ action), (" so that " +:+ value).
  split; [reflexivity|].
  split; [split; [discriminate|apply allChars_append; split; [repeat split|exact Ha]]|].
  exists " so that ", value. split; [reflexivity|].
  split; [apply Lang_word; reflexivity|]. split; assumption.
Qed.

Lemma capitalize_append x y : x <> "" -> capitalize (x +:+ y) = capitalize x +:+ toLowerCase y.
Proof.
  destruct x as [|c x]; [contradiction|]. intros _. cbn [String.append].
  rewrite !capitalize_head, toLowerCase_append. reflexivity.
Qed.

Lemma append_last_char a b c d : a +:+ String c "" = b +:+ String d "" -> c = d.
Proof.
  revert b. induction a as [|x a IH]; intros [|y b] H; simpl in H.
  - congruence.
  - injection H as _ H. destruct b; discriminate.
  - injection H as _ H. destruct a; discriminate.
  - injection H as _ H. apply (IH b H).
Qed.

Lemma punctuate_space x : punctuate (x +:+ " ") = (x +:+ " ") +:+ ".".
Proof.
  unfold punctuate. destruct (test false endPunctRegex (x +:+ " ")) eqn:E; [|reflexivity].
  apply test_endPunct in E. destruct E as (front & c & Hfront & Hc).
  symmetry in Hfront. apply append_last_char in Hfront. subst c. discriminate.
Qed.

Lemma punctuate_cases x : punctuate x = x \/ punctuate x = x +:+ ".".
Proof. unfold punctuate. destruct (negb _); auto. Qed.

(** Whatever the input, the normalised story starts with a text of the
    story format. *)
Lemma normalizeStory_format story : storyFormat (normalizeStory story).
Proof.
  rewrite normalizeStory_unfold. cbv zeta.
  set (n := collapseWhiteSpace (replaceCRLF (trim story))).
  assert (Hn : allChars anyChar n) by apply allChars_collapse.
  assert (Hstep : forall x, storyFormat x -> storyFormat (punctuate (capitalize x))).
  { intros x Hx. assert (Hc : storyFormat (capitalize x)).
    { apply (storyFormat_case x); [apply toLowerCase_capitalize|exact Hx]. }
    destruct (punctuate_cases (capitalize x)) as [-> | ->];
      [exact Hc|apply storyFormat_append, Hc]. }
  destruct (matchAtStart true storyShape n) as [caps|] eqn:E.
  - apply Hstep. unfold matchAtStart in E. apply rmatch_sound in E; [|reflexivity].
    destruct E as (w & s' & Hw & HL & _). exists w, s'. split; [exact Hw|].
    apply storyShape_format, HL.
  - set (role := capture1 (exec true roleRegex n) "user").
    set (action := capture1 (exec true actionRegex n) n).
    set (value := capture1 (exec true valueRegex n) "achieve the desired outcome").
    assert (Hr : allChars anyChar role) by (apply capture1_chars; [exact Hn|repeat split]).
    assert (Ha : allChars anyChar action) by (apply capture1_chars; assumption).
    assert (Hv : allChars anyChar value) by (apply capture1_chars; [exact Hn|repeat split]).
    destruct value as [|v0 vs] eqn:Ev.
    + set (front := "As a " +:+ role +:+ ", I want to " +:+ action +:+ " so that").
      assert (Ht : forall e, storyTemplate role action e = (front +:+ " ") +:+ e).
      { intros e. unfold storyTemplate, front. rewrite !append_assoc. reflexivity. }
      rewrite (Ht ""), append_nil_r, capitalize_append by discriminate.
      change (toLowerCase " ") with " ". rewrite punctuate_space.
      apply (storyFormat_case (storyTemplate role action ".")).
      * rewrite (Ht "."), !toLowerCase_append, toLowerCase_capitalize. reflexivity.
      * apply storyTemplate_format; [assumption..|discriminate|repeat split].
    + apply Hstep, storyTemplate_format; [assumption..|discriminate|exact Hv].
Qed.

(** ** Quality of the normalised story *)

(** X19. The rule-based quality score lies between 0 and 100, and on a
    story that went through [normalizeStory] the format check never
    fails, so the quality score the Pages-API handler reports is at
    least 40, whatever the input was. *)
Theorem calculateStoryQuality_normalized (story : string) :
  (0 <= calculateStoryQuality story <= 100)%Z
  /\ test true formatRegex (normalizeStory story) = true
  /\ (40 <= calculateStoryQuality (normalizeStory story) <= 100)%Z.
Proof.
  assert (Hf := storyFormat_test _ (normalizeStory_format story)).
  split; [|split; [exact Hf|]].
  - unfold calculateStoryQuality. cbv zeta.
    destruct (test true formatRegex story), (test true criteriaRegex story),
      (test false bulletRegex story), (50 <? String.length story)%nat; lia.
  - unfold calculateStoryQuality. cbv zeta. rewrite Hf.
    destruct (test true criteriaRegex (normalizeStory story)),
      (test false bulletRegex (normalizeStory story)),
      (50 <? String.length (normalizeStory story))%nat; lia.
Qed.

(** ** Detailed quality evaluation *)






(** The product that [Math.round] is applied to, for the sum 7.25. *)
Lemma Binary64_total_of_7_25 :
  (7.25 / 50 * 100)%float = 0x1.cffffffffffffp+3%float
  /\ PrimFloat.ltb (7.25 / 50 * 100) 14.5 = true.
Proof.
  split; vm_compute; reflexivity.
Qed.


(** An occurrence of the story format is an occurrence of [As a]. *)
Lemma storyFormat_structure t : storyFormat t -> test true structureRegex t = true.
Proof.
  intros (w & rest & -> & Hw). unfold formatRegex in Hw. cbn [Lang] in Hw.
  destruct Hw as (a & r1 & -> & Ha & _). apply Lang_word in Ha.
  change (toLowerCase "As a ") with ("as a" +:+ " ") in Ha.
  destruct (toLowerCase_split _ _ _ Ha) as (a1 & a2 & -> & H1 & _).
  rewrite !append_assoc.
  apply (test_complete true structureRegex "" a1 (a2 +:+ r1 +:+ rest)); [reflexivity|].
  left. apply Lang_word. exact H1.
Qed.

(** X21. When the judge cannot be used (the chat call throws, or the
    reply has no brace-delimited part at its end) the evaluation falls
    back on the heuristics: the total is an even number between 44 and
    74 and there are three recommendations.  For a story that went
    through [normalizeStory], as in the route, the format and structure
    checks never fail, so the total is at least 56. *)
Theorem evaluateQualityDetailed_fallback
    (quality_chat : string -> ChatOutcome)
    (JSON_parse_quality : string -> option QualityJson) (story : string) :
  (quality_chat story = ChatThrows
   \/ exists reply, quality_chat story = ChatContent reply
                    /\ exec false jsonTailRegex reply = None) ->
  let report := evaluateQualityDetailed quality_chat JSON_parse_quality story in
  report = fallbackReport story
  /\ (44 <= totalScore report <= 74)%Z /\ Z.even (totalScore report) = true
  /\ List.length (recommendations report) = 3%nat
  /\ (forall raw, story = normalizeStory raw ->
      Completeness (breakdown report) = 8 /\ Structure (breakdown report) = 8
      /\ (56 <= totalScore report)%Z).
Proof.
  intros Hfail report.
  assert (Hrep : report = fallbackReport story).
  { subst report. unfold evaluateQualityDetailed.
    destruct Hfail as [-> | (reply & -> & ->)]; reflexivity. }
  rewrite Hrep. split; [reflexivity|].
  unfold fallbackReport, fallbackBreakdown. cbn [totalScore breakdown recommendations
    Completeness Structure].
  split; [|split; [|split; [reflexivity|]]].
  - destruct (test true formatRegex story), (40 <? String.length story)%nat,
      (test true criteriaRegex story), (specificityTest story),
      (test true structureRegex story); vm_compute; split; discriminate.
  - destruct (test true formatRegex story), (40 <? String.length story)%nat,
      (test true criteriaRegex story), (specificityTest story),
      (test true structureRegex story); reflexivity.
  - intros raw ->.
    rewrite (storyFormat_test _ (normalizeStory_format raw)).
    rewrite (storyFormat_structure _ (normalizeStory_format raw)).
    split; [reflexivity|]. split; [reflexivity|].
    destruct (40 <? String.length (normalizeStory raw))%nat,
      (test true criteriaRegex (normalizeStory raw)), (specificityTest (normalizeStory raw));
      vm_compute; discriminate.
Qed.

Lemma evaluateQualityDetailed_fallback_witness :
  (44 <= totalScore (evaluateQualityDetailed (fun _ => ChatThrows) (fun _ => None)
                       "As a user, i want to log in so that i can see my data.") <= 74)%Z.
Proof.
  apply (evaluateQualityDetailed_fallback (fun _ => ChatThrows) (fun _ => None)
           "As a user, i want to log in so that i can see my data.").
  left. reflexivity.
Defined.

(** ** Shape of the normalised story *)

Lemma anyChar_upperChar c : anyChar (upperChar c) = anyChar c.
Proof. destruct c as [[] [] [] [] [] [] [] []]; reflexivity. Qed.

Lemma allChars_toLowerCase s : allChars anyChar s -> allChars anyChar (toLowerCase s).
Proof.
  induction s as [|c s IH]; simpl; [trivial|]. intros [Hc Hs].
  rewrite anyChar_lowerChar. split; [exact Hc|apply IH, Hs].
Qed.

Lemma allChars_capitalize s : allChars anyChar s -> allChars anyChar (capitalize s).
Proof.
  destruct s as [|c s]; [trivial|]. rewrite capitalize_head. intros [Hc Hs].
  split; [rewrite anyChar_upperChar; exact Hc|apply allChars_toLowerCase, Hs].
Qed.

Lemma allChars_punctuate s : allChars anyChar s -> allChars anyChar (punctuate s).
Proof.
  intros Hs. destruct (punctuate_cases s) as [-> | ->]; [exact Hs|].
  apply allChars_append. split; [exact Hs|repeat split].
Qed.

Lemma normalizeStory_line_lower story :
  allChars anyChar (normalizeStory story)
  /\ toLowerCase (slice1 (normalizeStory story)) = slice1 (normalizeStory story).
Proof.
  rewrite normalizeStory_unfold. cbv zeta.
  set (n := collapseWhiteSpace (replaceCRLF (trim story))).
  assert (Hn : allChars anyChar n) by apply allChars_collapse.
  set (body := match matchAtStart true storyShape n with
               | Some _ => n
               | None => storyTemplate (capture1 (exec true roleRegex n) "user")
                           (capture1 (exec true actionRegex n) n)
                           (capture1 (exec true valueRegex n) "achieve the desired outcome")
               end).
  split.
  - apply allChars_punctuate, allChars_capitalize. subst body.
    destruct (matchAtStart true storyShape n); [exact Hn|].
    unfold storyTemplate. rewrite !allChars_append.
    repeat split; try (apply capture1_chars; [exact Hn|]); first [exact Hn | repeat split].
  - assert (Hlow : toLowerCase (slice1 (capitalize body)) = slice1 (capitalize body)).
    { destruct body as [|c b]; [reflexivity|]. rewrite capitalize_head. simpl.
      apply toLowerCase_idem. }
    destruct (punctuate_cases (capitalize body)) as [-> | ->]; [exact Hlow|].
    destruct (capitalize body) as [|c b] eqn:E; [reflexivity|]. simpl in *.
    rewrite toLowerCase_append, Hlow. reflexivity.
Qed.

(** X22. Whatever the input, the normalised story is one line (it has
    no line terminator), and behind its first character it has no
    upper-case letter: lower-casing it changes nothing. *)
Theorem normalizeStory_single_line (story : string) :
  allChars anyChar (normalizeStory story)
  /\ toLowerCase (slice1 (normalizeStory story)) = slice1 (normalizeStory story).
Proof. apply normalizeStory_line_lower. Qed.

(** ** White space of the normalised story *)

Lemma spacedGo_weaken a s : spacedGo a s -> spacedGo false s.
Proof.
  destruct s as [|c r]; simpl; [trivial|]. destruct (isWhiteSpace c); [|trivial].
  intros (_ & H1 & H2). auto.
Qed.

Lemma spacedGo_true s : spacedGo true s <-> spacedGo false s /\ startsClean s.
Proof.
  destruct s as [|c r]; simpl; [tauto|]. destruct (isWhiteSpace c).
  - split; [intros (H & _); discriminate|intros (_ & H); discriminate].
  - tauto.
Qed.

Lemma spacedGo_append a x : forall y,
  spacedGo a (x +:+ y) <-> spacedGo a x /\ spacedGo (stateAfter a x) y.
Proof.
  revert a. induction x as [|c x IH]; intros a y; simpl; [tauto|].
  destruct (isWhiteSpace c) eqn:E.
  - rewrite IH. simpl. tauto.
  - rewrite IH. tauto.
Qed.

Lemma stateAfter_append a x y : stateAfter a (x +:+ y) = stateAfter (stateAfter a x) y.
Proof. revert a. induction x as [|c x IH]; intros a; simpl; [reflexivity|apply IH]. Qed.

Lemma stateAfter_clean a x : x <> "" -> endsClean x -> stateAfter a x = false.
Proof.
  revert a. induction x as [|c x IH]; intros a Hne Hx; [contradiction|].
  destruct x as [|c' x']; [exact Hx|]. apply (IH (isWhiteSpace c)); [discriminate|exact Hx].
Qed.

Lemma collapse_go_spaced s : forall b, spacedGo b (collapse_go s b).
Proof.
  induction s as [|c s IH]; intros b; simpl; [exact I|].
  destruct (isWhiteSpace c) eqn:E.
  - destruct b; [apply IH|]. simpl. repeat split. apply IH.
  - simpl. rewrite E. apply IH.
Qed.

Lemma collapse_go_fixed s : forall a b,
  spacedGo a s -> (b = true -> a = true) -> collapse_go s b = s.
Proof.
  induction s as [|c s IH]; intros a b Hs Hb; simpl; [reflexivity|].
  simpl in Hs. destruct (isWhiteSpace c) eqn:E.
  - destruct Hs as (-> & -> & Hs). destruct b; [specialize (Hb eq_refl); discriminate|].
    f_equal. apply (IH true true); auto.
  - f_equal. apply (IH false false); [exact Hs|discriminate].
Qed.

Lemma isWhiteSpace_lowerChar c : isWhiteSpace (lowerChar c) = isWhiteSpace c.
Proof. destruct c as [[] [] [] [] [] [] [] []]; reflexivity. Qed.

Lemma lowerChar_space c : lowerChar c = " "%char -> c = " "%char.
Proof.
  destruct c as [[] [] [] [] [] [] [] []]; vm_compute; intros H;
    first [reflexivity | discriminate H].
Qed.

(** The letter case does not touch the white space. *)
Lemma spacedGo_case u : forall v a,
  toLowerCase u = toLowerCase v -> spacedGo a u -> spacedGo a v.
Proof.
  induction u as [|c u IH]; intros [|c' v] a H Hu; try discriminate; [exact I|].
  simpl in H. injection H as Hc H. simpl in Hu |- *.
  assert (Hw : isWhiteSpace c' = isWhiteSpace c).
  { rewrite <- (isWhiteSpace_lowerChar c'), <- Hc. apply isWhiteSpace_lowerChar. }
  rewrite Hw. destruct (isWhiteSpace c).
  - destruct Hu as (Ha & -> & Hu). split; [exact Ha|]. split; [|apply (IH v); assumption].
    apply lowerChar_space. rewrite <- Hc. reflexivity.
  - apply (IH v); assumption.
Qed.

(** *** The ends of the tidied text *)

Lemma trimStart_startsClean s : startsClean (trimStart s).
Proof.
  induction s as [|c s IH]; simpl; [exact I|].
  destruct (isWhiteSpace c) eqn:E; [exact IH|exact E].
Qed.

Lemma trimEnd_cons c s :
  trimEnd (String c s)
  = match trimEnd s with
    | EmptyString => if isWhiteSpace c then EmptyString else String c EmptyString
    | r' => String c r'
    end.
Proof. reflexivity. Qed.

Lemma trimEnd_endsClean s : endsClean (trimEnd s).
Proof.
  induction s as [|c s IH]; [exact I|]. rewrite trimEnd_cons.
  destruct (trimEnd s) as [|c' r'].
  - destruct (isWhiteSpace c) eqn:E; [exact I|exact E].
  - exact IH.
Qed.

Lemma trimEnd_startsClean s : startsClean s -> startsClean (trimEnd s).
Proof.
  destruct s as [|c s]; [trivial|]. rewrite trimEnd_cons. simpl. intros Hc.
  destruct (trimEnd s); [rewrite Hc|]; exact Hc.
Qed.

Lemma trimEnd_nonempty s : s <> "" -> startsClean s -> trimEnd s <> "".
Proof.
  destruct s as [|c s]; [contradiction|]. rewrite trimEnd_cons. simpl. intros _ Hc.
  destruct (trimEnd s); [rewrite Hc|]; discriminate.
Qed.

(** A trimmed text has clean ends; it is empty only if the text is
    blank. *)
Lemma trim_clean s : startsClean (trim s) /\ endsClean (trim s).
Proof.
  unfold trim. split; [apply trimEnd_startsClean, trimStart_startsClean|apply trimEnd_endsClean].
Qed.

Lemma replaceCRLF_cons c1 s :
  replaceCRLF (String c1 s)
  = match s with
    | String c2 r =>
        if (nat_of_ascii c1 =? 13)%nat && (nat_of_ascii c2 =? 10)%nat
        then String c2 (replaceCRLF r) else String c1 (replaceCRLF s)
    | EmptyString => String c1 EmptyString
    end.
Proof. destruct s; reflexivity. Qed.

Lemma notWhite_notCR c : isWhiteSpace c = false -> (nat_of_ascii c =? 13)%nat = false.
Proof. destruct c as [[] [] [] [] [] [] [] []]; vm_compute; congruence. Qed.

Lemma replaceCRLF_nonempty s : s <> "" -> replaceCRLF s <> "".
Proof.
  destruct s as [|c1 s]; [contradiction|]. intros _. rewrite replaceCRLF_cons.
  destruct s as [|c2 r]; [discriminate|]. destruct (_ && _); discriminate.
Qed.

Lemma replaceCRLF_startsClean s : startsClean s -> startsClean (replaceCRLF s).
Proof.
  destruct s as [|c1 s]; [trivial|]. rewrite replaceCRLF_cons. simpl. intros Hc.
  destruct s as [|c2 r]; [exact Hc|]. rewrite (notWhite_notCR _ Hc). exact Hc.
Qed.

Lemma replaceCRLF_endsClean s : endsClean s -> endsClean (replaceCRLF s).
Proof.
  remember (String.length s) as n eqn:Hn. revert s Hn.
  induction n as [n IH] using lt_wf_ind. intros s Hn Hs.
  destruct s as [|c1 s]; [exact I|]. rewrite replaceCRLF_cons.
  destruct s as [|c2 r]; [exact Hs|].
  assert (Hr : endsClean (replaceCRLF r) /\ (r = "" -> isWhiteSpace c2 = false)).
  { destruct r as [|c3 r']; [split; [exact I|intros _; exact Hs]|].
    split; [|discriminate]. apply (IH (String.length (String c3 r'))); [simpl in *; lia|reflexivity|].
    exact Hs. }
  destruct Hr as [Hr Hlast].
  destruct (_ && _).
  - destruct r as [|c3 r']; [simpl; auto|].
    change (endsClean (String c2 (replaceCRLF (String c3 r')))).
    assert (Hne := replaceCRLF_nonempty (String c3 r')).
    destruct (replaceCRLF (String c3 r')); [exfalso; apply Hne; [discriminate|reflexivity]|].
    exact Hr.
  - assert (H2 : endsClean (replaceCRLF (String c2 r))).
    { apply (IH (String.length (String c2 r))); [simpl in *; lia|reflexivity|exact Hs]. }
    assert (Hne := replaceCRLF_nonempty (String c2 r)).
    destruct (replaceCRLF (String c2 r)); [exfalso; apply Hne; [discriminate|reflexivity]|].
    exact H2.
Qed.

Lemma collapse_go_startsClean s b : startsClean s -> startsClean (collapse_go s b).
Proof.
  destruct s as [|c s]; [trivial|]. simpl. intros Hc. rewrite Hc. exact Hc.
Qed.

Lemma collapse_go_nonempty s b : s <> "" -> startsClean s -> collapse_go s b <> "".
Proof.
  destruct s as [|c s]; [contradiction|]. simpl. intros _ Hc. rewrite Hc. discriminate.
Qed.

Lemma collapse_go_endsClean s : forall b, endsClean s -> endsClean (collapse_go s b).
Proof.
  induction s as [|c s IH]; intros b Hs; [exact I|].
  destruct s as [|c2 r].
  - simpl in Hs |- *. rewrite Hs. exact Hs.
  - assert (Hr : forall b', endsClean (collapse_go (String c2 r) b')) by (intros b'; apply IH, Hs).
    change (collapse_go (String c (String c2 r)) b)
      with (if isWhiteSpace c
            then if b then collapse_go (String c2 r) true
                 else String " "%char (collapse_go (String c2 r) true)
            else String c (collapse_go (String c2 r) false)).
    destruct (isWhiteSpace c).
    + destruct b; [apply Hr|]. specialize (Hr true).
      destruct (collapse_go (String c2 r) true) eqn:E; [|exact Hr].
      exfalso. clear -E Hs. revert E. generalize true.
      induction r as [|c3 r IH] in c2, Hs |- *; intros b E; simpl in *.
      * rewrite Hs in E. discriminate.
      * destruct (isWhiteSpace c2); [destruct b; [|discriminate]|discriminate].
        apply (IH c3 Hs true E).
    + specialize (Hr false).
      destruct (collapse_go (String c2 r) false) eqn:E; [|exact Hr].
      exfalso. clear -E Hs. revert E. generalize false.
      induction r as [|c3 r IH] in c2, Hs |- *; intros b E; simpl in *.
      * rewrite Hs in E. discriminate.
      * destruct (isWhiteSpace c2); [destruct b; [|discriminate]|discriminate].
        apply (IH c3 Hs true E).
Qed.

(** The tidied text has single spaces and clean ends, and it is empty
    only for a blank story. *)
Lemma tidyText_spaced story :
  spaced (tidyText story) /\ startsClean (tidyText story) /\ endsClean (tidyText story)
  /\ (trim story <> "" -> tidyText story <> "").
Proof.
  unfold tidyText, collapseWhiteSpace. destruct (trim_clean story) as [Hs He].
  split; [apply collapse_go_spaced|].
  split; [apply collapse_go_startsClean, replaceCRLF_startsClean, Hs|].
  split; [apply collapse_go_endsClean, replaceCRLF_endsClean, He|].
  intros Hne. apply collapse_go_nonempty;
    [apply replaceCRLF_nonempty, Hne|apply replaceCRLF_startsClean, Hs].
Qed.

(** ** The matcher and its captures *)

(** What the matcher consumes is a word of the expression, and the
    captures it hands on are those the word adds. *)
Lemma rmatch_sound_caps {R} icase r :
  forall caps (k : list string -> string -> option R) s res,
    rmatch icase r caps k s = Some res ->
    exists w s' cs, s = w +:+ s' /\ LangC icase r w cs /\ k (caps ++ cs) s' = Some res.
Proof.
  induction r as [|p|p|r1 IH1 r2 IH2|r1 IH1 r2 IH2|r1 IH1|g p|g p|r1 IH1|];
    intros caps k s res H; cbn [rmatch] in H; cbn [LangC].
  - exists "", s, []. rewrite app_nil_r. auto.
  - destruct s as [|c s']; [discriminate|].
    destruct (litMatches icase p c) eqn:E; [|discriminate].
    exists (String c ""), s', []. rewrite app_nil_r. split; [reflexivity|]. eauto.
  - destruct s as [|c s']; [discriminate|]. destruct (p c) eqn:E; [|discriminate].
    exists (String c ""), s', []. rewrite app_nil_r. split; [reflexivity|]. eauto.
  - destruct (IH1 _ _ _ _ H) as (w1 & s1 & cs1 & -> & Hw1 & H2).
    destruct (IH2 _ _ _ _ H2) as (w2 & s2 & cs2 & -> & Hw2 & Hk).
    exists (w1 +:+ w2), s2, (cs1 ++ cs2). rewrite append_assoc, app_assoc.
    split; [reflexivity|]. split; [|exact Hk]. exists w1, w2, cs1, cs2. auto.
  - unfold orElse in H. destruct (rmatch icase r1 caps k s) eqn:E.
    + injection H as <-. destruct (IH1 _ _ _ _ E) as (w & s' & cs & -> & Hw & Hk).
      exists w, s', cs. auto.
    + destruct (IH2 _ _ _ _ H) as (w & s' & cs & -> & Hw & Hk). exists w, s', cs. auto.
  - unfold orElse in H. destruct (rmatch icase r1 caps k s) eqn:E.
    + injection H as <-. destruct (IH1 _ _ _ _ E) as (w & s' & cs & -> & Hw & Hk).
      exists w, s', cs. auto.
    + exists "", s, []. rewrite app_nil_r. auto.
  - destruct (many1_sound _ _ _ _ _ H) as (w & s' & -> & Hne & Hw & Hk).
    exists w, s', []. rewrite app_nil_r. auto.
  - unfold many0, orElse in H.
    assert (Hnone : forall res', k caps s = Some res' ->
              exists w s' cs, s = w +:+ s' /\ (allChars p w /\ cs = [])
                              /\ k (caps ++ cs) s' = Some res').
    { intros res' Hk. exists "", s, []. rewrite app_nil_r. simpl. auto. }
    assert (Hsome : forall res', many1 g p (k caps) s = Some res' ->
              exists w s' cs, s = w +:+ s' /\ (allChars p w /\ cs = [])
                              /\ k (caps ++ cs) s' = Some res').
    { intros res' Hm. destruct (many1_sound _ _ _ _ _ Hm) as (w & s' & -> & _ & Hw & Hk).
      exists w, s', []. rewrite app_nil_r. auto. }
    destruct g.
    + destruct (many1 true p (k caps) s) eqn:E; [injection H as <-; apply Hsome; reflexivity|].
      apply Hnone, H.
    + destruct (k caps s) eqn:E; [injection H as <-; apply Hnone; reflexivity|].
      apply Hsome, H.
  - destruct (IH1 _ _ _ _ H) as (w & s' & cs & Hs & Hw & Hk).
    rewrite (sliceTo_prefix s w s' Hs) in Hk.
    exists w, s', (cs ++ [w]). rewrite app_assoc. split; [exact Hs|]. split; [|exact Hk].
    exists cs. auto.
  - destruct s; [|discriminate]. exists "", "", []. rewrite app_nil_r. auto.
Qed.

(** A successful [exec] found, somewhere in the input, a word of the
    expression with the captures it returns. *)
Lemma exec_sound_caps icase r s caps :
  exec icase r s = Some caps ->
  exists pre w post, s = pre +:+ w +:+ post /\ LangC icase r w caps.
Proof.
  assert (Hat : forall s', matchAtStart icase r s' = Some caps ->
                  exists w post, s' = w +:+ post /\ LangC icase r w caps).
  { intros s' E. unfold matchAtStart in E.
    destruct (rmatch_sound_caps _ _ _ _ _ _ E) as (w & post & cs & -> & Hw & Hk).
    injection Hk as <-. exists w, post. auto. }
  induction s as [|c s IH]; simpl; intros H.
  - destruct (matchAtStart icase r "") eqn:E; [|discriminate]. injection H as ->.
    destruct (Hat _ E) as (w & post & -> & Hw). exists "", w, post. auto.
  - destruct (matchAtStart icase r (String c s)) eqn:E.
    + injection H as ->. destruct (Hat _ E) as (w & post & -> & Hw). exists "", w, post. auto.
    + destruct (IH H) as (pre & w & post & -> & Hw). exists (String c pre), w, post. auto.
Qed.

(** An expression without groups adds no capture. *)
Lemma LangC_noGroup icase r : forall w cs,
  noGroup r = true -> LangC icase r w cs -> cs = [] /\ Lang icase r w.
Proof.
  induction r as [|p|p|r1 IH1 r2 IH2|r1 IH1 r2 IH2|r1 IH1|g p|g p|r1 IH1|];
    intros w cs Hn H; cbn [LangC Lang noGroup] in *; try tauto.
  - apply andb_true_iff in Hn. destruct Hn as [Hn1 Hn2].
    destruct H as (w1 & w2 & cs1 & cs2 & -> & -> & H1 & H2).
    destruct (IH1 _ _ Hn1 H1) as [-> L1]. destruct (IH2 _ _ Hn2 H2) as [-> L2].
    split; [reflexivity|]. exists w1, w2. auto.
  - apply andb_true_iff in Hn. destruct Hn as [Hn1 Hn2].
    destruct H as [H|H]; [destruct (IH1 _ _ Hn1 H)|destruct (IH2 _ _ Hn2 H)]; auto.
  - destruct H as [[-> ->]|H]; [auto|]. destruct (IH1 _ _ Hn H). auto.
  - discriminate.
Qed.

(** ** Normalising twice *)

Lemma trimStart_suffix s : exists pre, s = pre +:+ trimStart s.
Proof.
  induction s as [|c s IH]; simpl; [exists ""; reflexivity|].
  destruct (isWhiteSpace c); [|exists ""; reflexivity].
  destruct IH as (pre & IH). exists (String c pre). simpl. rewrite <- IH. reflexivity.
Qed.

Lemma trimEnd_prefix s : exists post, s = trimEnd s +:+ post.
Proof.
  induction s as [|c s IH]; [exists ""; reflexivity|]. rewrite trimEnd_cons.
  destruct IH as (post & IH). destruct (trimEnd s) as [|c' r'].
  - simpl in IH. destruct (isWhiteSpace c); [exists (String c s)|exists s]; reflexivity.
  - exists post. simpl. rewrite IH at 1. reflexivity.
Qed.

Lemma trimEnd_fixed s : s <> "" -> endsClean s -> trimEnd s = s.
Proof.
  induction s as [|c s IH]; intros Hne Hs; [contradiction|]. rewrite trimEnd_cons.
  destruct s as [|c2 r]; [simpl in *; rewrite Hs; reflexivity|].
  rewrite IH; [reflexivity|discriminate|exact Hs].
Qed.

(** Trimming a text with single spaces leaves single spaces and clean
    ends. *)
Lemma spaced_trim s : spaced s -> spacedGo true (trim s).
Proof.
  intros Hs. apply spacedGo_true. split; [|apply trim_clean].
  unfold trim. destruct (trimStart_suffix s) as (pre & Hpre).
  destruct (trimEnd_prefix (trimStart s)) as (post & Hpost).
  unfold spaced in Hs. rewrite Hpre, spacedGo_append in Hs. destruct Hs as [_ Hs].
  apply spacedGo_weaken in Hs. rewrite Hpost, spacedGo_append in Hs. tauto.
Qed.

Lemma LangC_spaced icase r : forall w cs a,
  LangC icase r w cs -> spacedGo a w -> Forall spaced cs.
Proof.
  induction r as [|p|p|r1 IH1 r2 IH2|r1 IH1 r2 IH2|r1 IH1|g p|g p|r1 IH1|];
    intros w cs a H Hw; cbn [LangC] in H;
    try (destruct H as [_ ->]; constructor).
  - destruct H as (w1 & w2 & cs1 & cs2 & -> & -> & H1 & H2).
    apply spacedGo_append in Hw. destruct Hw as [Hw1 Hw2].
    apply Forall_app. split; [apply (IH1 _ _ _ H1 Hw1)|apply (IH2 _ _ _ H2 Hw2)].
  - destruct H as [H|H]; [apply (IH1 _ _ _ H Hw)|apply (IH2 _ _ _ H Hw)].
  - destruct H as [[-> ->]|H]; [constructor|apply (IH1 _ _ _ H Hw)].
  - destruct H as (cs1 & H & ->). apply Forall_app. split; [apply (IH1 _ _ _ H Hw)|].
    constructor; [|constructor]. apply (spacedGo_weaken a), Hw.
Qed.

Lemma capture1_spaced icase r s dflt :
  spaced s -> spacedGo true dflt -> spacedGo true (capture1 (exec icase r s) dflt).
Proof.
  intros Hs Hd. unfold capture1. destruct (exec icase r s) as [[|c cs]|] eqn:E; try exact Hd.
  apply spaced_trim. destruct (exec_sound_caps _ _ _ _ E) as (pre & w & post & -> & Hw).
  unfold spaced in Hs. rewrite spacedGo_append in Hs. destruct Hs as [_ Hs].
  rewrite spacedGo_append in Hs. destruct Hs as [Hs _].
  assert (H := LangC_spaced _ _ _ _ _ Hw Hs). apply Forall_cons in H. tauto.
Qed.

(** The action read from a text with single spaces is not blank: it stands
    behind the space of [ to ]. *)
Lemma action_capture s c cs :
  spaced s -> exec true actionRegex s = Some (c :: cs) -> c <> "" /\ startsClean c.
Proof.
  intros Hs E. destruct (exec_sound_caps _ _ _ _ E) as (pre & w & post & -> & Hw).
  unfold actionRegex in Hw.
  set (verb := Alt (word "want") (Alt (word "need") (Alt (word "would like")
                 (word "should be able")))) in Hw.
  set (to := word " to ") in Hw. cbn [LangC] in Hw.
  destruct Hw as (w1 & w2 & cs1 & cs2 & -> & Hcs & H1 & w3 & w4 & cs3 & cs4 & -> & -> & H3
                  & cs5 & ((Hne & _) & ->) & ->).
  apply LangC_noGroup in H1; [|reflexivity]. destruct H1 as [-> _].
  apply LangC_noGroup in H3; [|reflexivity]. destruct H3 as [-> H3].
  simpl in Hcs. injection Hcs as -> _. split; [exact Hne|].
  apply Lang_word in H3. change (toLowerCase " to ") with (" to" +:+ " ") in H3.
  destruct (toLowerCase_split _ _ _ H3) as (x & y & -> & _ & Hy).
  destruct y as [|sp [|? ?]]; try discriminate. simpl in Hy. injection Hy as Hy.
  apply lowerChar_space in Hy. subst sp.
  unfold spaced in Hs. rewrite !spacedGo_append in Hs.
  destruct Hs as (_ & (_ & (_ & Hsp) & Hc) & _). simpl in Hsp.
  clear Hsp. rewrite stateAfter_append in Hc. change (stateAfter _ " ") with true in Hc.
  apply spacedGo_true in Hc. tauto.
Qed.

Lemma normalizeStory_head story : exists rest, normalizeStory story = String "A" rest.
Proof.
  rewrite normalizeStory_unfold. cbv zeta.
  destruct (matchAtStart true storyShape _) as [caps|] eqn:E.
  - destruct (storyShape_head _ _ E) as (c & rest & -> & Hc).
    rewrite capitalize_head, Hc. apply punctuate_head.
  - unfold storyTemplate. simpl. rewrite capitalize_head. apply punctuate_head.
Qed.

(** The normalised story of a story that is not blank has single
    spaces. *)
Lemma normalizeStory_spaced story : trim story <> "" -> spaced (normalizeStory story).
Proof.
  intros Hne. rewrite normalizeStory_unfold. cbv zeta.
  change (collapseWhiteSpace (replaceCRLF (trim story))) with (tidyText story).
  destruct (tidyText_spaced story) as (Hn & Hstart & Hend & Hnon). specialize (Hnon Hne).
  set (n := tidyText story) in *.
  assert (Hstep : forall x, spaced x -> spaced (punctuate (capitalize x))).
  { intros x Hx. assert (Hc : spaced (capitalize x)).
    { apply (spacedGo_case x); [symmetry; apply toLowerCase_capitalize|exact Hx]. }
    destruct (punctuate_cases (capitalize x)) as [-> | ->]; [exact Hc|].
    apply spacedGo_append. split; [exact Hc|exact I]. }
  apply Hstep. destruct (matchAtStart true storyShape n); [exact Hn|].
  set (role := capture1 (exec true roleRegex n) "user").
  set (action := capture1 (exec true actionRegex n) n).
  set (value := capture1 (exec true valueRegex n) "achieve the desired outcome").
  assert (Hr : spacedGo true role) by (apply capture1_spaced; [exact Hn|vm_compute; tauto]).
  assert (Hv : spacedGo true value) by (apply capture1_spaced; [exact Hn|vm_compute; tauto]).
  assert (Ha : spacedGo true action /\ action <> "" /\ endsClean action).
  { subst action. unfold capture1.
    destruct (exec true actionRegex n) as [[|c cs]|] eqn:E.
    - split; [apply spacedGo_true; auto|auto].
    - destruct (action_capture _ _ _ Hn E) as [Hc Hsc].
      assert (Hsp : spacedGo true (trim c)).
      { apply spaced_trim. destruct (exec_sound_caps _ _ _ _ E) as (pre & w & post & Hs & Hw).
        unfold spaced in Hn. rewrite Hs, spacedGo_append in Hn. destruct Hn as [_ Hn'].
        rewrite spacedGo_append in Hn'. destruct Hn' as [Hn' _].
        assert (H := LangC_spaced _ _ _ _ _ Hw Hn'). apply Forall_cons in H. tauto. }
      split; [exact Hsp|]. split; [|apply trim_clean].
      unfold trim. apply trimEnd_nonempty; [|apply trimStart_startsClean].
      destruct c as [|c0 c']; [contradiction|]. simpl in Hsc |- *. rewrite Hsc. discriminate.
    - split; [apply spacedGo_true; auto|auto]. }
  destruct Ha as (Ha & Hane & Haend).
  unfold spaced, storyTemplate.
  apply spacedGo_append. split; [vm_compute; tauto|]. change (stateAfter false "As a ") with true.
  apply spacedGo_append. split; [exact Hr|].
  apply (spacedGo_append false ", I want to "). split; [vm_compute; tauto|].
  change (stateAfter false ", I want to ") with true.
  apply spacedGo_append. split; [exact Ha|]. rewrite (stateAfter_clean _ _ Hane Haend).
  apply spacedGo_append. split; [vm_compute; tauto|exact Hv].
Qed.

Lemma anyChar_notCR c : anyChar c = true -> (nat_of_ascii c =? 13)%nat = false.
Proof. destruct c as [[] [] [] [] [] [] [] []]; vm_compute; congruence. Qed.

Lemma replaceCRLF_fixed s : allChars anyChar s -> replaceCRLF s = s.
Proof.
  induction s as [|c1 s IH]; [reflexivity|]. intros [Hc Hs]. rewrite replaceCRLF_cons.
  destruct s as [|c2 r]; [reflexivity|]. rewrite (anyChar_notCR _ Hc). simpl andb.
  rewrite (IH Hs). reflexivity.
Qed.

Lemma endPunct_notWhite c : isEndPunct c = true -> isWhiteSpace c = false.
Proof. destruct c as [[] [] [] [] [] [] [] []]; vm_compute; congruence. Qed.

Lemma endsClean_last front c : isWhiteSpace c = false -> endsClean (front +:+ String c "").
Proof.
  intros Hc. induction front as [|x front IH]; [exact Hc|].
  simpl. destruct (front +:+ String c "") eqn:E; [destruct front; discriminate|exact IH].
Qed.

Lemma test_endPunct_complete s : endsInPunctuation s -> test false endPunctRegex s = true.
Proof.
  intros (front & c & -> & Hc). unfold test.
  destruct (exec_complete false endPunctRegex front (String c "")) as [x ->]; [|reflexivity].
  unfold matchAtStart. simpl. rewrite Hc. eauto.
Qed.

(** A word of an expression with [$] in tail position only is matched
    when nothing follows it. *)
Lemma rmatch_complete_end {R} icase r : forall w caps (k : list string -> string -> option R),
  tailEos r = true -> Lang icase r w -> (forall caps', is_Some (k caps' "")) ->
  is_Some (rmatch icase r caps k w).
Proof.
  induction r as [|p|p|r1 IH1 r2 IH2|r1 IH1 r2 IH2|r1 IH1|g p|g p|r1 IH1|];
    intros w caps k Ht Hw Hk; simpl in Hw, Ht; cbn [rmatch].
  - subst w. apply Hk.
  - destruct Hw as (c & -> & Hc). rewrite Hc. apply Hk.
  - destruct Hw as (c & -> & Hc). rewrite Hc. apply Hk.
  - apply andb_true_iff in Ht. destruct Ht as [Hn1 Ht2].
    destruct Hw as (w1 & w2 & -> & Hw1 & Hw2).
    apply rmatch_complete; [assumption..|]. intros caps'. apply IH2; assumption.
  - apply andb_true_iff in Ht. destruct Ht as [Ht1 Ht2]. apply is_Some_orElse.
    destruct Hw as [Hw|Hw]; [left; apply IH1|right; apply IH2]; assumption.
  - apply is_Some_orElse. destruct Hw as [->|Hw]; [right; apply Hk|left; apply IH1; assumption].
  - destruct Hw as [Hw1 Hw2]. rewrite <- (append_nil_r w).
    apply many1_complete; [assumption..|apply Hk].
  - unfold many0. destruct w as [|c w'].
    + destruct g; simpl; first [apply Hk | apply is_Some_orElse; left; apply Hk].
    + assert (Hm : is_Some (many1 g p (k caps) (String c w'))).
      { rewrite <- (append_nil_r (String c w')).
        apply many1_complete; [discriminate|exact Hw|apply Hk]. }
      destruct g; apply is_Some_orElse; tauto.
  - apply IH1; [assumption..|]. intros caps'. apply Hk.
  - subst w. apply Hk.
Qed.

(** A one-line text that starts with a text of the story format has the
    story shape as a whole. *)
Lemma storyFormat_shape t :
  storyFormat t -> allChars anyChar t -> is_Some (matchAtStart true storyShape t).
Proof.
  intros (w & rest & -> & Hw) Ht. apply allChars_append in Ht. destruct Ht as [_ Hrest].
  unfold matchAtStart. apply rmatch_complete_end; [reflexivity| |eauto].
  unfold formatRegex in Hw. unfold storyShape. cbn [Lang] in *.
  destruct Hw as (a & r1 & -> & Ha & X & r2 & -> & HX & b & r3 & -> & Hb & Y & r4 & -> & HY
                  & c & Z & -> & Hc & HZ).
  exists a, ((X +:+ b +:+ Y +:+ c +:+ Z) +:+ rest). split; [rewrite !append_assoc; reflexivity|].
  split; [apply Lang_word; apply Lang_word in Ha; exact Ha|].
  exists X, ((b +:+ Y +:+ c +:+ Z) +:+ rest). split; [rewrite !append_assoc; reflexivity|].
  split; [exact HX|].
  exists b, ((Y +:+ c +:+ Z) +:+ rest). split; [rewrite !append_assoc; reflexivity|].
  split; [apply Lang_word; apply Lang_word in Hb; exact Hb|].
  exists Y, ((c +:+ Z) +:+ rest). split; [rewrite !append_assoc; reflexivity|].
  split; [exact HY|].
  exists c, (Z +:+ rest). split; [rewrite !append_assoc; reflexivity|].
  split; [apply Lang_word; apply Lang_word in Hc; exact Hc|].
  exists (Z +:+ rest), "". split; [symmetry; apply append_nil_r|]. split; [|reflexivity].
  destruct HZ as [HZne HZ]. split; [destruct Z; [contradiction|discriminate]|].
  apply allChars_append. split; assumption.
Qed.

(** X23. Normalising is idempotent on every story that is not blank:
    the normalised story is already tidy, has the story shape, is
    capitalised and punctuated, so a second pass returns it unchanged.
    On a blank story it is not: the second pass removes the double space
    the empty action leaves in the template. *)
Theorem normalizeStory_idempotent (story : string) :
  (trim story <> "" -> normalizeStory (normalizeStory story) = normalizeStory story)
  /\ (allChars isWhiteSpace story ->
      normalizeStory (normalizeStory story)
      = "As a user, i want to so that achieve the desired outcome."
      /\ normalizeStory (normalizeStory story) <> normalizeStory story).
Proof.
  split.
  - intros Hne. set (t := normalizeStory story).
    destruct (normalizeStory_head story) as (rest & Hhead). fold t in Hhead.
    destruct (normalizeStory_line_lower story) as [Hline Hlow]. fold t in Hline, Hlow.
    assert (Hend : endsInPunctuation t).
    { subst t. rewrite normalizeStory_unfold. apply punctuate_ends. }
    assert (Htidy : collapseWhiteSpace (replaceCRLF (trim t)) = t).
    { assert (Htrim : trim t = t).
      { unfold trim. rewrite Hhead. change (trimStart (String "A" rest)) with (String "A" rest).
        rewrite <- Hhead. apply trimEnd_fixed; [rewrite Hhead; discriminate|].
        destruct Hend as (front & c & -> & Hc). apply endsClean_last, endPunct_notWhite, Hc. }
      rewrite Htrim, (replaceCRLF_fixed _ Hline). unfold collapseWhiteSpace.
      apply (collapse_go_fixed t false false); [apply normalizeStory_spaced, Hne|discriminate]. }
    rewrite (normalizeStory_unfold t). cbv zeta. rewrite Htidy.
    destruct (storyFormat_shape t (normalizeStory_format story) Hline) as [caps ->].
    assert (Hcap : capitalize t = t).
    { rewrite Hhead in Hlow |- *. rewrite capitalize_head. simpl in Hlow. rewrite Hlow.
      reflexivity. }
    rewrite Hcap. unfold punctuate. rewrite (test_endPunct_complete _ Hend). reflexivity.
  - intros Hwhite.
    assert (E : normalizeStory story
                = "As a user, i want to  so that achieve the desired outcome.").
    { unfold normalizeStory, trim. rewrite (trimStart_white _ Hwhite). reflexivity. }
    rewrite E. split; [vm_compute; reflexivity|]. vm_compute. discriminate.
Qed.

Lemma normalizeStory_idempotent_witness :
  normalizeStory (normalizeStory "I need to reset my password, in order to regain access.")
  = normalizeStory "I need to reset my password, in order to regain access.".
Proof.
  apply (normalizeStory_idempotent "I need to reset my password, in order to regain access.").
  vm_compute. discriminate.
Defined.

(** ** Ranking and dominance *)

Lemma StronglySorted_precedes {A} (key : A -> Q) (a b : A) l :
  StronglySorted (notBelow key) l -> precedes a b l -> key b <= key a.
Proof.
  induction 1 as [|x r Hr IH Hx]; intros Hp.
  - apply precedes_elem_of in Hp. destruct Hp as [Hp _]. apply elem_of_nil in Hp. contradiction.
  - apply precedes_cons in Hp. destruct Hp as [[-> Hb]|Hp]; [|apply IH, Hp].
    rewrite Forall_forall in Hx. apply Hx, Hb.
Qed.

(** X24. The ranking respects dominance: with weights that are not
    negative, a story whose two raw scores are not below those of another
    story of the same ranking has normalised scores and a fused score not
    below the other's, and stands behind the other only if their fused
    scores are equal. *)
Theorem performHybridSearch_dominance
    (Math_sqrt : Q -> Q) (collection : list Document) (queryEmbedding : list Q)
    (text : string) (config : NormalizedConfig) (x y : RankedStory) :
  0 <= nVectorWeight config -> 0 <= nBm25Weight config ->
  x ∈ performHybridSearch Math_sqrt collection queryEmbedding text config ->
  y ∈ performHybridSearch Math_sqrt collection queryEmbedding text config ->
  vector_score y <= vector_score x -> bm25_score y <= bm25_score x ->
  vector_score_norm y <= vector_score_norm x
  /\ bm25_score_norm y <= bm25_score_norm x
  /\ hybrid_score y <= hybrid_score x
  /\ (precedes y x (performHybridSearch Math_sqrt collection queryEmbedding text config) ->
      hybrid_score y == hybrid_score x).
Proof.
  intros Wv Wb Hx Hy Hvec Hbm.
  assert (Hnorm : vector_score_norm y <= vector_score_norm x
                  /\ bm25_score_norm y <= bm25_score_norm x
                  /\ hybrid_score y <= hybrid_score x).
  { destruct collection as [|d docs].
    - apply list_elem_of_singleton in Hx, Hy. subst x y. repeat split; apply Qle_refl.
    - apply performHybridSearch_elem in Hx; [|discriminate].
      apply performHybridSearch_elem in Hy; [|discriminate].
      set (merged := mergeResults _ _) in *. unfold normalizeResults in Hx, Hy.
      apply list_elem_of_fmap in Hx, Hy.
      destruct Hx as (rx & -> & Hrx). destruct Hy as (ry & -> & Hry).
      cbn [normalizeResult vector_score bm25_score vector_score_norm bm25_score_norm
           hybrid_score] in *.
      assert (Hv : normalizeScore (vector_score ry) (Math_min (map vector_score merged))
                     (Math_max (map vector_score merged))
                   <= normalizeScore (vector_score rx) (Math_min (map vector_score merged))
                        (Math_max (map vector_score merged))).
      { apply normalizeScore_mono; [|exact Hvec].
        apply (Math_min_le_max _ (vector_score rx)), list_elem_of_fmap. eauto. }
      assert (Hb : normalizeScore (bm25_score ry) (Math_min (map bm25_score merged))
                     (Math_max (map bm25_score merged))
                   <= normalizeScore (bm25_score rx) (Math_min (map bm25_score merged))
                        (Math_max (map bm25_score merged))).
      { apply normalizeScore_mono; [|exact Hbm].
        apply (Math_min_le_max _ (bm25_score rx)), list_elem_of_fmap. eauto. }
      split; [exact Hv|]. split; [exact Hb|].
      apply Qplus_le_compat; apply Qmult_le_compat_r; assumption. }
  destruct Hnorm as (Hv & Hb & Hh). repeat split; try assumption.
  intros Hp. apply Qle_antisym; [exact Hh|].
  apply (StronglySorted_precedes hybrid_score y x _
           (performHybridSearch_sorted Math_sqrt collection queryEmbedding text config) Hp).
Qed.

Lemma performHybridSearch_dominance_witness :
  map story_id (performHybridSearch sqrtOnSquares dominanceCollection [1; 0] "x"
                  (normalizeWeights DEFAULT_CONFIG)) = ["b"; "a"]
  /\ hybrid_score
       (nth 1 (performHybridSearch sqrtOnSquares dominanceCollection [1; 0] "x"
                 (normalizeWeights DEFAULT_CONFIG)) placeholderStory)
     <= hybrid_score
          (nth 0 (performHybridSearch sqrtOnSquares dominanceCollection [1; 0] "x"
                    (normalizeWeights DEFAULT_CONFIG)) placeholderStory)
  /\ ~ hybrid_score
         (nth 1 (performHybridSearch sqrtOnSquares dominanceCollection [1; 0] "x"
                   (normalizeWeights DEFAULT_CONFIG)) placeholderStory)
       == hybrid_score
            (nth 0 (performHybridSearch sqrtOnSquares dominanceCollection [1; 0] "x"
                      (normalizeWeights DEFAULT_CONFIG)) placeholderStory).
Proof.
  split; [reflexivity|]. split; [|vm_compute; discriminate].
  apply (performHybridSearch_dominance sqrtOnSquares dominanceCollection [1; 0] "x"
           (normalizeWeights DEFAULT_CONFIG)
           (nth 0 (performHybridSearch sqrtOnSquares dominanceCollection [1; 0] "x"
                     (normalizeWeights DEFAULT_CONFIG)) placeholderStory)
           (nth 1 (performHybridSearch sqrtOnSquares dominanceCollection [1; 0] "x"
                     (normalizeWeights DEFAULT_CONFIG)) placeholderStory)).
  - vm_compute. discriminate.
  - vm_compute. discriminate.
  - vm_compute. apply list_elem_of_here.
  - vm_compute. apply list_elem_of_further, list_elem_of_here.
  - vm_compute. discriminate.
  - vm_compute. discriminate.
Defined.

(** ** A re-ranker without weight *)

(** What a score that is not finite does: with the hybrid weight 0 the
    product with Infinity, and with it the final score, is NaN, which
    the comparator of the sort reads as 0. *)
Lemma Binary64_infinite_judge_score :
  PrimFloat.is_nan
    (Binary64.finalHybrid 1 1 PrimFloat.infinity (0x1.8p-1, 0x1p-2, 0)%float) = true
  /\ Binary64.orIfZero
       (Binary64.finalHybrid 1 1 PrimFloat.infinity (0x1.8p-1, 0x1p-2, 0)%float) 0 = 0%float
  /\ Binary64.finalHybrid 1 1 PrimFloat.infinity (0x1p-1, 0x1p-2, 0x1p-2)%float
     = PrimFloat.infinity.
Proof.
  split; [|split]; vm_compute; reflexivity.
Qed.

(** A judge in the finite model is a judge with finite scores. *)
Lemma finiteJudge_ofFiniteJson (JSON_parse : string -> option JudgeJson) :
  finiteJudge (fun s => option_map ofFiniteJson (JSON_parse s)).
Proof.
  intros s parsed H. destruct (JSON_parse s) as [p|]; [|discriminate].
  injection H as <-. unfold ofFiniteJson, isInfinite. simpl.
  destruct (json_llm_score p); intros [E|E]; discriminate.
Qed.

(** X25. With a hybrid weight of 0 a judge whose scores are finite
    numbers cannot change the ranking: whether its calls fail, its
    replies parse or not, and whatever finite scores they hold, every
    final score is the provisional one and the re-ranked list is the
    ranking of the search, story by story in the same order.  A judge
    with an infinite score can: the product of the weight 0 and the
    score is NaN, so is the final score of the story, and the story is
    sorted with the key 0. *)
Theorem enhanceWithLLM_zero_weight
    (Math_sqrt : Q -> Q) (mistral_chat : nat -> string -> string -> ChatOutcome)
    (JSON_parse : string -> option Extended.JudgeJson)
    (collection : list Document) (queryEmbedding : list Q) (text : string)
    (config : NormalizedConfig) :
  nHybridWeight config == 0 ->
  let candidates := performHybridSearch Math_sqrt collection queryEmbedding text config in
  let enhance := Extended.enhanceCandidate mistral_chat JSON_parse text config in
  let enhanced := Extended.enhanceWithLLM mistral_chat JSON_parse candidates text config in
  (finiteJudge JSON_parse ->
   map Extended.base enhanced = candidates
   /\ Forall (fun e => exists f, Extended.hybrid_score_final e = Extended.Finite f
                                 /\ f == hybrid_score (Extended.base e)) enhanced)
  /\ (forall i c reply jsonMatch rest parsed,
        candidates !! i = Some c ->
        mistral_chat i text (sliceTo 400 (story_content c)) = ChatContent reply ->
        exec false jsonRegex reply = Some (jsonMatch :: rest) ->
        JSON_parse jsonMatch = Some parsed ->
        isInfinite (Extended.json_llm_score parsed) ->
        Extended.hybrid_score_final (enhance i c) = Extended.NaN
        /\ sortKey (enhance i c) = Extended.Finite 0).
Proof.
  intros Hzero candidates enhance enhanced. split.
  - intros Hfin.
    assert (Hfinal : forall i c, c ∈ candidates ->
              exists f, Extended.hybrid_score_final (enhance i c) = Extended.Finite f
                        /\ f == hybrid_score c).
    { intros i c Hc. destruct (performHybridSearch_candidate _ _ _ _ _ _ Hc) as (_ & _ & Heq).
      subst enhance. unfold Extended.enhanceCandidate.
      destruct (mistral_chat i text (sliceTo 400 (story_content c))) as [|reply].
      - exists (hybrid_score c). split; reflexivity.
      - destruct (Extended_parseJudgeContent_finite JSON_parse reply Hfin) as [q Hq].
        destruct (Extended.parseJudgeContent JSON_parse reply) as [llmScore reason].
        cbn [fst] in Hq. subst llmScore. cbn [Extended.hybrid_score_final].
        eexists. split; [reflexivity|]. rewrite Heq, Hzero. ring. }
    assert (Hsame : enhanced = imap enhance candidates).
    { subst enhanced. unfold Extended.enhanceWithLLM.
      apply (Array_sort_of_sorted_by _ rankedBefore).
      - intros x y. apply byFinalScoreDesc_test.
      - apply (StronglySorted_imap_rel (notBelow hybrid_score));
          [|apply performHybridSearch_sorted].
        intros i j c d Hc Hd Hcd. unfold rankedBefore, sortKey.
        destruct (Hfinal i c Hc) as (fc & -> & Efc).
        destruct (Hfinal j d Hd) as (fd & -> & Efd).
        simpl. unfold notBelow in Hcd. rewrite Efc, Efd. exact Hcd. }
    rewrite Hsame. split.
    + apply list_eq. intros i. rewrite list_lookup_fmap, list_lookup_imap.
      destruct (candidates !! i); simpl; [|reflexivity].
      subst enhance. rewrite Extended_base_enhanceCandidate. reflexivity.
    + apply Forall_forall. intros e He. apply elem_of_lookup_imap in He.
      destruct He as (i & c & -> & Hc). subst enhance.
      rewrite Extended_base_enhanceCandidate.
      apply Hfinal. eapply list_elem_of_lookup_2, Hc.
  - intros i c reply jsonMatch rest parsed _ Hchat Hexec Hparse Hinf.
    subst enhance. unfold sortKey, Extended.enhanceCandidate. rewrite Hchat.
    unfold Extended.parseJudgeContent. rewrite Hexec, Hparse.
    cbn [Extended.hybrid_score_final].
    destruct Hinf as [-> | ->]; simpl; rewrite (Qeq_eq_bool _ _ Hzero); split; reflexivity.
Qed.

Lemma enhanceWithLLM_zero_weight_witness :
  map Extended.base
      (Extended.enhanceWithLLM (chatAnswers scoreFiveJson)
         (fun s => option_map ofFiniteJson (parseScoreFive s))
         (performHybridSearch sqrtOnSquares tieCollection [1; 0] "x"
            (normalizeWeights (mkConfig (6 # 10) (4 # 10) 0 6)))
         "x" (normalizeWeights (mkConfig (6 # 10) (4 # 10) 0 6)))
  = performHybridSearch sqrtOnSquares tieCollection [1; 0] "x"
      (normalizeWeights (mkConfig (6 # 10) (4 # 10) 0 6))
  /\ Extended.hybrid_score_final
       (Extended.enhanceCandidate (chatAnswers scoreHugeJson) parseScoreHuge "x"
          (normalizeWeights (mkConfig (6 # 10) (4 # 10) 0 6)) 0
          (nth 0 (performHybridSearch sqrtOnSquares tieCollection [1; 0] "x"
                    (normalizeWeights (mkConfig (6 # 10) (4 # 10) 0 6)))
               placeholderStory))
     = Extended.NaN.
Proof.
  split.
  - destruct (enhanceWithLLM_zero_weight sqrtOnSquares (chatAnswers scoreFiveJson)
                (fun s => option_map ofFiniteJson (parseScoreFive s))
                tieCollection [1; 0] "x" (normalizeWeights (mkConfig (6 # 10) (4 # 10) 0 6)))
      as (Hfinite & _); [reflexivity|].
    apply Hfinite, finiteJudge_ofFiniteJson.
  - destruct (enhanceWithLLM_zero_weight sqrtOnSquares (chatAnswers scoreHugeJson)
                parseScoreHuge
                tieCollection [1; 0] "x" (normalizeWeights (mkConfig (6 # 10) (4 # 10) 0 6)))
      as (_ & Hinfinite); [reflexivity|].
    eapply Hinfinite.
    + vm_compute. reflexivity.
    + reflexivity.
    + vm_compute. reflexivity.
    + vm_compute. reflexivity.
    + left. reflexivity.
Defined.
